(** * Password generator: the constrained random-generation core

    A shallow embedding of the generation functions of
    [assets/password-generator.js] (generatePasswords, validateConstraints,
    secureRandom, filterSimilarChars, generateSinglePassword,
    generateNoDuplicatePassword, getValidChar, isValidChar) and the
    properties of the design document that are about them; then of the
    option updaters (updateNoStartNumber, updateNoStartSymbol,
    updateNoSimilar, updateAllOptions), of getSettingsFromForm, of
    getCookie, and of the earlier generator kept in the first part of the
    file.

    Modelling choices.
    - A JavaScript string is the list of its UTF-16 code units, each a [Z];
      [charCodeAt] is then the identity.  Indexing ([s[i]]), [length],
      [split] and the regular expression [[0-9]] work on the units.  The
      string iterator behind [for .. of] and the spread [[...s]] does not:
      it yields code points, and a high surrogate followed by a low one
      comes out as one string of two units ([codePoints]).
    - [s[i]] is the list lookup [s !! i]; [None] is the value [undefined]
      that JavaScript yields out of range.
    - A JavaScript [Set] is a [gset].  [usedChars] only ever receives
      characters read by index, one unit each, and is a [gset Z]; a set
      made from a spread string holds the code points of that string,
      one or two units each, and is a [gset (list Z)], in which
      the character [c] is looked up as the string [[c]].  A value that
      may be [null] is an [option].
    - The numbers of the settings record ([length], [amount]) are integers
      ([parseInt] results), kept in [Z].
    - The random source is a fixed but arbitrary sequence [raw] of raw
      values; the state threaded through the generators counts how many
      of them have been read. *)

From Stdlib Require Import ZArith String Ascii Lia.
From stdpp Require Import base numbers list gmap sets strings.

Local Open Scope Z_scope.

(** ** Strings *)

Definition codes (s : string) : list Z :=
  (fun a => Z.of_nat (nat_of_ascii a)) <$> list_ascii_of_string s.

Definition numbersSet : list Z := Eval cbv in codes "0123456789".
Definition lowercaseSet : list Z := Eval cbv in codes "abcdefghijklmnopqrstuvwxyz".
Definition uppercaseSet : list Z := Eval cbv in codes "ABCDEFGHIJKLMNOPQRSTUVWXYZ".
Definition defaultSymbols : list Z := Eval cbv in codes "!#%*+-=?@^_~".
Definition similarChars : list Z := Eval cbv in codes "iIl1oO0".

(** [!s] for a string: the empty string is the only falsy one. *)
Definition isEmpty (s : list Z) : bool :=
  match s with [] => true | _ => false end.

(** The character class [[0-9]]. *)
Definition isDigit (c : Z) : bool := (48 <=? c) && (c <=? 57).

(** [s] starts with [x]. *)
Fixpoint startsWith (x s : list Z) : bool :=
  match x, s with
  | [], _ => true
  | a :: x', b :: s' => (a =? b) && startsWith x' s'
  | _ :: _, [] => false
  end.

(** The surrogate code units, [0xD800 .. 0xDBFF] and [0xDC00 .. 0xDFFF]. *)
Definition isHighSurrogate (c : Z) : bool := (55296 <=? c) && (c <=? 56319).
Definition isLowSurrogate (c : Z) : bool := (56320 <=? c) && (c <=? 57343).

(** The string iterator of [for (.. of s)] and [[...s]]: the code points
    of [s], each as a string.  A high surrogate followed by a low one is
    one code point of two units; every other unit, a surrogate on its own
    included, is a code point by itself. *)
Fixpoint codePoints (s : list Z) : list (list Z) :=
  match s with
  | [] => []
  | c :: s' =>
      match s' with
      | d :: s'' =>
          if isHighSurrogate c && isLowSurrogate d
          then [c; d] :: codePoints s''
          else [c] :: codePoints s'
      | [] => [[c]]
      end
  end.

(** [s.split(sym).join("")]: the occurrences of [sym] in [s], found from
    left to right, are taken out; [skip] counts the units of the
    occurrence just found that are still to be dropped.  An empty [sym]
    splits between the units and takes nothing out. *)
Fixpoint removeFrom (sym : list Z) (skip : nat) (s : list Z) : list Z :=
  match s with
  | [] => []
  | c :: s' =>
      match skip with
      | S skip' => removeFrom sym skip' s'
      | O =>
          if negb (isEmpty sym) && startsWith sym (c :: s')
          then removeFrom sym (length sym - 1) s'
          else c :: removeFrom sym 0 s'
      end
  end.

Definition removeAll (sym s : list Z) : list Z := removeFrom sym 0 s.

(** [Array.prototype.slice(0, e)] for an integer [e]: a negative end
    counts from the back. *)
Definition slice0 {A} (e : Z) (l : list A) : list A :=
  if e <? 0 then take (Z.to_nat (Z.of_nat (length l) + e)) l
  else take (Z.to_nat e) l.

(** ** Settings and outcomes *)

Module Settings.
Record t : Type := Build {
  length : Z;
  amount : Z;
  includeNumbers : bool;
  includeLowercase : bool;
  includeUppercase : bool;
  includeSymbols : bool;
  customSymbols : list Z;
  noStartNumber : bool;
  noStartSymbol : bool;
  noSimilar : bool;
  noDuplicate : bool;
  noSequential : bool
}.
End Settings.

(** The errors the generator shows or throws, one constructor per message
    of the source.  The names of the design document are given on the
    right. *)
Inductive error : Type :=
  | SelectCharType                      (* EmptyCharsetError *)
  | NoStartingChars                     (* EmptyFirstCharPoolError *)
  | NotEnoughUnique (available required : Z)  (* NotEnoughUniqueCharsError *)
  | NoFirstPosition                     (* second check of validateConstraints *)
  | NoCharsAfterSimilar                 (* empty charset after the similar filter *)
  | NoStartAfterSimilar                 (* empty first pool after the similar filter *)
  | FailedStartingChar                  (* CharacterExhaustionError at position 0 *)
  | FailedPosition (position : Z)       (* CharacterExhaustionError, 1-based *)
  | InvalidArrayLength                  (* RangeError of [new Array(length)] *)
  | ReadUndefined.
  (* [ReadUndefined] is no exception of the source: it marks the runs in
     which the source reads [pool[NaN]] off an empty pool and carries the
     value [undefined] on.  [generatePasswords] never gets there, see
     [generatePasswords_defined]. *)

(** A number that may be [Infinity]. *)
Inductive num : Type :=
  | Fin (z : Z)
  | Infinity.

(** [n >= q] *)
Definition geNum (n : Z) (q : num) : bool :=
  match q with Fin z => z <=? n | Infinity => false end.

(** [n >= q * 0.9].  For a finite [q] the double [q * 0.9] is an integer
    exactly when [9 q] is a multiple of ten and is otherwise at least a
    tenth away from every integer, so that the comparison with the integer
    [n] is that of [10 n] with [9 q]. *)
Definition geNineTenths (n : Z) (q : num) : bool :=
  match q with Fin z => 9 * z <=? 10 * n | Infinity => false end.

(** [Math.ceil(length * 0.1)].  The double [length * 0.1] rounds to the
    integer [length / 10] when ten divides [length], and is a tenth or more
    away from the integers otherwise: the result is the integer ceiling. *)
Definition ceilTenth (len : Z) : Z := (len + 9) / 10.

(** ** The generator monad: a state and an error *)

Record rstate : Type := RState {
  draws : nat;    (* raw random values read so far *)
  checks : nat    (* calls of isValidChar so far *)
}.

Definition Gen (A : Type) : Type := rstate -> (error + A) * rstate.

Definition ret {A} (a : A) : Gen A := fun st => (inr a, st).
Definition raise {A} (e : error) : Gen A := fun st => (inl e, st).
Definition bind {A B} (m : Gen A) (k : A -> Gen B) : Gen B :=
  fun st =>
    match m st with
    | (inl e, st') => (inl e, st')
    | (inr a, st') => k a st'
    end.

Declare Scope gen_scope.
Delimit Scope gen_scope with gen.
Notation "x <- m ;; k" := (bind m (fun x => k))
  (at level 100, m at next level, right associativity) : gen_scope.
Local Open Scope gen_scope.

Definition tickCheck : Gen unit :=
  fun st => (inr tt, RState (draws st) (S (checks st))).

(** ** The functions of the source *)

(** validateConstraints(length, charset, firstCharPool, noDuplicate) *)
Definition validateConstraints (len : Z) (charset firstCharPool : list Z)
    (noDuplicate : bool) : error + unit :=
  if noDuplicate && (Z.of_nat (length charset) <? len) then
    inl (NotEnoughUnique (Z.of_nat (length charset)) len)
  else if (length firstCharPool =? 0)%nat then inl NoFirstPosition
  else inr tt.

(** filterSimilarChars(charset, similarChars) *)
Definition filterSimilarChars (charset similar : list Z) : list Z :=
  if isEmpty similar then charset
  else
    let similarSet : gset (list Z) := list_to_set (codePoints similar) in
    filter (fun c => [c] ∉ similarSet) charset.

(** isValidChar(char, prevChar, usedChars, symbolsSet, symbolCount,
    maxSymbols, noSequential) *)
Definition isValidChar (char : Z) (prevChar : option Z)
    (usedChars : option (gset Z)) (symbolsSet : option (gset (list Z)))
    (symbolCount : Z) (maxSymbols : num) (noSequential : bool) : bool :=
  if match usedChars with Some u => bool_decide (char ∈ u) | None => false end
  then false
  else if noSequential &&
          match prevChar with
          | Some p => Z.abs (char - p) =? 1
          | None => false
          end
  then false
  else if match symbolsSet with
          | Some s => bool_decide ([char] ∈ s) && geNum symbolCount maxSymbols
          | None => false
          end
  then false
  else true.

Section Generator.

(** The raw values of the random source, in the order they are read. *)
Variable raw : nat -> nat.

(** secureRandom(max): one raw value reduced into [0, max).  Both
    branches of the source (a 32-bit value modulo [max], or
    [floor(Math.random() * max)]) return some value below [max]; every
    such value is [raw k mod max] for a suitable [raw k]. *)
Definition secureRandom (max : nat) : Gen nat :=
  fun st => (inr (raw (draws st) mod max)%nat,
             RState (S (draws st)) (checks st)).

Section Selector.
Variables (charset : list Z) (prevChar : option Z)
          (usedChars : option (gset Z)) (symbolsSet : option (gset (list Z)))
          (symbolCount : Z) (maxSymbols : num) (noSequential : bool).

Definition valid (c : Z) : bool :=
  isValidChar c prevChar usedChars symbolsSet symbolCount maxSymbols
              noSequential.

Definition hasStrictConstraints : bool :=
  match usedChars with
  | Some u => (length charset <? 2 * size u)%nat
  | None => false
  end
  || match symbolsSet with
     | Some _ => geNineTenths symbolCount maxSymbols
     | None => false
     end
  || noSequential.

(** The loop [for (let i = 0; i < attempts; i++)] of the fast path;
    [None] when every attempt was rejected. *)
Fixpoint fastAttempts (attempts : nat) : Gen (option Z) :=
  match attempts with
  | O => ret None
  | S k =>
      j <- secureRandom (length charset) ;;
      match charset !! j with
      | None => raise ReadUndefined
      | Some c =>
          _ <- tickCheck ;;
          if valid c then ret (Some c) else fastAttempts k
      end
  end.

(** The scan that builds [validChars]. *)
Fixpoint scanValid (rest validChars : list Z) : Gen (list Z) :=
  match rest with
  | [] => ret validChars
  | c :: rest' =>
      _ <- tickCheck ;;
      scanValid rest' (if valid c then validChars ++ [c] else validChars)
  end.

(** getValidChar(charset, prevChar, usedChars, symbolsSet, symbolCount,
    maxSymbols, noSequential); [None] is [null]. *)
Definition getValidChar : Gen (option Z) :=
  quick <- (if hasStrictConstraints then ret None else fastAttempts 5) ;;
  match quick with
  | Some c => ret (Some c)
  | None =>
      validChars <- scanValid charset [] ;;
      if (length validChars =? 0)%nat then ret None
      else
        j <- secureRandom (length validChars) ;;
        match validChars !! j with
        | Some c => ret (Some c)
        | None => raise ReadUndefined
        end
  end.
End Selector.

(** [[chars[i], chars[j]] = [chars[j], chars[i]]]: the right-hand side is
    read first, then [chars[i]] and [chars[j]] are written in that order.
    The shuffle only swaps positions that exist. *)
Definition swap {A} (i j : nat) (chars : list A) : list A :=
  match chars !! i, chars !! j with
  | Some a, Some b => <[j := a]> (<[i := b]> chars)
  | _, _ => chars
  end.

(** The loop [for (let i = chars.length - 1; i > 0; i--)] of the
    Fisher-Yates shuffle, from the index [i] down. *)
Fixpoint shuffleFrom {A} (i : nat) (chars : list A) : Gen (list A) :=
  match i with
  | O => ret chars
  | S i' =>
      j <- secureRandom (i + 1) ;;
      shuffleFrom i' (swap i j chars)
  end.

(** generateNoDuplicatePassword(length, charset, firstCharPool).  The
    array [chars] holds strings, the code points of the charset, and
    [join('')] puts those that are kept back together. *)
Definition generateNoDuplicatePassword (len : Z)
    (charset firstCharPool : list Z) : Gen (list Z) :=
  k <- secureRandom (length firstCharPool) ;;
  match firstCharPool !! k with
  | None => raise ReadUndefined
  | Some firstChar =>
      let chars := filter (fun c => c <> [firstChar]) (codePoints charset) in
      shuffled <- shuffleFrom (length chars - 1) chars ;;
      ret (firstChar :: mjoin (slice0 (len - 1) shuffled))
  end.

(** [usedChars.add(c)] when [noDuplicate]; [usedChars] is [null]
    otherwise. *)
Definition addUsed (c : Z) (usedChars : option (gset Z)) : option (gset Z) :=
  match usedChars with
  | Some u => Some ({[ c ]} ∪ u)
  | None => None
  end.

(** [if (symbolsSet2 && symbolsSet2.has(c)) symbolCount++] *)
Definition countSymbol (c : Z) (symbolsSet2 : option (gset (list Z)))
    (symbolCount : Z) : Z :=
  match symbolsSet2 with
  | Some s => if bool_decide ([c] ∈ s) then symbolCount + 1 else symbolCount
  | None => symbolCount
  end.

(** The loop [for (let i = 1; i < length; i++)] of generateSinglePassword
    with [todo] rounds left; [password] holds the positions below [i], and
    [prevChar] is the last of them. *)
Fixpoint fillRest (charset : list Z) (symbolsSet2 : option (gset (list Z)))
    (maxSymbols : num) (noSequential : bool)
    (todo : nat) (i : Z) (password : list Z) (prevChar : Z)
    (usedChars : option (gset Z)) (symbolCount : Z) : Gen (list Z) :=
  match todo with
  | O => ret password
  | S todo' =>
      nextChar <- getValidChar charset (Some prevChar) usedChars symbolsSet2
                               symbolCount maxSymbols noSequential ;;
      match nextChar with
      | None => raise (FailedPosition (i + 1))
      | Some c =>
          fillRest charset symbolsSet2 maxSymbols noSequential
                   todo' (i + 1) (password ++ [c]) c
                   (addUsed c usedChars) (countSymbol c symbolsSet2 symbolCount)
      end
  end.

(** generateSinglePassword(length, charset, firstCharPool, noSimilar,
    noDuplicate, noSequential, symbolsSet).  The array [passwordArray] is
    filled from position 0 upwards without a gap, so it is kept as the list
    of the characters written so far; writing position 0 into an array
    made with length 0 extends it to one element.  [new Array(length)]
    throws a RangeError unless [0 <= length <= 2^32 - 1]. *)
Definition generateSinglePassword (len : Z) (charset firstCharPool : list Z)
    (noSimilar noDuplicate noSequential : bool) (symbolsSet : list Z)
    : Gen (list Z) :=
  pools <- (if noSimilar then
              let charset' := filterSimilarChars charset similarChars in
              let firstCharPool' := filterSimilarChars firstCharPool similarChars in
              if (length charset' =? 0)%nat then raise NoCharsAfterSimilar
              else if (length firstCharPool' =? 0)%nat then raise NoStartAfterSimilar
              else ret (charset', firstCharPool')
            else ret (charset, firstCharPool)) ;;
  let charset := fst pools in
  let firstCharPool := snd pools in
  if noDuplicate && negb noSequential && isEmpty symbolsSet then
    generateNoDuplicatePassword len charset firstCharPool
  else
    let maxSymbols :=
      if isEmpty symbolsSet then Infinity else Fin (ceilTenth len) in
    let symbolsSet2 : option (gset (list Z)) :=
      if isEmpty symbolsSet then None
      else Some (list_to_set (codePoints symbolsSet)) in
    if (len <? 0) || (4294967295 <? len) then raise InvalidArrayLength
    else
      let usedChars : option (gset Z) :=
        if noDuplicate then Some ∅ else None in
      let symbolCount := 0 in
      firstChar <- getValidChar firstCharPool None usedChars symbolsSet2
                                symbolCount maxSymbols noSequential ;;
      match firstChar with
      | None => raise FailedStartingChar
      | Some c =>
          fillRest charset symbolsSet2 maxSymbols noSequential
                   (Z.to_nat (len - 1)) 1 [c] c
                   (addUsed c usedChars) (countSymbol c symbolsSet2 symbolCount)
      end.

(** ** generatePasswords *)

(** What one run leaves behind: the passwords appended to the list on the
    page, in order, and the error tooltip if one was shown. *)
Record output : Type := Output {
  passwordList : list (list Z);
  tooltip : option error
}.

(** The symbol set in use: the custom symbols, or the default ones when
    there are none; empty when symbols are off. *)
Definition symbolsSetOf (s : Settings.t) : list Z :=
  if Settings.includeSymbols s then
    if negb (isEmpty (Settings.customSymbols s)) then Settings.customSymbols s
    else defaultSymbols
  else [].

Definition charsetOf (s : Settings.t) : list Z :=
  let charset := [] in
  let charset := if Settings.includeNumbers s then charset ++ numbersSet else charset in
  let charset := if Settings.includeLowercase s then charset ++ lowercaseSet else charset in
  let charset := if Settings.includeUppercase s then charset ++ uppercaseSet else charset in
  let charset := if Settings.includeSymbols s then charset ++ symbolsSetOf s else charset in
  charset.

Definition firstCharPoolOf (s : Settings.t) : list Z :=
  let firstCharPool := charsetOf s in
  let firstCharPool :=
    if Settings.noStartNumber s
    then filter (fun c => isDigit c = false) firstCharPool
    else firstCharPool in
  if Settings.noStartSymbol s && negb (isEmpty (symbolsSetOf s))
  then fold_left (fun pool sym => removeAll sym pool)
                 (codePoints (symbolsSetOf s)) firstCharPool
  else firstCharPool.

(** The loop [for (let i = 0; i < settings.amount; i++)]: [todo] rounds
    left, [done] the passwords already on the page.  A throw ends the
    loop; what was appended before stays. *)
Fixpoint generateLoop (s : Settings.t) (todo : nat) (done : list (list Z))
    (st : rstate) : output * rstate :=
  match todo with
  | O => (Output done None, st)
  | S todo' =>
      match generateSinglePassword (Settings.length s) (charsetOf s)
              (firstCharPoolOf s) (Settings.noSimilar s)
              (Settings.noDuplicate s) (Settings.noSequential s)
              (symbolsSetOf s) st with
      | (inl e, st') => (Output done (Some e), st')
      | (inr password, st') => generateLoop s todo' (done ++ [password]) st'
      end
  end.

(** generatePasswords(), from the settings record on. *)
Definition generatePasswords (s : Settings.t) (st : rstate)
    : output * rstate :=
  let charset := charsetOf s in
  if isEmpty charset then (Output [] (Some SelectCharType), st)
  else
    let firstCharPool := firstCharPoolOf s in
    if (length firstCharPool =? 0)%nat
    then (Output [] (Some NoStartingChars), st)
    else
      match validateConstraints (Settings.length s) charset firstCharPool
              (Settings.noDuplicate s) with
      | inl e => (Output [] (Some e), st)
      | inr _ => generateLoop s (Z.to_nat (Settings.amount s)) [] st
      end.

End Generator.

Arguments secureRandom raw max st : assert.

(** ** The form of the page *)

(** An input element: the three properties that the scripts read and
    write. *)
Record element : Type := Element {
  checked : bool;
  disabled : bool;
  value : list Z
}.

(** The document maps the ids to the elements; [getElementById] is the
    lookup and [None] is [null]. *)
Abbreviation document := (gmap string element).

Definition includeNumbersId : string := "include-numbers".
Definition includeLowercaseId : string := "include-lowercase".
Definition includeUppercaseId : string := "include-uppercase".
Definition includeSymbolsId : string := "include-symbols".
Definition noStartNumberId : string := "no-start-number".
Definition noStartSymbolId : string := "no-start-symbol".
Definition noSimilarId : string := "no-similar".
Definition noDuplicateId : string := "no-duplicate".
Definition noSequentialId : string := "no-sequential".
Definition saveSettingsId : string := "save-settings".
Definition passwordLengthId : string := "password-length".
Definition passwordAmountId : string := "password-amount".
Definition customSymbolsId : string := "custom-symbols".

(** [el.checked = b] and [el.disabled = b] *)
Definition setChecked (b : bool) (el : element) : element :=
  Element b (disabled el) (value el).
Definition setDisabled (b : bool) (el : element) : element :=
  Element (checked el) b (value el).

(** [el && el.checked] as a condition. *)
Definition isChecked (el : option element) : bool :=
  match el with Some e => checked e | None => false end.

(** updateNoStartNumber() *)
Definition updateNoStartNumber (doc : document) : document :=
  let includeNumbersCheckbox := doc !! includeNumbersId in
  let includeLowercaseCheckbox := doc !! includeLowercaseId in
  let includeUppercaseCheckbox := doc !! includeUppercaseId in
  let includeSymbolsCheckbox := doc !! includeSymbolsId in
  let noStartNumberCheckbox := doc !! noStartNumberId in
  match includeNumbersCheckbox, noStartNumberCheckbox with
  | Some includeNumbers, Some noStartNumber =>
      if negb (checked includeNumbers) then
        <[noStartNumberId := setDisabled true (setChecked false noStartNumber)]> doc
      else
        let hasOtherChars :=
          isChecked includeLowercaseCheckbox
          || isChecked includeUppercaseCheckbox
          || isChecked includeSymbolsCheckbox in
        if hasOtherChars then
          <[noStartNumberId := setDisabled false noStartNumber]> doc
        else
          <[noStartNumberId := setDisabled true (setChecked false noStartNumber)]> doc
  | _, _ => doc
  end.

(** updateNoStartSymbol() *)
Definition updateNoStartSymbol (doc : document) : document :=
  let includeNumbersCheckbox := doc !! includeNumbersId in
  let includeLowercaseCheckbox := doc !! includeLowercaseId in
  let includeUppercaseCheckbox := doc !! includeUppercaseId in
  let includeSymbolsCheckbox := doc !! includeSymbolsId in
  let noStartSymbolCheckbox := doc !! noStartSymbolId in
  match includeSymbolsCheckbox, noStartSymbolCheckbox with
  | Some includeSymbols, Some noStartSymbol =>
      if negb (checked includeSymbols) then
        <[noStartSymbolId := setDisabled true (setChecked false noStartSymbol)]> doc
      else
        let hasOtherChars :=
          isChecked includeLowercaseCheckbox
          || isChecked includeUppercaseCheckbox
          || isChecked includeNumbersCheckbox in
        if hasOtherChars then
          <[noStartSymbolId := setDisabled false noStartSymbol]> doc
        else
          <[noStartSymbolId := setDisabled true (setChecked false noStartSymbol)]> doc
  | _, _ => doc
  end.

(** updateNoSimilar() *)
Definition updateNoSimilar (doc : document) : document :=
  let includeNumbersCheckbox := doc !! includeNumbersId in
  let includeLowercaseCheckbox := doc !! includeLowercaseId in
  let includeUppercaseCheckbox := doc !! includeUppercaseId in
  let includeSymbolsCheckbox := doc !! includeSymbolsId in
  let noSimilarCheckbox := doc !! noSimilarId in
  match noSimilarCheckbox with
  | None => doc
  | Some noSimilar =>
      let numbersOnly :=
        isChecked includeNumbersCheckbox
        && negb (isChecked includeLowercaseCheckbox)
        && negb (isChecked includeUppercaseCheckbox)
        && negb (isChecked includeSymbolsCheckbox) in
      if numbersOnly then
        <[noSimilarId := setDisabled true (setChecked false noSimilar)]> doc
      else
        <[noSimilarId := setDisabled false noSimilar]> doc
  end.

(** updateAllOptions() *)
Definition updateAllOptions (doc : document) : document :=
  updateNoSimilar (updateNoStartSymbol (updateNoStartNumber doc)).

(** The settings record of the page with its [saveSettings] field. *)
Record formSettings : Type := FormSettings {
  settingsOf : Settings.t;
  saveSettings : bool
}.

Section Form.

(** [parseInt] on the text of an input; [None] is [NaN]. *)
Variable parseInt : list Z -> option Z.

Definition safeParseInt (text : list Z) (defaultValue : Z) : Z :=
  match parseInt text with
  | None => defaultValue
  | Some parsed => parsed
  end.

Definition getCheckboxState (doc : document) (id : string)
    (defaultValue : bool) : bool :=
  match doc !! id with
  | Some checkbox => checked checkbox
  | None => defaultValue
  end.

Definition getInputValue (doc : document) (id : string)
    (defaultValue : list Z) : list Z :=
  match doc !! id with
  | Some input => value input
  | None => defaultValue
  end.

(** getSettingsFromForm(), the one with the fallbacks for missing
    elements. *)
Definition getSettingsFromForm (doc : document) : formSettings :=
  FormSettings
    (Settings.Build
       (safeParseInt (getInputValue doc passwordLengthId []) 32)
       (safeParseInt (getInputValue doc passwordAmountId []) 15)
       (getCheckboxState doc includeNumbersId true)
       (getCheckboxState doc includeLowercaseId true)
       (getCheckboxState doc includeUppercaseId true)
       (getCheckboxState doc includeSymbolsId false)
       (getInputValue doc customSymbolsId defaultSymbols)
       (getCheckboxState doc noStartNumberId false)
       (getCheckboxState doc noStartSymbolId false)
       (getCheckboxState doc noSimilarId false)
       (getCheckboxState doc noDuplicateId false)
       (getCheckboxState doc noSequentialId false))
    (getCheckboxState doc saveSettingsId true).

End Form.

(** ** Cookies *)

(** The white space and line terminators that [String.prototype.trim]
    strips. *)
Definition isWhiteSpace (c : Z) : bool :=
  bool_decide (c ∈ [9; 10; 11; 12; 13; 32; 160; 5760; 8232; 8233; 8239;
                    8287; 12288; 65279])
  || ((8192 <=? c) && (c <=? 8202)).

Fixpoint trimStart (s : list Z) : list Z :=
  match s with
  | c :: s' => if isWhiteSpace c then trimStart s' else s
  | [] => []
  end.

(** [s.trim()] *)
Definition trim (s : list Z) : list Z :=
  reverse (trimStart (reverse (trimStart s))).

(** [s.split(sep)] for a separator of one code unit: the empty string
    splits into one empty segment. *)
Fixpoint split (sep : Z) (s : list Z) : list (list Z) :=
  match s with
  | [] => [[]]
  | c :: s' =>
      if c =? sep then [] :: split sep s'
      else match split sep s' with
           | segment :: segments => (c :: segment) :: segments
           | [] => [[c]]
           end
  end.

(** [s.indexOf(x)]: the first position at which [x] occurs in [s], or
    [-1]. *)
Fixpoint indexOf (x s : list Z) : Z :=
  if startsWith x s then 0
  else match s with
       | [] => -1
       | _ :: s' => let i := indexOf x s' in if i <? 0 then -1 else i + 1
       end.

(** The loop of getCookie over the segments of [document.cookie]. *)
Fixpoint findCookie (nameEQ : list Z) (ca : list (list Z))
    : option (list Z) :=
  match ca with
  | [] => None
  | segment :: rest =>
      let c := trim segment in
      if indexOf nameEQ c =? 0 then Some (drop (length nameEQ) c)
      else findCookie nameEQ rest
  end.

(** getCookie(name), the one that returns the text after [name=] as it
    stands; [cookie] is [document.cookie] and [None] is [null]. *)
Definition getCookie (cookie name : list Z) : option (list Z) :=
  let nameEQ := name ++ [61] in
  let ca := split 59 cookie in
  findCookie nameEQ ca.

(** ** The earlier generator *)

(** The first part of the file holds an earlier generatePasswords and
    generateSinglePassword: no feasibility check beyond the two empty-pool
    tests, [Math.random] for every draw, and up to 100 random attempts per
    position instead of a scan.  The state threaded through is the number
    of random values read. *)
Module Legacy.

Inductive error : Type :=
  | SelectCharType        (* "Select at least one character type." *)
  | NoStartingChars       (* "No valid starting characters available. ..." *)
  | FailedStartingChar    (* "Failed to generate a valid starting character" *)
  | FailedConstraints     (* "Failed to generate password with current constraints" *)
  | InvalidArrayLength    (* RangeError of [new Array(length)] *)
  | UndefinedCharCode.    (* TypeError of [charCodeAt] on [undefined] *)

Record output : Type := Output {
  passwordList : list (list Z);
  tooltip : option error
}.

(** What the 100 attempts at one position end with. *)
Inductive pick : Type :=
  | Accepted (c : Z)
  | Exhausted          (* nothing truthy was written at the position *)
  | NoCharCode.        (* [undefined.charCodeAt] was called *)

(** [set && set.has(c)] for a set made from a spread string. *)
Definition has (set : option (gset (list Z))) (c : Z) : bool :=
  match set with Some s => bool_decide ([c] ∈ s) | None => false end.

(** [noDuplicate && usedChars.has(c)]; [usedChars] is [null] without
    [noDuplicate]. *)
Definition used (usedChars : option (gset Z)) (c : Z) : bool :=
  match usedChars with Some u => bool_decide (c ∈ u) | None => false end.

Section Generator.

Variable raw : nat -> nat.

(** The loop [for (let attempt = 0; attempt < 100; attempt++)] for
    position 0.  [Math.floor(Math.random() * n)] is some index below [n];
    off an empty pool it reads [undefined], which is written to the array
    and ends the loop. *)
Fixpoint firstAttempts (attempts : nat) (firstCharPool : list Z)
    (similarCharsMap : option (gset (list Z))) (k : nat) : option Z * nat :=
  match attempts with
  | O => (None, k)
  | S attempts' =>
      match firstCharPool !! (raw k mod length firstCharPool)%nat with
      | None => (None, S k)
      | Some char =>
          if has similarCharsMap char
          then firstAttempts attempts' firstCharPool similarCharsMap (S k)
          else (Some char, S k)
      end
  end.

(** The same loop for a position [i >= 1], after the character
    [prevChar]. *)
Fixpoint restAttempts (attempts : nat) (charset : list Z)
    (similarCharsMap : option (gset (list Z))) (usedChars : option (gset Z))
    (symbolsMap : option (gset (list Z)))
    (noSequential : bool) (prevChar : Z) (symbolCount maxSymbols : Z)
    (k : nat) : pick * nat :=
  match attempts with
  | O => (Exhausted, k)
  | S attempts' =>
      match charset !! (raw k mod length charset)%nat with
      | None => if noSequential then (NoCharCode, S k) else (Exhausted, S k)
      | Some char =>
          if has similarCharsMap char
             || used usedChars char
             || (noSequential && (Z.abs (char - prevChar) =? 1))
             || (has symbolsMap char && (maxSymbols <=? symbolCount))
          then restAttempts attempts' charset similarCharsMap usedChars
                 symbolsMap noSequential prevChar symbolCount maxSymbols (S k)
          else (Accepted char, S k)
      end
  end.

(** The loop [for (let i = 1; i < length; i++)]. *)
Fixpoint fillRest (todo : nat) (charset : list Z)
    (similarCharsMap symbolsMap : option (gset (list Z)))
    (noSequential : bool)
    (maxSymbols : Z) (password : list Z) (prevChar : Z)
    (usedChars : option (gset Z)) (symbolCount : Z) (k : nat)
    : (error + list Z) * nat :=
  match todo with
  | O => (inr password, k)
  | S todo' =>
      match restAttempts 100 charset similarCharsMap usedChars symbolsMap
              noSequential prevChar symbolCount maxSymbols k with
      | (Accepted char, k') =>
          fillRest todo' charset similarCharsMap symbolsMap noSequential
            maxSymbols (password ++ [char]) char (addUsed char usedChars)
            (countSymbol char symbolsMap symbolCount) k'
      | (Exhausted, k') => (inl FailedConstraints, k')
      | (NoCharCode, k') => (inl UndefinedCharCode, k')
      end
  end.

(** generateSinglePassword(length, charset, firstCharPool, similarChars,
    noDuplicate, noSequential, symbolsSet) *)
Definition generateSinglePassword (len : Z) (charset firstCharPool : list Z)
    (similarChars : list Z) (noDuplicate noSequential : bool)
    (symbolsSet : list Z) (k : nat) : (error + list Z) * nat :=
  let maxSymbols := ceilTenth len in
  let similarCharsMap : option (gset (list Z)) :=
    if isEmpty similarChars then None
    else Some (list_to_set (codePoints similarChars)) in
  let symbolsMap : option (gset (list Z)) :=
    if isEmpty symbolsSet then None
    else Some (list_to_set (codePoints symbolsSet)) in
  if (len <? 0) || (4294967295 <? len) then (inl InvalidArrayLength, k)
  else
    let usedChars : option (gset Z) := if noDuplicate then Some ∅ else None in
    let symbolCount := 0 in
    match firstAttempts 100 firstCharPool similarCharsMap k with
    | (None, k') => (inl FailedStartingChar, k')
    | (Some char, k') =>
        fillRest (Z.to_nat (len - 1)) charset similarCharsMap symbolsMap
          noSequential maxSymbols [char] char (addUsed char usedChars)
          (countSymbol char symbolsMap symbolCount) k'
    end.

(** The loop over [settings.amount]. *)
Fixpoint generateLoop (s : Settings.t) (todo : nat) (shown : list (list Z))
    (k : nat) : output * nat :=
  match todo with
  | O => (Output shown None, k)
  | S todo' =>
      match generateSinglePassword (Settings.length s) (charsetOf s)
              (firstCharPoolOf s)
              (if Settings.noSimilar s then similarChars else [])
              (Settings.noDuplicate s) (Settings.noSequential s)
              (symbolsSetOf s) k with
      | (inl e, k') => (Output shown (Some e), k')
      | (inr password, k') => generateLoop s todo' (shown ++ [password]) k'
      end
  end.

(** generatePasswords(), from the settings record on. *)
Definition generatePasswords (s : Settings.t) (k : nat) : output * nat :=
  if isEmpty (charsetOf s) then (Output [] (Some SelectCharType), k)
  else if (length (firstCharPoolOf s) =? 0)%nat
  then (Output [] (Some NoStartingChars), k)
  else generateLoop s (Z.to_nat (Settings.amount s)) [] k.

End Generator.

End Legacy.

(** * The vocabulary of the statements *)

(** The ordered subset of the alphabet that passes the validity check. *)
Definition validSubset (charset : list Z) (prevChar : option Z)
    (usedChars : option (gset Z)) (symbolsSet : option (gset (list Z)))
    (symbolCount : Z) (maxSymbols : num) (noSequential : bool) : list Z :=
  filter (fun c => valid prevChar usedChars symbolsSet symbolCount maxSymbols
                         noSequential c = true) charset.

(** How many characters of [password] the set [symbols] holds: this is
    what [symbolCount] counts. *)
Definition symbolsIn (symbols : gset (list Z)) (password : list Z) : Z :=
  Z.of_nat (length (filter (fun c => [c] ∈ symbols) password)).

(** How many code units of [password] are units of the string [symbols]. *)
Definition unitsIn (symbols password : list Z) : Z :=
  Z.of_nat (length (filter (fun c => c ∈ symbols) password)).

(** A string without a surrogate pair: every code point is one unit. *)
Definition noPairs (s : list Z) : Prop :=
  codePoints s = (fun c => [c]) <$> s.

(** A code point that is a character: one unit that is no surrogate, or
    a high surrogate with a low one. *)
Definition scalar (p : list Z) : bool :=
  match p with
  | [c] => negb (isHighSurrogate c || isLowSurrogate c)
  | [h; l] => isHighSurrogate h && isLowSurrogate l
  | _ => false
  end.

(** Well-formed UTF-16, the text that a keyboard or the clipboard puts into
    an input field: no surrogate stands alone. *)
Definition wellFormed (s : list Z) : Prop :=
  Forall (fun p => scalar p = true) (codePoints s).

(** [n >= q] as a proposition. *)
Definition reachesQuota (n : Z) (q : num) : Prop :=
  match q with Fin z => z <= n | Infinity => False end.

(** The symbol set as a set: nothing is a symbol when it is [null]. *)
Definition symbolsOf (symbolsSet : option (gset (list Z))) : gset (list Z) :=
  default ∅ symbolsSet.

(** The set and the quota that generateSinglePassword computes from the
    symbol string. *)
Definition symbolLookup (symbolsSet : list Z) : option (gset (list Z)) :=
  if isEmpty symbolsSet then None
  else Some (list_to_set (codePoints symbolsSet)).

Definition symbolQuota (len : Z) (symbolsSet : list Z) : num :=
  if isEmpty symbolsSet then Infinity else Fin (ceilTenth len).

(** [usedChars] once the characters of [prefix] are written. *)
Definition usedAfter (noDuplicate : bool) (prefix : list Z)
    : option (gset Z) :=
  if noDuplicate then Some (list_to_set prefix) else None.

(** The characters of [pool] that pass the validity check once [prefix]
    is written: the valid subset from which the next character comes. *)
Definition candidatesAfter (pool : list Z) (len : Z)
    (noDuplicate noSequential : bool) (symbolsSet prefix : list Z)
    : list Z :=
  validSubset pool (last prefix) (usedAfter noDuplicate prefix)
    (symbolLookup symbolsSet)
    (symbolsIn (symbolsOf (symbolLookup symbolsSet)) prefix)
    (symbolQuota len symbolsSet) noSequential.

(** The digits and letters of the charset: what precedes the symbols. *)
Definition alphanumericsOf (s : Settings.t) : list Z :=
  (if Settings.includeNumbers s then numbersSet else [])
  ++ (if Settings.includeLowercase s then lowercaseSet else [])
  ++ (if Settings.includeUppercase s then uppercaseSet else []).

(** The array [l] with the elements at the positions [i] and [j]
    exchanged: position [k] holds what [l] holds at the position that the
    transposition of [i] and [j] sends [k] to. *)
Definition exchanged {A} (i j : nat) (l : list A) : list A :=
  imap (fun k x =>
          default x (l !! (if decide (k = i) then j
                           else if decide (k = j) then i else k))) l.

(** The Fisher-Yates shuffle that the design document names, in the
    in-place form: for every index [i] from the last one down to 1 an
    index [pick i] between 0 and [i] is chosen, and the elements at [i]
    and [pick i] are exchanged. *)
Fixpoint fisherYates {A} (pick : nat -> nat) (i : nat) (l : list A)
    : list A :=
  match i with
  | O => l
  | S i' => fisherYates pick i' (exchanged i (pick i) l)
  end.

(** The remainder pool as the design document words it: the charset
    without the first occurrence of the chosen character. *)
Fixpoint removeFirstOccurrence (x : Z) (l : list Z) : list Z :=
  match l with
  | [] => []
  | y :: l' => if decide (y = x) then l' else y :: removeFirstOccurrence x l'
  end.

(** The pool the generator samples from once the similar characters are
    out. *)
Definition similarFiltered (noSimilar : bool) (pool : list Z) : list Z :=
  if noSimilar then filterSimilarChars pool similarChars else pool.

(** The test that sends generateSinglePassword to the shuffle. *)
Definition fastPath (noDuplicate noSequential : bool) (symbolsSet : list Z)
    : bool :=
  noDuplicate && negb noSequential && isEmpty symbolsSet.

(** The charset and the first-character pool that generateSinglePassword
    samples from: those of the settings, less the similar characters when
    [noSimilar] is on. *)
Definition effectiveCharset (s : Settings.t) : list Z :=
  similarFiltered (Settings.noSimilar s) (charsetOf s).

Definition effectiveFirstCharPool (s : Settings.t) : list Z :=
  similarFiltered (Settings.noSimilar s) (firstCharPoolOf s).

(** The settings send every password to generateNoDuplicatePassword. *)
Definition usesShuffle (s : Settings.t) : bool :=
  fastPath (Settings.noDuplicate s) (Settings.noSequential s) (symbolsSetOf s).

(** The call that the loop of generatePasswords makes. *)
Definition generateOne (raw : nat -> nat) (s : Settings.t) : Gen (list Z) :=
  generateSinglePassword raw (Settings.length s) (charsetOf s)
    (firstCharPoolOf s) (Settings.noSimilar s) (Settings.noDuplicate s)
    (Settings.noSequential s) (symbolsSetOf s).

(** The feasibility checks of generatePasswords all pass. *)
Definition validated (s : Settings.t) : Prop :=
  charsetOf s <> [] /\ firstCharPoolOf s <> [] /\
  validateConstraints (Settings.length s) (charsetOf s) (firstCharPoolOf s)
                      (Settings.noDuplicate s) = inr tt.

(** Bounds on the random draws and on the validity checks of one
    password: six draws per position in the selector loop, one draw per
    charset character in the shuffle. *)
Definition drawsBound (s : Settings.t) : nat :=
  6 * S (Z.to_nat (Settings.length s - 1)) + 1 + length (charsetOf s).

Definition checksBound (s : Settings.t) : nat :=
  (5 + length (charsetOf s) + length (firstCharPoolOf s))
  * S (Z.to_nat (Settings.length s - 1)).

Arguments drawsBound : simpl never.
Arguments checksBound : simpl never.

(** The length of a password of the shuffle path, for a charset of [n]
    characters: the first character and [slice(0, length - 1)] of the
    [n - 1] others, whose negative end counts from the back. *)
Definition shuffledLength (len : Z) (n : nat) : Z :=
  if 1 <=? len then Z.min len (Z.of_nat n)
  else Z.max 1 (Z.of_nat n + len - 1).

(** The valid subset of [pool] for the settings [s] after [prefix]. *)
Definition candidates (s : Settings.t) (pool prefix : list Z) : list Z :=
  candidatesAfter pool (Settings.length s) (Settings.noDuplicate s)
    (Settings.noSequential s) (symbolsSetOf s) prefix.

(** What holds of every password that generateSinglePassword returns for
    the settings [s]. *)
Definition passwordOk (s : Settings.t) (password : list Z) : Prop :=
  (Settings.noDuplicate s = true -> NoDup password) /\
  (Settings.includeSymbols s = true ->
   symbolsIn (list_to_set (codePoints (symbolsSetOf s))) password
   <= ceilTenth (Settings.length s)) /\
  Z.of_nat (length password)
  = (if usesShuffle s
     then shuffledLength (Settings.length s) (length (effectiveCharset s))
     else Z.max 1 (Settings.length s)) /\
  (usesShuffle s = false -> 0 <= Settings.length s <= 4294967295) /\
  (exists c rest, password = c :: rest /\ c ∈ effectiveFirstCharPool s /\
                  forall x, x ∈ rest -> x ∈ effectiveCharset s).

(** The errors that generateSinglePassword can throw for the settings [s],
    each with the condition under which it does: a pool that the similar
    filter has emptied, a length that [new Array] refuses, or a position
    whose valid subset is empty after the characters chosen before it. *)
Definition errorOk (s : Settings.t) (e : error) : Prop :=
  (e = NoCharsAfterSimilar /\ Settings.noSimilar s = true /\
   effectiveCharset s = []) \/
  (e = NoStartAfterSimilar /\ Settings.noSimilar s = true /\
   effectiveCharset s <> [] /\ effectiveFirstCharPool s = []) \/
  (usesShuffle s = false /\
   effectiveCharset s <> [] /\ effectiveFirstCharPool s <> [] /\
   ((e = InvalidArrayLength /\
     (Settings.length s < 0 \/ 4294967295 < Settings.length s)) \/
    (0 <= Settings.length s <= 4294967295 /\
     ((e = FailedStartingChar /\
       candidates s (effectiveFirstCharPool s) [] = []) \/
      (exists c rest,
         c ∈ effectiveFirstCharPool s /\
         (forall x, x ∈ rest -> x ∈ effectiveCharset s) /\
         Z.of_nat (length (c :: rest)) < Settings.length s /\
         e = FailedPosition (Z.of_nat (length (c :: rest)) + 1) /\
         candidates s (effectiveCharset s) (c :: rest) = []))))).

(** Digits only, eight characters, no duplicates: the shuffle path. *)
Definition eightDigits : Settings.t :=
  Settings.Build 8 1 true false false false [] false false false true false.

(** All four categories with every exclusion on: the general path. *)
Definition everything : Settings.t :=
  Settings.Build 12 3 true true true true [] true true true true true.

(** Symbols only, two characters: the quota [ceil(2 * 0.1) = 1] is used up
    by the first character and no second one is left. *)
Definition twoSymbols : Settings.t :=
  Settings.Build 2 1 false false false true [] false false false false false.

(** Digits only, nine of them, no similar and no duplicate characters:
    ten digits pass the feasibility check, eight are left to draw from. *)
Definition nineDistinctDigits : Settings.t :=
  Settings.Build 9 1 true false false false [] false false true true false.

(** Only a custom symbol, the digit one: the similar filter empties the
    charset. *)
Definition onlySimilarSymbol : Settings.t :=
  Settings.Build 8 1 false false false true (codes "1")
                 false false true false false.

(** Digits and the custom symbol [l], no digit at the start: the similar
    filter empties the first-character pool only. *)
Definition onlySimilarStart : Settings.t :=
  Settings.Build 8 1 true false false true (codes "l")
                 true false true false false.

(** Symbols only, with one custom symbol outside the Basic Multilingual
    Plane, U+1F600, which is the two units [0xD83D 0xDE00]; four units
    are asked for, so the quota is [ceil(4 * 0.1) = 1]. *)
Definition astralSymbol : Settings.t :=
  Settings.Build 4 1 false false false true [55357; 56832]
                 false false false false false.

(** Digits and custom symbols that are not well-formed text: a low
    surrogate on its own before a surrogate pair with the same low half;
    no symbol at the start. *)
Definition loneSurrogate : Settings.t :=
  Settings.Build 8 1 true false false true [56832; 55357; 56832]
                 false true false false false.

(** No two neighbours of [password] have codes that differ by one. *)
Definition adjacentApart (password : list Z) : Prop :=
  forall i a b,
    password !! i = Some a -> password !! S i = Some b -> Z.abs (b - a) <> 1.

(** The settings [s] with another [amount]. *)
Definition withAmount (s : Settings.t) (amount : Z) : Settings.t :=
  Settings.Build (Settings.length s) amount (Settings.includeNumbers s)
    (Settings.includeLowercase s) (Settings.includeUppercase s)
    (Settings.includeSymbols s) (Settings.customSymbols s)
    (Settings.noStartNumber s) (Settings.noStartSymbol s)
    (Settings.noSimilar s) (Settings.noDuplicate s) (Settings.noSequential s).

(** Digits and lower-case letters, 36 characters without similar or
    repeated ones: all 36 pass the feasibility check, 31 are left after
    the similar filter. *)
Definition thirtySixDistinct : Settings.t :=
  Settings.Build 36 2 true true false false [] false false true true false.

(** Digits only without repetition, and a length of 0. *)
Definition noLengthDigits : Settings.t :=
  Settings.Build 0 1 true false false false [] false false false true false.

(** What the three updaters do to a dependent checkbox: enable it when
    it may be used, else uncheck and disable it. *)
Definition guardElement (allowed : bool) (el : element) : element :=
  if allowed then setDisabled false el
  else setDisabled true (setChecked false el).

(** The conditions that the updaters compute from the category
    checkboxes. *)
Definition otherThanNumbers (doc : document) : bool :=
  isChecked (doc !! includeLowercaseId)
  || isChecked (doc !! includeUppercaseId)
  || isChecked (doc !! includeSymbolsId).

Definition otherThanSymbols (doc : document) : bool :=
  isChecked (doc !! includeLowercaseId)
  || isChecked (doc !! includeUppercaseId)
  || isChecked (doc !! includeNumbersId).

Definition numbersOnly (doc : document) : bool :=
  isChecked (doc !! includeNumbersId)
  && negb (isChecked (doc !! includeLowercaseId))
  && negb (isChecked (doc !! includeUppercaseId))
  && negb (isChecked (doc !! includeSymbolsId)).

(** The element that updateAllOptions leaves under [id]. *)
Definition optionAfterUpdate (doc : document) (id : string)
    : option element :=
  if decide (id = noSimilarId) then
    guardElement (negb (numbersOnly doc)) <$> doc !! noSimilarId
  else if decide (id = noStartSymbolId) then
    match doc !! includeSymbolsId with
    | Some includeSymbols =>
        guardElement (checked includeSymbols && otherThanSymbols doc)
          <$> doc !! noStartSymbolId
    | None => doc !! noStartSymbolId
    end
  else if decide (id = noStartNumberId) then
    match doc !! includeNumbersId with
    | Some includeNumbers =>
        guardElement (checked includeNumbers && otherThanNumbers doc)
          <$> doc !! noStartNumberId
    | None => doc !! noStartNumberId
    end
  else doc !! id.

(** A page on which only the digits are selected while the three
    dependent options are still checked and enabled. *)
Definition digitsOnlyPage : document :=
  <[includeNumbersId := Element true false []]>
  (<[includeLowercaseId := Element false false []]>
  (<[includeUppercaseId := Element false false []]>
  (<[includeSymbolsId := Element false false []]>
  (<[noStartNumberId := Element true false []]>
  (<[noStartSymbolId := Element true false []]>
  (<[noSimilarId := Element true false []]> ∅)))))).

(** A page with digits and symbols as the only categories and both start
    options checked; the symbols field is missing, so the default symbols
    are read. *)
Definition digitsAndSymbolsPage : document :=
  <[includeNumbersId := Element true false []]>
  (<[includeLowercaseId := Element false false []]>
  (<[includeUppercaseId := Element false false []]>
  (<[includeSymbolsId := Element true false []]>
  (<[noStartNumberId := Element true false []]>
  (<[noStartSymbolId := Element true false []]> ∅))))).

(** One pair of a cookie string, [name=value]. *)
Definition cookiePair (p : list Z * list Z) : list Z :=
  fst p ++ [61] ++ snd p.

(** The string that the browser returns as [document.cookie] for the
    cookies [jar]: the pairs [name=value] joined by a semicolon and a
    space. *)
Fixpoint cookieString (jar : list (list Z * list Z)) : list Z :=
  match jar with
  | [] => []
  | [p] => cookiePair p
  | p :: rest => cookiePair p ++ [59; 32] ++ cookieString rest
  end.

(** The value of the first cookie of [jar] called [name]. *)
Fixpoint firstCookie (name : list Z) (jar : list (list Z * list Z))
    : option (list Z) :=
  match jar with
  | [] => None
  | p :: rest =>
      if decide (fst p = name) then Some (snd p) else firstCookie name rest
  end.

(** A name and a value that survive the way to [document.cookie] and
    back: no semicolon, no equals sign in the name, no white space at the
    start of the name or at the end of the value. *)
Definition cleanPair (p : list Z * list Z) : Prop :=
  (59 ∉ fst p) /\ (61 ∉ fst p) /\ (59 ∉ snd p) /\
  (forall c, head (fst p) = Some c -> isWhiteSpace c = false) /\
  (forall c, last (snd p) = Some c -> isWhiteSpace c = false).

(** All four categories, 70 characters without similar, repeated or
    sequential ones: 74 characters pass the feasibility check, 67 are left
    after the similar filter. *)
Definition seventyDistinct : Settings.t :=
  Settings.Build 70 1 true true true true [] false false true true true.

(** What holds of every password of the earlier generator for the
    settings [s]. *)
Definition legacyPasswordOk (s : Settings.t) (password : list Z) : Prop :=
  0 <= Settings.length s <= 4294967295 /\
  Z.of_nat (length password) = Z.max 1 (Settings.length s) /\
  (exists c rest, password = c :: rest /\ c ∈ firstCharPoolOf s /\
                  forall x, x ∈ rest -> x ∈ charsetOf s) /\
  (Settings.noSimilar s = true ->
   forall c, c ∈ password -> c ∉ similarChars) /\
  (Settings.noDuplicate s = true -> NoDup password) /\
  (Settings.noSequential s = true -> adjacentApart password) /\
  (Settings.includeSymbols s = true -> 1 <= Settings.length s ->
   symbolsIn (list_to_set (codePoints (symbolsSetOf s))) password
   <= ceilTenth (Settings.length s)).

(** * Properties *)

(** ** Running the monad *)

Lemma bind_run {A B} (m : Gen A) (k : A -> Gen B) st r st' :
  bind m k st = (r, st') ->
  (exists e, m st = (inl e, st') /\ r = inl e) \/
  (exists a st1, m st = (inr a, st1) /\ k a st1 = (r, st')).
Proof.
  unfold bind. destruct (m st) as [[e|a] st1]; intros H.
  - left. exists e. by inversion H.
  - right. by exists a, st1.
Qed.

Lemma secureRandom_run raw max st :
  secureRandom raw max st
  = (inr (raw (draws st) mod max)%nat, RState (S (draws st)) (checks st)).
Proof. reflexivity. Qed.

(** A raw value reduced modulo the size of a non-empty string indexes it. *)
Lemma lookup_mod_is_Some (l : list Z) (r : nat) :
  l <> [] -> is_Some (l !! (r mod length l)%nat).
Proof.
  intros Hl. apply lookup_lt_is_Some.
  apply Nat.mod_upper_bound. by destruct l.
Qed.

Lemma lookup_mod_None (l : list Z) (r : nat) :
  l !! (r mod length l)%nat = None -> l = [].
Proof.
  intros H. destruct l as [|x l]; [done|].
  destruct (lookup_mod_is_Some (x :: l) r) as [y Hy]; [done|]. congruence.
Qed.

(** ** Code points *)

Lemma startsWith_prefix (x s : list Z) :
  startsWith x s = true <-> x `prefix_of` s.
Proof.
  revert s. induction x as [|a x IH]; intros s; simpl.
  - split; [intros _; apply prefix_nil|done].
  - destruct s as [|b s].
    + split; [done|]. intros [k Hk]. done.
    + rewrite andb_true_iff, Z.eqb_eq, IH. split.
      * intros [-> ?]. by apply prefix_cons.
      * intros [k Hk]. simpl in Hk. injection Hk as -> ->.
        split; [done|]. by exists k.
Qed.

Lemma codePoints_pair c d (s : list Z) :
  isHighSurrogate c && isLowSurrogate d = true ->
  codePoints (c :: d :: s) = [c; d] :: codePoints s.
Proof. intros H. cbn [codePoints]. by rewrite H. Qed.

Lemma codePoints_single c d (s : list Z) :
  isHighSurrogate c && isLowSurrogate d = false ->
  codePoints (c :: d :: s) = [c] :: codePoints (d :: s).
Proof. intros H. change (codePoints (c :: d :: s)) with
  (if isHighSurrogate c && isLowSurrogate d then [c; d] :: codePoints s
   else [c] :: codePoints (d :: s)). by rewrite H. Qed.

(** Induction along the iterator. *)
Lemma codePoints_induction (P : list Z -> Prop) :
  P [] ->
  (forall c, P [c]) ->
  (forall c d s, isHighSurrogate c && isLowSurrogate d = true ->
                 P s -> P (c :: d :: s)) ->
  (forall c d s, isHighSurrogate c && isLowSurrogate d = false ->
                 P (d :: s) -> P (c :: d :: s)) ->
  forall s, P s.
Proof.
  intros Hnil Hone Hpair Hsingle s.
  assert (P s /\ forall c, P (c :: s)) as [H _]; [|done].
  induction s as [|d s [IH1 IH2]]; [by split|].
  split; [apply IH2|]. intros c.
  destruct (isHighSurrogate c && isLowSurrogate d) eqn:E.
  - by apply Hpair.
  - apply Hsingle; [done|apply IH2].
Qed.

(** The code points put together again are the string. *)
Lemma join_codePoints (s : list Z) : mjoin (codePoints s) = s.
Proof.
  induction s as [|c|c d s E IH|c d s E IH] using codePoints_induction;
    [done|done| |].
  - rewrite codePoints_pair by done.
    change (mjoin ([c; d] :: codePoints s))
      with (c :: d :: mjoin (codePoints s)).
    by rewrite IH.
  - rewrite codePoints_single by done.
    change (mjoin ([c] :: codePoints (d :: s)))
      with (c :: mjoin (codePoints (d :: s))).
    by rewrite IH.
Qed.

(** Without a high surrogate there is no pair. *)
Lemma codePoints_units (s : list Z) :
  (forall c, c ∈ s -> isHighSurrogate c = false) -> noPairs s.
Proof.
  unfold noPairs. induction s as [|c s IH]; intros H; [done|].
  destruct s as [|d s]; [done|].
  rewrite codePoints_single.
  - rewrite IH; [done|]. intros x Hx. apply H. by right.
  - rewrite (H c) by left. done.
Qed.

Lemma elem_of_codePoints_unit (s : list Z) c :
  [c] ∈ codePoints s -> c ∈ s.
Proof.
  intros H. rewrite <- (join_codePoints s).
  apply list_elem_of_join. exists [c]. split; [left|done].
Qed.

Lemma elem_of_codePoints (s p : list Z) c :
  p ∈ codePoints s -> c ∈ p -> c ∈ s.
Proof.
  intros H Hc. rewrite <- (join_codePoints s).
  apply list_elem_of_join. by exists p.
Qed.

Lemma elem_of_codePoints_plain (s : list Z) c :
  isHighSurrogate c = false -> isLowSurrogate c = false ->
  c ∈ s -> [c] ∈ codePoints s.
Proof.
  intros Hh Hl.
  induction s as [|x|x d s E IH|x d s E IH] using codePoints_induction.
  - intros H. by apply elem_of_nil in H.
  - intros H. apply list_elem_of_singleton in H as ->. by left.
  - rewrite codePoints_pair by done. apply andb_true_iff in E as [E1 E2].
    intros H. right. apply IH.
    apply elem_of_cons in H as [->|H]; [congruence|].
    apply elem_of_cons in H as [->|H]; [congruence|done].
  - rewrite codePoints_single by done. intros H.
    apply elem_of_cons in H as [->|H]; [by left|]. right. by apply IH.
Qed.

Lemma filter_all {A} (P : A -> Prop) `{!forall x, Decision (P x)}
    (l : list A) :
  (forall x, x ∈ l -> P x) -> filter P l = l.
Proof.
  induction l as [|y l IH]; intros Hall; [done|].
  rewrite filter_cons_True by (apply Hall; left).
  rewrite IH; [done|]. intros x Hx. apply Hall. by right.
Qed.

Lemma filter_none {A} (P : A -> Prop) `{!forall x, Decision (P x)}
    (l : list A) :
  (forall x, x ∈ l -> ~ P x) -> filter P l = [].
Proof.
  induction l as [|y l IH]; intros Hall; [done|].
  rewrite filter_cons_False by (apply Hall; left).
  apply IH. intros x Hx. apply Hall. by right.
Qed.

Lemma Forall_filter_keep {A} (P Q : A -> Prop)
    `{!forall x, Decision (P x)} (l : list A) :
  Forall Q l -> Forall Q (filter P l).
Proof.
  rewrite !Forall_forall. intros Hall x Hx.
  apply list_elem_of_filter in Hx as [_ Hx]. by apply Hall.
Qed.

(** ** Taking a substring out *)

Lemma removeFrom_sublist sym skip (s : list Z) :
  removeFrom sym skip s `sublist_of` s.
Proof.
  revert skip. induction s as [|c s IH]; intros skip; [done|].
  cbn [removeFrom]. destruct skip as [|skip].
  - destruct (negb (isEmpty sym) && startsWith sym (c :: s)).
    + by apply sublist_cons.
    + by apply sublist_skip.
  - by apply sublist_cons.
Qed.

(** Taking out a string of one unit drops that unit everywhere. *)
Lemma removeAll_unit c (s : list Z) :
  removeAll [c] s = filter (fun x => x <> c) s.
Proof.
  unfold removeAll. induction s as [|x s IH]; [done|].
  cbn [removeFrom isEmpty negb andb startsWith length Nat.sub].
  rewrite andb_true_r, filter_cons. destruct (c =? x) eqn:E.
  - apply Z.eqb_eq in E. subst x.
    rewrite decide_False by (intros H; by apply H). done.
  - apply Z.eqb_neq in E. rewrite decide_True by congruence.
    by rewrite IH.
Qed.

(** Only units of [sym] are taken out. *)
Lemma removeFrom_keeps sym skip (s : list Z) c :
  (forall x, x ∈ take skip s -> x ∈ sym) ->
  c ∈ s -> c ∉ sym -> c ∈ removeFrom sym skip s.
Proof.
  revert skip. induction s as [|x s IH]; intros skip Hskip Hc Hsym;
    [done|].
  cbn [removeFrom]. destruct skip as [|skip].
  - destruct (negb (isEmpty sym) && startsWith sym (x :: s)) eqn:E.
    + apply andb_true_iff in E as [Hne E].
      apply startsWith_prefix in E as [k Hk].
      destruct sym as [|y sym]; [done|].
      simpl in Hk. injection Hk as -> Hk.
      apply elem_of_cons in Hc as [->|Hc]; [exfalso; apply Hsym; left|].
      apply IH; [|done|done]. intros z Hz. right.
      cbn [length] in Hz. rewrite Nat.sub_succ, Nat.sub_0_r in Hz.
      by rewrite Hk, take_app_length in Hz.
    + apply elem_of_cons in Hc as [->|Hc]; [left|right].
      apply IH; [|done|done]. intros z Hz. rewrite take_0 in Hz.
      by apply elem_of_nil in Hz.
  - assert (x ∈ sym) as Hx by (apply Hskip; left).
    apply elem_of_cons in Hc as [->|Hc]; [done|].
    apply IH; [|done|done]. intros z Hz. apply Hskip. by right.
Qed.

Lemma removeAll_keeps sym (s : list Z) c :
  c ∈ s -> c ∉ sym -> c ∈ removeAll sym s.
Proof.
  apply removeFrom_keeps. intros x Hx. rewrite take_0 in Hx.
  by apply elem_of_nil in Hx.
Qed.

Lemma fold_removeAll_sublist (syms : list (list Z)) (pool : list Z) :
  fold_left (fun pool sym => removeAll sym pool) syms pool
    `sublist_of` pool.
Proof.
  revert pool. induction syms as [|sym syms IH]; intros pool; simpl.
  - done.
  - etrans; [apply IH|]. apply removeFrom_sublist.
Qed.

Lemma fold_removeAll_keeps (syms : list (list Z)) (pool : list Z) c :
  c ∈ pool -> (forall sym, sym ∈ syms -> c ∉ sym) ->
  c ∈ fold_left (fun pool sym => removeAll sym pool) syms pool.
Proof.
  revert pool. induction syms as [|sym syms IH]; intros pool Hc Hsyms;
    simpl; [done|].
  apply IH.
  - apply removeAll_keeps; [done|]. apply Hsyms. left.
  - intros sym' Hin. apply Hsyms. by right.
Qed.

(** A unit that is a code point of its own among [syms] is gone. *)
Lemma fold_removeAll_unit (syms : list (list Z)) (pool : list Z) c :
  [c] ∈ syms ->
  c ∉ fold_left (fun pool sym => removeAll sym pool) syms pool.
Proof.
  revert pool. induction syms as [|sym syms IH]; intros pool Hin;
    [by apply elem_of_nil in Hin|].
  simpl. apply elem_of_cons in Hin as [<-|Hin]; [|by apply IH].
  intros Hc.
  apply (sublist_subseteq _ _ (fold_removeAll_sublist syms _)) in Hc.
  rewrite removeAll_unit in Hc. apply list_elem_of_filter in Hc as [Hc _].
  by apply Hc.
Qed.

(** ** Well-formed strings *)

Lemma scalar_cases p :
  scalar p = true ->
  (exists c, p = [c] /\ isHighSurrogate c = false /\
             isLowSurrogate c = false) \/
  (exists h l, p = [h; l] /\ isHighSurrogate h = true /\
               isLowSurrogate l = true).
Proof.
  destruct p as [|c [|l [|? ?]]]; simpl; try done.
  - rewrite negb_true_iff, orb_false_iff. intros [? ?]. left. by exists c.
  - rewrite andb_true_iff. intros [? ?]. right. by exists c, l.
Qed.

Lemma surrogates_apart c :
  isHighSurrogate c = true -> isLowSurrogate c = true -> False.
Proof.
  unfold isHighSurrogate, isLowSurrogate.
  rewrite !andb_true_iff, !Z.leb_le. lia.
Qed.

(** On well-formed text, taking out a character takes out its code
    points and leaves the others whole. *)
Lemma removeAll_scalars p (ps : list (list Z)) :
  scalar p = true -> Forall (fun q => scalar q = true) ps ->
  removeAll p (mjoin ps) = mjoin (filter (fun q => q <> p) ps).
Proof.
  intros Hp Hps. induction Hps as [|q ps Hq Hps IH]; [done|].
  rewrite filter_cons.
  destruct (scalar_cases p Hp) as [(c & -> & Hc1 & Hc2)|(h & l & -> & Hh & Hl)].
  - rewrite removeAll_unit in *.
    change (mjoin (q :: ps)) with (q ++ mjoin ps).
    rewrite filter_app, IH.
    destruct (scalar_cases q Hq)
      as [(d & -> & Hd1 & Hd2)|(h & l & -> & Hh & Hl)].
    + rewrite filter_cons, filter_nil.
      destruct (decide (d = c)) as [->|Hne].
      * rewrite decide_False by (intros H; by apply H).
        rewrite decide_False by (intros H; by apply H). done.
      * rewrite decide_True by done.
        rewrite decide_True by congruence. done.
    + rewrite decide_True by done.
      rewrite !filter_cons, filter_nil.
      rewrite decide_True by congruence.
      rewrite decide_True by congruence. done.
  - unfold removeAll in *.
    destruct (scalar_cases q Hq)
      as [(d & -> & Hd1 & Hd2)|(h' & l' & -> & Hh' & Hl')].
    + rewrite decide_True by done.
      change (mjoin ([d] :: ps)) with (d :: mjoin ps).
      change (mjoin ([d] :: filter (fun q => q <> [h; l]) ps))
        with (d :: mjoin (filter (fun q => q <> [h; l]) ps)).
      cbn [removeFrom isEmpty negb andb startsWith].
      assert ((h =? d) = false) as -> by (apply Z.eqb_neq; congruence).
      cbn [andb]. by rewrite IH.
    + change (mjoin ([h'; l'] :: ps)) with (h' :: l' :: mjoin ps).
      cbn [removeFrom isEmpty negb andb startsWith length Nat.sub].
      destruct (decide ([h'; l'] = [h; l])) as [[= -> ->]|Hne].
      * rewrite !Z.eqb_refl. cbn [andb].
        rewrite decide_False by (intros H; by apply H). exact IH.
      * rewrite decide_True by done.
        change (mjoin ([h'; l'] :: filter (fun q => q <> [h; l]) ps))
          with (h' :: l' :: mjoin (filter (fun q => q <> [h; l]) ps)).
        assert ((h =? h') && ((l =? l') && true) = false) as ->.
        { rewrite andb_true_r. apply andb_false_iff.
          destruct (decide (h = h')) as [->|?]; [|left; by apply Z.eqb_neq].
          right. apply Z.eqb_neq. congruence. }
        assert ((h =? l') = false) as ->.
        { apply Z.eqb_neq. intros ->.
          by apply (surrogates_apart l'). }
        cbn [andb]. by rewrite IH.
Qed.

Lemma fold_removeAll_scalars (qs ps : list (list Z)) :
  Forall (fun q => scalar q = true) qs ->
  Forall (fun q => scalar q = true) ps ->
  fold_left (fun pool sym => removeAll sym pool) qs (mjoin ps)
  = mjoin (filter (fun p => p ∉ qs) ps).
Proof.
  intros Hqs. revert ps. induction Hqs as [|q qs Hq Hqs IH]; intros ps Hps.
  - simpl. f_equal. symmetry. apply filter_all.
    intros x _. apply not_elem_of_nil.
  - simpl. rewrite removeAll_scalars by done.
    rewrite IH by (by apply Forall_filter_keep).
    f_equal. rewrite list_filter_filter. apply list_filter_iff.
    intros x. rewrite not_elem_of_cons. tauto.
Qed.

(** ** The selector *)

Section SelectorFacts.
Variable raw : nat -> nat.
Variables (charset : list Z) (prevChar : option Z)
          (usedChars : option (gset Z)) (symbolsSet : option (gset (list Z)))
          (symbolCount : Z) (maxSymbols : num) (noSequential : bool).

Abbreviation validC :=
  (valid prevChar usedChars symbolsSet symbolCount maxSymbols noSequential).
Abbreviation validSet :=
  (validSubset charset prevChar usedChars symbolsSet symbolCount maxSymbols
               noSequential).

Lemma fastAttempts_run n st r st' :
  fastAttempts raw charset prevChar usedChars symbolsSet symbolCount
               maxSymbols noSequential n st = (r, st') ->
  (draws st <= draws st' <= draws st + n)%nat /\
  (checks st <= checks st' <= checks st + n)%nat /\
  match r with
  | inr (Some c) => c ∈ charset /\ validC c = true
  | inr None => True
  | inl e => e = ReadUndefined /\ charset = []
  end.
Proof.
  revert st. induction n as [|n IH]; intros st H; simpl in H.
  - inversion H; subst. split; [lia|]. split; [lia|done].
  - unfold bind in H. rewrite secureRandom_run in H.
    destruct (charset !! _) as [c|] eqn:Hc.
    + simpl in H. destruct (validC c) eqn:Hv.
      * inversion H; subst; simpl. split; [lia|]. split; [lia|].
        split; [|done]. by eapply list_elem_of_lookup_2.
      * apply IH in H. simpl in H. destruct H as (? & ? & ?).
        split; [lia|]. split; [lia|done].
    + inversion H; subst; simpl. split; [lia|]. split; [lia|].
      split; [done|]. by eapply lookup_mod_None.
Qed.

Lemma scanValid_run rest acc st :
  scanValid prevChar usedChars symbolsSet symbolCount maxSymbols
            noSequential rest acc st
  = (inr (acc ++ filter (fun c => validC c = true) rest),
     RState (draws st) (checks st + length rest)).
Proof.
  revert acc st. induction rest as [|c rest IH]; intros acc st; simpl.
  - rewrite app_nil_r, Nat.add_0_r. by destruct st.
  - unfold bind, tickCheck. rewrite IH. simpl. rewrite filter_cons.
    destruct (decide (validC c = true)) as [->|Hv].
    + rewrite <- app_assoc. simpl. do 2 f_equal. lia.
    + destruct (validC c); [done|]. do 2 f_equal. lia.
Qed.

(** What one call of getValidChar does: the draws and checks it spends and
    what it returns. *)
Lemma getValidChar_run st r st' :
  getValidChar raw charset prevChar usedChars symbolsSet symbolCount
               maxSymbols noSequential st = (r, st') ->
  (draws st <= draws st' <= draws st + 5 + 1)%nat /\
  (checks st <= checks st' <= checks st + 5 + length charset)%nat /\
  match r with
  | inr (Some c) => c ∈ validSet
  | inr None => validSet = []
  | inl e => e = ReadUndefined /\ charset = []
  end.
Proof.
  unfold getValidChar. intros H.
  apply bind_run in H as [(e & Hq & ->)|(quick & st1 & Hq & H)].
  - destruct hasStrictConstraints; [done|].
    apply fastAttempts_run in Hq as (? & ? & ?).
    split; [lia|]. split; [lia|done].
  - assert ((draws st <= draws st1 <= draws st + 5)%nat /\
            (checks st <= checks st1 <= checks st + 5)%nat /\
            match quick with
            | Some c => c ∈ charset /\ validC c = true
            | None => True
            end) as (Hd & Hc & Hquick).
    { destruct hasStrictConstraints.
      - inversion Hq; subst. split; [lia|]. split; [lia|done].
      - by apply fastAttempts_run in Hq. }
    destruct quick as [c|].
    + inversion H; subst. split; [lia|]. split; [lia|].
      unfold validSubset. apply list_elem_of_filter. tauto.
    + unfold bind in H. rewrite scanValid_run in H. simpl in H.
      change (filter _ charset) with validSet in H.
      destruct (length validSet =? 0)%nat eqn:Hlen.
      * inversion H; subst; simpl. split; [lia|]. split; [lia|].
        apply Nat.eqb_eq in Hlen. by apply nil_length_inv.
      * apply Nat.eqb_neq in Hlen.
        unfold bind, secureRandom in H. simpl in H.
        destruct (lookup_mod_is_Some validSet (raw (draws st1)))
          as [c Hc'].
        { intros E. by rewrite E in Hlen. }
        rewrite Hc' in H. inversion H; subst; simpl.
        split; [lia|]. split; [lia|]. by eapply list_elem_of_lookup_2.
Qed.

End SelectorFacts.

(** ** The shuffle *)

Lemma swap_length {A} i j (chars : list A) :
  length (swap i j chars) = length chars.
Proof.
  unfold swap. destruct (chars !! i), (chars !! j); try done.
  by rewrite !length_insert.
Qed.

(** Swapping two positions rearranges the array and loses nothing. *)
Lemma swap_Permutation {A} i j (chars : list A) : swap i j chars ≡ₚ chars.
Proof.
  unfold swap.
  destruct (chars !! i) as [a|] eqn:Ha; [|done].
  destruct (chars !! j) as [b|] eqn:Hb; [|done].
  pose proof (lookup_lt_Some _ _ _ Ha) as Hi.
  pose proof (lookup_lt_Some _ _ _ Hb) as Hj.
  apply Permutation_inj. split; [by rewrite !length_insert|].
  exists (fun k => if decide (k = j) then i
                   else if decide (k = i) then j else k).
  split.
  - intros x y. repeat case_decide; intros; subst; congruence.
  - intros k. repeat case_decide; subst.
    + rewrite list_lookup_insert_eq by (by rewrite length_insert). done.
    + rewrite list_lookup_insert_ne by done.
      rewrite list_lookup_insert_eq by done. done.
    + by rewrite !list_lookup_insert_ne by done.
Qed.

Lemma shuffleFrom_run {A} raw i (chars : list A) st :
  (i = 0 \/ i < length chars)%nat ->
  exists shuffled,
    shuffleFrom raw i chars st
    = (inr shuffled, RState (draws st + i) (checks st)) /\
    shuffled ≡ₚ chars.
Proof.
  revert chars st. induction i as [|i IH]; intros chars st Hi.
  - exists chars. simpl. rewrite Nat.add_0_r. by destruct st.
  - cbn [shuffleFrom]. unfold bind. rewrite secureRandom_run.
    destruct (IH (swap (S i) (raw (draws st) mod (S i + 1)) chars)
                 (RState (S (draws st)) (checks st)))
      as (shuffled & Hrun & Hperm).
    { rewrite swap_length. lia. }
    exists shuffled. rewrite Hrun. simpl. split.
    + do 2 f_equal. lia.
    + by rewrite Hperm, swap_Permutation.
Qed.

Lemma swap_lookup {A} i j (chars : list A) k :
  (i < length chars)%nat -> (j < length chars)%nat ->
  swap i j chars !! k
  = chars !! (if decide (k = i) then j else if decide (k = j) then i else k).
Proof.
  intros Hi Hj. unfold swap.
  destruct (lookup_lt_is_Some_2 chars i Hi) as [a Ha].
  destruct (lookup_lt_is_Some_2 chars j Hj) as [b Hb].
  rewrite Ha, Hb.
  destruct (decide (k = j)) as [->|Hkj].
  - rewrite list_lookup_insert_eq by (by rewrite length_insert).
    destruct (decide (j = i)) as [->|?]; [congruence|done].
  - rewrite list_lookup_insert_ne by done.
    destruct (decide (k = i)) as [->|Hki].
    + by rewrite list_lookup_insert_eq.
    + by rewrite list_lookup_insert_ne.
Qed.

(** The assignment of the source exchanges the two elements. *)
Lemma swap_exchanged {A} i j (chars : list A) :
  (i < length chars)%nat -> (j < length chars)%nat ->
  swap i j chars = exchanged i j chars.
Proof.
  intros Hi Hj. apply list_eq. intros k.
  rewrite swap_lookup by done. unfold exchanged.
  rewrite list_lookup_imap.
  destruct (chars !! k) as [x|] eqn:Hk; simpl.
  - assert ((if decide (k = i) then j else if decide (k = j) then i else k)
            < length chars)%nat as Hlt.
    { apply lookup_lt_Some in Hk. repeat case_decide; lia. }
    destruct (lookup_lt_is_Some_2 chars _ Hlt) as [y Hy]. by rewrite Hy.
  - apply lookup_ge_None in Hk. apply lookup_ge_None.
    repeat case_decide; lia.
Qed.

Lemma swap_fmap {A B} (f : A -> B) i j (chars : list A) :
  swap i j (f <$> chars) = f <$> swap i j chars.
Proof.
  unfold swap. rewrite !list_lookup_fmap.
  destruct (chars !! i), (chars !! j); simpl; try done.
  by rewrite !list_fmap_insert.
Qed.

Lemma swap_app {A} i j (front back : list A) :
  (i < length front)%nat -> (j < length front)%nat ->
  swap i j (front ++ back) = swap i j front ++ back.
Proof.
  intros Hi Hj. unfold swap. rewrite !lookup_app_l by done.
  destruct (front !! i), (front !! j); try done.
  rewrite insert_app_l by done.
  rewrite insert_app_l by (by rewrite length_insert). done.
Qed.

Lemma exchanged_length {A} i j (l : list A) :
  length (exchanged i j l) = length l.
Proof. unfold exchanged. apply length_imap. Qed.

Lemma fisherYates_length {A} pick i (l : list A) :
  length (fisherYates pick i l) = length l.
Proof.
  revert l. induction i as [|i IH]; intros l; [done|].
  cbn [fisherYates]. by rewrite IH, exchanged_length.
Qed.

Lemma fisherYates_ext {A} (p q : nat -> nat) i (l : list A) :
  (forall k, (1 <= k <= i)%nat -> p k = q k) ->
  fisherYates p i l = fisherYates q i l.
Proof.
  revert l. induction i as [|i IH]; intros l Hpq; [done|].
  cbn [fisherYates]. rewrite (Hpq (S i)) by lia. apply IH.
  intros k Hk. apply Hpq. lia.
Qed.

(** The steps below an index leave what lies above it alone. *)
Lemma fisherYates_app {A} pick i (front back : list A) :
  (i < length front)%nat -> (forall k, (k <= i)%nat -> (pick k <= k)%nat) ->
  fisherYates pick i (front ++ back) = fisherYates pick i front ++ back.
Proof.
  revert front. induction i as [|i IH]; intros front Hi Hpick; [done|].
  cbn [fisherYates]. specialize (Hpick (S i)) as Hj.
  rewrite <- !swap_exchanged by (rewrite ?length_app; lia).
  rewrite swap_app by lia. apply IH.
  - rewrite swap_length. lia.
  - intros k Hk. apply Hpick. lia.
Qed.

(** The loop of the source is the Fisher-Yates shuffle, with the picks
    that the random source supplies. *)
Lemma shuffleFrom_fisherYates {A} raw i (chars : list A) st :
  (i = 0 \/ i < length chars)%nat ->
  shuffleFrom raw i chars st
  = (inr (fisherYates
            (fun k => raw (draws st + (i - k)) mod (k + 1))%nat i chars),
     RState (draws st + i) (checks st)).
Proof.
  revert chars st. induction i as [|i IH]; intros chars st Hi.
  - simpl. rewrite Nat.add_0_r. by destruct st.
  - cbn [shuffleFrom fisherYates]. unfold bind. rewrite secureRandom_run.
    assert (raw (draws st) mod (S i + 1) < length chars)%nat as Hj.
    { pose proof (Nat.mod_upper_bound (raw (draws st)) (S i + 1)). lia. }
    rewrite IH by (rewrite swap_length; lia). cbn [draws checks].
    rewrite Nat.sub_diag, Nat.add_0_r.
    rewrite <- swap_exchanged by lia.
    f_equal; [|f_equal; lia]. f_equal.
    apply fisherYates_ext. intros k Hk. do 2 f_equal. lia.
Qed.

(** Every rearrangement of the array is the shuffle for some picks. *)
Lemma fisherYates_reach {A} (l target : list A) :
  target ≡ₚ l ->
  exists pick, (forall k, pick k <= k)%nat /\
               fisherYates pick (length l - 1) l = target.
Proof.
  remember (length l) as n eqn:Hn. revert l target Hn.
  induction n as [|n IH]; intros l target Hn Hperm.
  - destruct l; [|done]. apply Permutation_nil_r in Hperm. subst.
    by exists (fun k => k).
  - destruct n as [|n].
    + destruct l as [|x [|? ?]]; try done.
      apply Permutation_singleton_r in Hperm. subst.
      by exists (fun k => k).
    + assert (length target = S (S n)) as Htl by (by rewrite Hperm).
      destruct (decide (target = [])) as [->|Hne]; [done|].
      destruct (exists_last Hne) as (front & x & ->).
      assert (x ∈ l) as Hx.
      { rewrite <- Hperm. apply elem_of_app. right. by left. }
      apply list_elem_of_lookup in Hx as [j Hj].
      pose proof (lookup_lt_Some _ _ _ Hj) as Hjlt.
      set (l1 := swap (S n) j l).
      assert (length l1 = S (S n)) as Hl1.
      { unfold l1. rewrite swap_length. lia. }
      assert (l1 !! S n = Some x) as Hlast.
      { unfold l1. rewrite swap_lookup by lia.
        by rewrite decide_True by done. }
      assert (l1 = take (S n) l1 ++ [x]) as Hsplit.
      { rewrite <- (take_drop (S n) l1) at 1. f_equal.
        apply list_eq. intros [|k].
        - by rewrite lookup_drop, Nat.add_0_r.
        - rewrite lookup_drop. simpl. apply lookup_ge_None. lia. }
      assert (front ≡ₚ take (S n) l1) as Hfront.
      { apply (Permutation_app_inv_r [x]). rewrite <- Hsplit.
        unfold l1. by rewrite swap_Permutation. }
      destruct (IH (take (S n) l1) front) as (pick & Hpick & Hrun).
      { rewrite length_take. lia. }
      { done. }
      exists (fun k => if decide (k = S n) then j else pick k). split.
      { intros k. case_decide; [lia|apply Hpick]. }
      replace (S (S n) - 1)%nat with (S n) by lia.
      cbn [fisherYates]. rewrite decide_True by done.
      rewrite <- swap_exchanged by lia. fold l1. rewrite Hsplit.
      rewrite fisherYates_app.
      * f_equal. replace (S n - 1)%nat with n in Hrun by lia.
        rewrite <- Hrun. apply fisherYates_ext. intros k Hk.
        rewrite decide_False by lia. done.
      * rewrite length_take. lia.
      * intros k Hk. rewrite decide_False by lia. apply Hpick.
Qed.

(** Every rearrangement of the array is what the loop returns for some
    random source. *)
Lemma shuffleFrom_reach {A} (chars target : list A) st :
  target ≡ₚ chars ->
  exists raw,
    shuffleFrom raw (length chars - 1) chars st
    = (inr target, RState (draws st + (length chars - 1)) (checks st)).
Proof.
  intros Hperm.
  destruct (fisherYates_reach chars target Hperm) as (pick & Hpick & Hrun).
  exists (fun k => pick (length chars - 1 - (k - draws st))%nat).
  rewrite shuffleFrom_fisherYates by lia. do 2 f_equal.
  rewrite <- Hrun. apply fisherYates_ext. intros k Hk.
  replace (length chars - 1 - (draws st + (length chars - 1 - k) - draws st))%nat
    with k by lia.
  apply Nat.mod_small. specialize (Hpick k). lia.
Qed.

(** The shuffle moves the elements about without looking at them. *)
Lemma shuffleFrom_fmap {A B} (f : A -> B) raw i (chars : list A) st
    shuffled st' :
  shuffleFrom raw i chars st = (inr shuffled, st') ->
  shuffleFrom raw i (f <$> chars) st = (inr (f <$> shuffled), st').
Proof.
  revert chars st. induction i as [|i IH]; intros chars st H.
  - simpl in *. by inversion H.
  - cbn [shuffleFrom] in *. unfold bind in *.
    rewrite secureRandom_run in *. rewrite swap_fmap. by apply IH.
Qed.

Lemma slice0_fmap {A B} (f : A -> B) e (l : list A) :
  slice0 e (f <$> l) = f <$> slice0 e l.
Proof.
  unfold slice0. rewrite length_fmap. destruct (e <? 0); by rewrite fmap_take.
Qed.

Lemma join_units (l : list Z) : mjoin ((fun c => [c]) <$> l) = l.
Proof.
  induction l as [|c l IH]; [done|]. rewrite fmap_cons.
  change (c :: mjoin ((fun c => [c]) <$> l) = c :: l). by rewrite IH.
Qed.

Lemma filter_units (Q : list Z -> Prop) `{!forall q, Decision (Q q)}
    (l : list Z) :
  filter Q ((fun c => [c]) <$> l)
  = (fun c => [c]) <$> filter (fun c => Q [c]) l.
Proof.
  induction l as [|c l IH]; [done|].
  rewrite fmap_cons, !filter_cons, IH. by destruct (decide (Q [c])).
Qed.

(** generateNoDuplicatePassword on any charset: it fails on no pool that
    holds a character. *)
Lemma generateNoDuplicatePassword_shuffled raw len
    (charset firstCharPool : list Z) st :
  firstCharPool <> [] ->
  exists firstChar shuffled,
    firstCharPool !! (raw (draws st) mod length firstCharPool)%nat
      = Some firstChar /\
    let chars := filter (fun c => c <> [firstChar]) (codePoints charset) in
    shuffled ≡ₚ chars /\
    shuffleFrom raw (length chars - 1) chars
      (RState (S (draws st)) (checks st))
    = (inr shuffled,
       RState (S (draws st) + (length chars - 1)) (checks st)) /\
    generateNoDuplicatePassword raw len charset firstCharPool st
    = (inr (firstChar :: mjoin (slice0 (len - 1) shuffled)),
       RState (S (draws st) + (length chars - 1)) (checks st)).
Proof.
  intros Hpool.
  destruct (lookup_mod_is_Some firstCharPool (raw (draws st)) Hpool)
    as [firstChar Hfirst].
  set (chars := filter (fun c => c <> [firstChar]) (codePoints charset)).
  destruct (shuffleFrom_run raw (length chars - 1) chars
              (RState (S (draws st)) (checks st)))
    as (shuffled & Hrun & Hperm); [lia|].
  exists firstChar, shuffled. split; [done|]. cbn zeta. fold chars.
  split; [done|]. split; [done|].
  unfold generateNoDuplicatePassword, bind. rewrite secureRandom_run, Hfirst.
  fold chars. by rewrite Hrun.
Qed.

(** The same on a charset without a surrogate pair, where the array holds
    the units of the charset one by one. *)
Lemma generateNoDuplicatePassword_run raw len (charset firstCharPool : list Z) st :
  firstCharPool <> [] -> noPairs charset ->
  exists firstChar shuffled,
    firstCharPool !! (raw (draws st) mod length firstCharPool)%nat
      = Some firstChar /\
    shuffled ≡ₚ filter (fun c => c <> firstChar) charset /\
    filter (fun c => c <> [firstChar]) (codePoints charset)
    = (fun c => [c]) <$> filter (fun c => c <> firstChar) charset /\
    shuffleFrom raw (length (filter (fun c => c <> firstChar) charset) - 1)
      ((fun c => [c]) <$> filter (fun c => c <> firstChar) charset)
      (RState (S (draws st)) (checks st))
    = (inr ((fun c => [c]) <$> shuffled),
       RState (S (draws st)
               + (length (filter (fun c => c <> firstChar) charset) - 1))
              (checks st)) /\
    generateNoDuplicatePassword raw len charset firstCharPool st
    = (inr (firstChar :: slice0 (len - 1) shuffled),
       RState (S (draws st)
               + (length (filter (fun c => c <> firstChar) charset) - 1))
              (checks st)).
Proof.
  intros Hpool Hunits.
  destruct (lookup_mod_is_Some firstCharPool (raw (draws st)) Hpool)
    as [firstChar Hfirst].
  set (rest := filter (fun c => c <> firstChar) charset).
  assert (filter (fun c => c <> [firstChar]) (codePoints charset)
          = (fun c => [c]) <$> rest) as Hchars.
  { rewrite Hunits, filter_units. f_equal. apply list_filter_iff.
    intros c. split; congruence. }
  destruct (shuffleFrom_run raw (length rest - 1) rest
              (RState (S (draws st)) (checks st)))
    as (shuffled & Hrun & Hperm); [lia|].
  apply (shuffleFrom_fmap (fun c => [c])) in Hrun.
  exists firstChar, shuffled. split; [done|]. split; [done|].
  split; [done|]. split; [done|].
  unfold generateNoDuplicatePassword, bind. rewrite secureRandom_run, Hfirst.
  rewrite Hchars, length_fmap, Hrun. unfold ret.
  by rewrite slice0_fmap, join_units.
Qed.

(** ** The general path *)

Lemma symbolsIn_snoc symbolsSet2 password c :
  symbolsIn (symbolsOf symbolsSet2) (password ++ [c])
  = countSymbol c symbolsSet2 (symbolsIn (symbolsOf symbolsSet2) password).
Proof.
  unfold symbolsIn, countSymbol, symbolsOf.
  rewrite filter_app, length_app, filter_cons, filter_nil.
  destruct symbolsSet2 as [s|]; simpl.
  - case_bool_decide as Hc.
    + rewrite decide_True by done. simpl. lia.
    + rewrite decide_False by done. simpl. lia.
  - rewrite decide_False by apply not_elem_of_empty. simpl. lia.
Qed.

Lemma symbolsIn_nil symbols : symbolsIn symbols [] = 0.
Proof. reflexivity. Qed.

Lemma symbolsIn_nonneg symbols password : 0 <= symbolsIn symbols password.
Proof. unfold symbolsIn. lia. Qed.

Lemma usedAfter_snoc noDuplicate (password : list Z) c :
  usedAfter noDuplicate (password ++ [c])
  = addUsed c (usedAfter noDuplicate password).
Proof.
  unfold usedAfter, addUsed. destruct noDuplicate; [|done]. f_equal.
  rewrite list_to_set_app_L. simpl.
  rewrite (right_id_L ∅ (∪)). apply (comm_L (∪)).
Qed.

(** What an accepted character is known to satisfy. *)
Lemma isValidChar_accepts c p usedChars symbolsSet n q noSeq :
  isValidChar c p usedChars symbolsSet n q noSeq = true ->
  (forall u, usedChars = Some u -> c ∉ u) /\
  (forall s z, symbolsSet = Some s -> q = Fin z -> [c] ∈ s -> n < z).
Proof.
  unfold isValidChar. intros H. split.
  - intros u ->. case_bool_decide; [done|]. done.
  - intros s z -> -> Hc.
    destruct (match usedChars with Some _ => _ | None => _ end); [done|].
    destruct (noSeq && _); [done|].
    rewrite bool_decide_eq_true_2 in H by done. simpl in H.
    destruct (z <=? n) eqn:E; [done|]. lia.
Qed.

Section GeneralPath.
Variable raw : nat -> nat.
Variables (charset : list Z) (symbolsSet2 : option (gset (list Z)))
          (maxSymbols : num) (noSequential : bool).

(** The invariant of the filling loop, started after the characters of
    [password]: the length grows by one per round, the used set keeps the
    characters apart, the symbol count stays under the quota, and each
    round costs one call of getValidChar.  The loop throws for the first
    position whose valid subset is empty, and for no other reason. *)
Lemma fillRest_run noDuplicate todo password prevChar st r st' :
  last password = Some prevChar ->
  fillRest raw charset symbolsSet2 maxSymbols noSequential todo
           (Z.of_nat (length password)) password prevChar
           (usedAfter noDuplicate password)
           (symbolsIn (symbolsOf symbolsSet2) password) st = (r, st') ->
  (draws st <= draws st' <= draws st + 6 * todo)%nat /\
  (checks st <= checks st' <= checks st + (5 + length charset) * todo)%nat /\
  match r with
  | inr result =>
      exists more,
        result = password ++ more /\ length more = todo /\
        (forall c, c ∈ more -> c ∈ charset) /\
        (noDuplicate = true -> NoDup password -> NoDup result) /\
        (forall z, maxSymbols = Fin z ->
                   symbolsIn (symbolsOf symbolsSet2) password <= z ->
                   symbolsIn (symbolsOf symbolsSet2) result <= z)
  | inl e =>
      (e = ReadUndefined /\ charset = []) \/
      (exists more,
         (length more < todo)%nat /\
         (forall c, c ∈ more -> c ∈ charset) /\
         e = FailedPosition (Z.of_nat (length (password ++ more)) + 1) /\
         validSubset charset (last (password ++ more))
           (usedAfter noDuplicate (password ++ more)) symbolsSet2
           (symbolsIn (symbolsOf symbolsSet2) (password ++ more))
           maxSymbols noSequential = [])
  end.
Proof.
  revert password prevChar st.
  induction todo as [|todo IH]; intros password prevChar st Hlast H.
  - simpl in H. inversion H; subst. split; [lia|]. split; [lia|].
    exists []. rewrite app_nil_r. split; [done|]. split; [done|].
    split; [|done]. intros c Hc. by apply not_elem_of_nil in Hc.
  - cbn [fillRest] in H.
    apply bind_run in H as [(e & Hg & ->)|(next & st1 & Hg & H)];
      apply getValidChar_run in Hg as (Hd & Hc & Hr).
    + split; [lia|]. split; [lia|]. by left.
    + destruct next as [c|].
      * apply list_elem_of_filter in Hr as [Hvalid Hin].
        apply isValidChar_accepts in Hvalid as [Hfresh Hquota].
        rewrite <- usedAfter_snoc, <- symbolsIn_snoc in H.
        replace (Z.of_nat (length password) + 1)
          with (Z.of_nat (length (password ++ [c]))) in H
          by (rewrite length_app; simpl; lia).
        apply IH in H as (Hd' & Hc' & Hr'); [|by rewrite last_snoc].
        split; [lia|]. split; [lia|].
        destruct r as [e|result].
        { destruct Hr' as [?|(more & Hlen & Hmore & He & Hstuck)];
            [by left|].
          right. exists (c :: more).
          rewrite <- app_assoc in He, Hstuck. split; [simpl; lia|].
          split; [|done]. intros x Hx.
          apply elem_of_cons in Hx as [->|Hx]; [done|by apply Hmore]. }
        destruct Hr' as (more & -> & Hlen & Hmore & Hnodup & Hsym).
        exists (c :: more). split; [by rewrite <- app_assoc|].
        split; [simpl; lia|]. split.
        { intros x Hx.
          apply elem_of_cons in Hx as [->|Hx]; [done|by apply Hmore]. }
        split.
        -- intros Hnd Hpw. apply Hnodup; [done|].
           apply NoDup_app. split; [done|]. split; [|apply NoDup_singleton].
           intros x Hx Hx'. apply list_elem_of_singleton in Hx'. subst x.
           apply (Hfresh (list_to_set password)).
           ++ unfold usedAfter. by rewrite Hnd.
           ++ by apply elem_of_list_to_set.
        -- intros z -> Hz. apply (Hsym z); [done|].
           rewrite symbolsIn_snoc. unfold countSymbol.
           destruct symbolsSet2 as [s|]; [|done].
           case_bool_decide as Hcs; [|done].
           specialize (Hquota s z eq_refl eq_refl Hcs). lia.
      * inversion H; subst. split; [lia|]. split; [lia|].
        right. exists []. rewrite app_nil_r. split; [simpl; lia|].
        split; [intros c Hin; by apply not_elem_of_nil in Hin|].
        split; [done|]. by rewrite Hlast.
Qed.

End GeneralPath.

(** ** One password *)

Lemma isEmpty_true (l : list Z) : isEmpty l = true <-> l = [].
Proof. by destruct l. Qed.

Lemma isEmpty_false (l : list Z) : isEmpty l = false <-> l <> [].
Proof. by destruct l. Qed.

Lemma length_eqb_0 (l : list Z) : (length l =? 0)%nat = isEmpty l.
Proof. by destruct l. Qed.

Lemma filterSimilarChars_filter (pool : list Z) :
  filterSimilarChars pool similarChars
  = filter (fun c => [c] ∉ (list_to_set (codePoints similarChars)
                             : gset (list Z))) pool.
Proof. reflexivity. Qed.

Lemma filterSimilarChars_length (pool : list Z) :
  (length (filterSimilarChars pool similarChars) <= length pool)%nat.
Proof. rewrite filterSimilarChars_filter. apply length_filter. Qed.

Lemma similarFiltered_length noSimilar (pool : list Z) :
  (length (similarFiltered noSimilar pool) <= length pool)%nat.
Proof.
  destruct noSimilar; simpl; [apply filterSimilarChars_length|done].
Qed.

(** With [noSimilar] set, generation is the two emptiness tests followed by
    generation without [noSimilar] on the filtered pools. *)
Lemma generateSinglePassword_similar raw len charset firstCharPool
    noDuplicate noSequential symbolsSet st :
  generateSinglePassword raw len charset firstCharPool true noDuplicate
                         noSequential symbolsSet st
  = if isEmpty (filterSimilarChars charset similarChars)
    then (inl NoCharsAfterSimilar, st)
    else if isEmpty (filterSimilarChars firstCharPool similarChars)
    then (inl NoStartAfterSimilar, st)
    else generateSinglePassword raw len
           (filterSimilarChars charset similarChars)
           (filterSimilarChars firstCharPool similarChars)
           false noDuplicate noSequential symbolsSet st.
Proof.
  unfold generateSinglePassword. cbn [bind ret raise]. unfold bind at 1.
  rewrite !length_eqb_0.
  destruct (isEmpty (filterSimilarChars charset similarChars)); [done|].
  destruct (isEmpty (filterSimilarChars firstCharPool similarChars)); done.
Qed.

Lemma generateSinglePassword_fast raw len charset firstCharPool
    noDuplicate noSequential symbolsSet st :
  fastPath noDuplicate noSequential symbolsSet = true ->
  generateSinglePassword raw len charset firstCharPool false noDuplicate
                         noSequential symbolsSet st
  = generateNoDuplicatePassword raw len charset firstCharPool st.
Proof.
  unfold fastPath, generateSinglePassword. intros ->. reflexivity.
Qed.

Lemma ceilTenth_nonneg len : 0 <= len -> 0 <= ceilTenth len.
Proof. intros. unfold ceilTenth. apply Z.div_pos; lia. Qed.

(** The general path of one password, without [noSimilar]. *)
Lemma generateSinglePassword_general raw len charset firstCharPool
    noDuplicate noSequential symbolsSet st r st' :
  fastPath noDuplicate noSequential symbolsSet = false ->
  generateSinglePassword raw len charset firstCharPool false noDuplicate
                         noSequential symbolsSet st = (r, st') ->
  (draws st <= draws st' <= draws st + 6 * S (Z.to_nat (len - 1)))%nat /\
  (checks st <= checks st'
   <= checks st + (5 + length charset + length firstCharPool)
                  * S (Z.to_nat (len - 1)))%nat /\
  match r with
  | inr password =>
      0 <= len <= 4294967295 /\
      (exists c rest, password = c :: rest /\ c ∈ firstCharPool /\
                      length rest = Z.to_nat (len - 1) /\
                      forall x, x ∈ rest -> x ∈ charset) /\
      (noDuplicate = true -> NoDup password) /\
      (symbolsSet <> [] ->
       symbolsIn (list_to_set (codePoints symbolsSet)) password
       <= ceilTenth len)
  | inl e =>
      (e = InvalidArrayLength /\ (len < 0 \/ 4294967295 < len)) \/
      (0 <= len <= 4294967295 /\
       ((e = FailedStartingChar /\
         candidatesAfter firstCharPool len noDuplicate noSequential
                         symbolsSet [] = []) \/
        (exists c rest,
           c ∈ firstCharPool /\ (forall x, x ∈ rest -> x ∈ charset) /\
           Z.of_nat (length (c :: rest)) < len /\
           e = FailedPosition (Z.of_nat (length (c :: rest)) + 1) /\
           candidatesAfter charset len noDuplicate noSequential symbolsSet
                           (c :: rest) = []))) \/
      (e = ReadUndefined /\ (charset = [] \/ firstCharPool = []))
  end.
Proof.
  unfold fastPath, generateSinglePassword. intros ->.
  cbn [bind ret fst snd]. unfold bind at 1. cbn [ret fst snd].
  destruct ((len <? 0) || (4294967295 <? len)) eqn:Hlen.
  { intros H. inversion H; subst. split; [lia|]. split; [lia|].
    left. split; [done|]. apply orb_true_iff in Hlen as [E|E].
    - left. by apply Z.ltb_lt in E.
    - right. by apply Z.ltb_lt in E. }
  apply orb_false_iff in Hlen as [Hlen Hlen'].
  apply Z.ltb_ge in Hlen. apply Z.ltb_ge in Hlen'. intros H.
  change (if isEmpty symbolsSet then None
          else Some (list_to_set (codePoints symbolsSet)))
    with (symbolLookup symbolsSet) in H.
  change (if isEmpty symbolsSet then Infinity else Fin (ceilTenth len))
    with (symbolQuota len symbolsSet) in H.
  change (if noDuplicate then Some ∅ else None)
    with (usedAfter noDuplicate []) in H.
  apply bind_run in H as [(e & Hg & ->)|(first & st1 & Hg & H)];
    apply getValidChar_run in Hg as (Hd & Hc & Hr).
  { split; [lia|]. split; [nia|]. right. right. tauto. }
  destruct first as [c|].
  - apply list_elem_of_filter in Hr as [Hvalid Hin].
    apply isValidChar_accepts in Hvalid as [_ Hquota].
    pose proof (usedAfter_snoc noDuplicate [] c) as Hu.
    pose proof (symbolsIn_snoc (symbolLookup symbolsSet) [] c) as Hs.
    rewrite symbolsIn_nil in Hs. cbn [app] in Hu, Hs.
    rewrite <- Hu, <- Hs in H.
    apply (fillRest_run raw charset _ _ _ noDuplicate _ [c] c) in H
      as (Hd' & Hc' & Hr'); [|done].
    split; [lia|]. split; [nia|].
    destruct r as [e|password].
    { destruct Hr' as [[-> ->]|(more & Hmlen & Hmore & -> & Hstuck)].
      - right. right. tauto.
      - right. left. split; [lia|]. right. exists c, more.
        split; [done|]. split; [done|].
        split; [cbn [length] in *; lia|]. done. }
    destruct Hr' as (more & -> & Hlength & Hmore & Hnodup & Hsym).
    split; [done|]. split.
    { exists c, more. done. }
    split.
    + intros Hnd. apply Hnodup; [done|]. apply NoDup_singleton.
    + intros Hne. apply isEmpty_false in Hne.
      unfold symbolQuota, symbolLookup in *. rewrite Hne in *.
      cbn [symbolsOf default] in *.
      apply (Hsym (ceilTenth len)); [done|].
      rewrite Hs. pose proof (ceilTenth_nonneg len Hlen).
      unfold countSymbol. case_bool_decide as Hcs; [|done].
      specialize (Hquota _ _ eq_refl eq_refl Hcs). lia.
  - inversion H; subst. split; [lia|]. split; [nia|]. right. left.
    split; [lia|]. by left.
Qed.

(** ** The pools built from the settings *)

Lemma alphanumerics_NoDup : NoDup (numbersSet ++ lowercaseSet ++ uppercaseSet).
Proof. apply (bool_decide_unpack _). by vm_compute. Qed.

(** Without symbols the charset repeats no character. *)
Lemma charsetOf_NoDup s :
  Settings.includeSymbols s = false -> NoDup (charsetOf s).
Proof.
  intros Hs. unfold charsetOf. rewrite Hs.
  pose proof alphanumerics_NoDup as H.
  apply NoDup_app in H as (Hn & _ & Hlu).
  pose proof Hlu as Hlu'. apply NoDup_app in Hlu' as (Hl & _ & Hu).
  destruct (Settings.includeNumbers s), (Settings.includeLowercase s),
    (Settings.includeUppercase s); simpl; try done.
  - apply alphanumerics_NoDup.
  - apply (bool_decide_unpack _). by vm_compute.
  - apply (bool_decide_unpack _). by vm_compute.
  - constructor.
Qed.

Lemma symbolsSetOf_empty s :
  symbolsSetOf s = [] <-> Settings.includeSymbols s = false.
Proof.
  unfold symbolsSetOf. destruct (Settings.includeSymbols s); [|done].
  destruct (Settings.customSymbols s); simpl; split; done.
Qed.

Lemma filter_iff_elem {A} (P Q : A -> Prop) `{!forall x, Decision (P x)}
    `{!forall x, Decision (Q x)} (l : list A) :
  (forall x, x ∈ l -> P x <-> Q x) -> filter P l = filter Q l.
Proof.
  induction l as [|y l IH]; intros Hall; [done|].
  rewrite !filter_cons.
  rewrite IH by (intros x Hx; apply Hall; by right).
  destruct (decide (P y)) as [Hy|Hy].
  - rewrite decide_True; [done|]. by apply (Hall y); [left|].
  - rewrite decide_False; [done|]. intros Hq. apply Hy.
    by apply (Hall y); [left|].
Qed.

(** A filter that lets the surrogates through works on the code points of
    well-formed text. *)
Lemma filter_join_scalars (D : Z -> Prop) `{!forall c, Decision (D c)}
    (ps : list (list Z)) :
  Forall (fun q => scalar q = true) ps ->
  (forall c, isHighSurrogate c = true \/ isLowSurrogate c = true -> D c) ->
  filter D (mjoin ps) = mjoin (filter (Forall D) ps).
Proof.
  intros Hps Hsur. induction Hps as [|q ps Hq Hps IH]; [done|].
  change (mjoin (q :: ps)) with (q ++ mjoin ps).
  rewrite filter_app, IH, filter_cons.
  destruct (scalar_cases q Hq)
    as [(d & -> & Hd1 & Hd2)|(h & l & -> & Hh & Hl)].
  - rewrite filter_cons, filter_nil. destruct (decide (D d)) as [Hd|Hd].
    + rewrite decide_True by (by repeat constructor). done.
    + rewrite decide_False; [done|]. intros Hall.
      by apply Forall_cons in Hall as [? _].
  - assert (D h) by (apply Hsur; by left).
    assert (D l) by (apply Hsur; by right).
    rewrite decide_True by (by repeat constructor).
    rewrite !filter_cons, filter_nil.
    rewrite decide_True by done. rewrite decide_True by done. done.
Qed.

Lemma alphanumerics_plain c :
  c ∈ numbersSet ++ lowercaseSet ++ uppercaseSet ->
  isHighSurrogate c = false /\ isLowSurrogate c = false.
Proof.
  revert c. apply Forall_forall. apply (bool_decide_unpack _). by vm_compute.
Qed.

Lemma alphanumericsOf_subseteq s :
  alphanumericsOf s ⊆ numbersSet ++ lowercaseSet ++ uppercaseSet.
Proof.
  unfold alphanumericsOf. intros c.
  destruct (Settings.includeNumbers s), (Settings.includeLowercase s),
    (Settings.includeUppercase s);
    rewrite ?elem_of_app, ?elem_of_nil; tauto.
Qed.

Lemma charsetOf_split s : charsetOf s = alphanumericsOf s ++ symbolsSetOf s.
Proof.
  unfold charsetOf, alphanumericsOf.
  assert ((if Settings.includeSymbols s then symbolsSetOf s else [])
          = symbolsSetOf s) as Hsym.
  { destruct (Settings.includeSymbols s) eqn:E; [done|].
    symmetry. by apply symbolsSetOf_empty. }
  rewrite <- Hsym at 2.
  destruct (Settings.includeNumbers s), (Settings.includeLowercase s),
    (Settings.includeUppercase s), (Settings.includeSymbols s);
    by rewrite ?app_nil_r, <- ?app_assoc.
Qed.

(** The pool before the symbols go: the charset, less the digits when
    [noStartNumber] is set. *)
Lemma firstCharPoolOf_fold s :
  firstCharPoolOf s
  = let pool :=
      filter (fun c => Settings.noStartNumber s = true -> isDigit c = false)
             (charsetOf s) in
    if Settings.noStartSymbol s && negb (isEmpty (symbolsSetOf s))
    then fold_left (fun pool sym => removeAll sym pool)
                   (codePoints (symbolsSetOf s)) pool
    else pool.
Proof.
  unfold firstCharPoolOf. cbn zeta.
  assert ((if Settings.noStartNumber s
           then filter (fun c => isDigit c = false) (charsetOf s)
           else charsetOf s)
          = filter (fun c => Settings.noStartNumber s = true ->
                             isDigit c = false) (charsetOf s)) as ->; [|done].
  destruct (Settings.noStartNumber s).
  - apply list_filter_iff. intros c. split; [done|]. intros Hc. by apply Hc.
  - symmetry. by apply filter_all.
Qed.

Lemma firstCharPoolOf_sublist s : firstCharPoolOf s `sublist_of` charsetOf s.
Proof.
  rewrite firstCharPoolOf_fold. cbn zeta.
  destruct (Settings.noStartSymbol s && _); [|apply sublist_filter].
  etrans; [apply fold_removeAll_sublist|apply sublist_filter].
Qed.

(** What is in the pool is in the charset, is no digit under
    [noStartNumber], and is no code point of the symbol string under
    [noStartSymbol]. *)
Lemma firstCharPoolOf_elem_of s (c : Z) :
  c ∈ firstCharPoolOf s ->
  c ∈ charsetOf s /\
  (Settings.noStartNumber s = true -> isDigit c = false) /\
  (Settings.noStartSymbol s = true -> [c] ∉ codePoints (symbolsSetOf s)).
Proof.
  rewrite firstCharPoolOf_fold. cbn zeta. intros Hc.
  assert (c ∈ filter (fun c => Settings.noStartNumber s = true ->
                               isDigit c = false) (charsetOf s)) as Hin.
  { destruct (Settings.noStartSymbol s && _); [|done].
    by apply (sublist_subseteq _ _ (fold_removeAll_sublist _ _)) in Hc. }
  apply list_elem_of_filter in Hin as [Hd Hin].
  split; [done|]. split; [done|]. intros Hflag Hsym.
  rewrite Hflag in Hc.
  destruct (isEmpty (symbolsSetOf s)) eqn:E.
  - apply isEmpty_true in E. rewrite E in Hsym. by apply elem_of_nil in Hsym.
  - simpl in Hc. by apply fold_removeAll_unit in Hc.
Qed.

(** A character of the charset that is no digit under [noStartNumber] and
    no unit of the symbol string under [noStartSymbol] is in the pool. *)
Lemma firstCharPoolOf_keeps s (c : Z) :
  c ∈ charsetOf s ->
  (Settings.noStartNumber s = true -> isDigit c = false) ->
  (Settings.noStartSymbol s = true -> c ∉ symbolsSetOf s) ->
  c ∈ firstCharPoolOf s.
Proof.
  intros Hin Hd Hsym. rewrite firstCharPoolOf_fold. cbn zeta.
  assert (c ∈ filter (fun c => Settings.noStartNumber s = true ->
                               isDigit c = false) (charsetOf s)) as Hpool.
  { by apply list_elem_of_filter. }
  destruct (Settings.noStartSymbol s) eqn:Hflag; [|done].
  destruct (isEmpty (symbolsSetOf s)); [done|]. simpl.
  apply fold_removeAll_keeps; [done|]. intros sym Hs Hc.
  apply Hsym; [done|]. by eapply elem_of_codePoints.
Qed.

(** For a well-formed symbol string the loop over the symbols strikes out
    exactly the units of the symbol string. *)
Lemma firstCharPoolOf_filter s :
  wellFormed (symbolsSetOf s) ->
  firstCharPoolOf s
  = filter (fun c => (Settings.noStartNumber s = true -> isDigit c = false) /\
                     (Settings.noStartSymbol s = true -> c ∉ symbolsSetOf s))
           (charsetOf s).
Proof.
  intros Hwf. rewrite firstCharPoolOf_fold. cbn zeta.
  set (D := fun c => Settings.noStartNumber s = true -> isDigit c = false).
  destruct (Settings.noStartSymbol s && negb (isEmpty (symbolsSetOf s)))
    eqn:Hloop.
  - apply andb_true_iff in Hloop as [Hflag _]. rewrite Hflag.
    rewrite charsetOf_split.
    set (A := alphanumericsOf s). set (sym := symbolsSetOf s) in *.
    assert (forall a, a ∈ A -> isHighSurrogate a = false /\
                               isLowSurrogate a = false) as Hplain.
    { intros a Ha. apply alphanumerics_plain.
      by apply (alphanumericsOf_subseteq s). }
    assert (Forall (fun q => scalar q = true) ((fun c => [c]) <$> A))
      as HA.
    { apply Forall_fmap, Forall_forall. intros a Ha.
      destruct (Hplain a Ha) as [H1 H2]. simpl. by rewrite H1, H2. }
    rewrite <- (join_units A) at 1. rewrite <- (join_codePoints sym) at 2.
    rewrite <- join_app.
    rewrite filter_join_scalars.
    2:{ apply Forall_app. done. }
    2:{ intros c Hc _. unfold isDigit.
        unfold isHighSurrogate, isLowSurrogate in Hc.
        rewrite !andb_true_iff, !Z.leb_le in Hc.
        apply andb_false_iff. rewrite !Z.leb_gt. lia. }
    rewrite fold_removeAll_scalars.
    2:{ done. }
    2:{ apply Forall_filter_keep, Forall_app. done. }
    rewrite !filter_app, join_app.
    rewrite (filter_none _ (filter (Forall D) (codePoints sym))).
    2:{ intros q Hq Hn. apply list_elem_of_filter in Hq as [_ Hq]. done. }
    rewrite (filter_none _ sym).
    2:{ intros c Hc [_ Hn]. by apply Hn. }
    rewrite !app_nil_r, !filter_units, join_units, list_filter_filter.
    apply filter_iff_elem. intros a Ha. destruct (Hplain a Ha) as [H1 H2].
    split.
    + intros [Hn Hd]. split; [by apply Forall_cons in Hd as [? _]|].
      intros _ Hin. apply Hn. by apply elem_of_codePoints_plain.
    + intros [Hd Hn]. split; [|by repeat constructor].
      intros Hin. apply Hn; [done|]. by apply elem_of_codePoints_unit.
  - apply list_filter_iff. intros c. split; [|by intros [? _]].
    intros Hd. split; [done|]. intros Hflag. rewrite Hflag in Hloop.
    simpl in Hloop. apply negb_false_iff, isEmpty_true in Hloop.
    rewrite Hloop. apply not_elem_of_nil.
Qed.

Lemma isDigit_false (c : Z) : isDigit c = false <-> ~ (48 <= c <= 57).
Proof. unfold isDigit. rewrite andb_false_iff, !Z.leb_gt. lia. Qed.

Lemma firstCharPool_wellFormed s :
  wellFormed (symbolsSetOf s) ->
  forall c,
    c ∈ firstCharPoolOf s <->
    c ∈ charsetOf s /\
    (Settings.noStartNumber s = true -> ~ (48 <= c <= 57)) /\
    (Settings.noStartSymbol s = true -> c ∉ symbolsSetOf s).
Proof.
  intros Hwf c. rewrite firstCharPoolOf_filter, list_elem_of_filter by done.
  rewrite isDigit_false. tauto.
Qed.

Lemma similarFiltered_sublist noSimilar (pool : list Z) :
  similarFiltered noSimilar pool `sublist_of` pool.
Proof.
  destruct noSimilar; simpl; [|done].
  rewrite filterSimilarChars_filter. apply sublist_filter.
Qed.

Lemma similarFiltered_mono noSimilar (l k : list Z) :
  l ⊆ k -> similarFiltered noSimilar l ⊆ similarFiltered noSimilar k.
Proof.
  destruct noSimilar; simpl; [|done]. rewrite !filterSimilarChars_filter.
  intros Hsub x. rewrite !list_elem_of_filter.
  intros [Hx Hin]. split; [done|]. by apply Hsub.
Qed.

(** ** Removing one occurrence *)

Lemma removeFirstOccurrence_length x (l : list Z) :
  x ∈ l -> S (length (removeFirstOccurrence x l)) = length l.
Proof.
  induction l as [|y l IH]; intros Hx; [by apply elem_of_nil in Hx|].
  simpl. case_decide as Hy; [done|].
  apply elem_of_cons in Hx as [->|Hx]; [done|].
  simpl. by rewrite IH.
Qed.

(** On a string without repetition, dropping every occurrence of a
    character is dropping its first occurrence. *)
Lemma filter_ne_removeFirstOccurrence x (l : list Z) :
  NoDup l ->
  filter (fun c => c <> x) l = removeFirstOccurrence x l.
Proof.
  induction l as [|y l IH]; intros Hnd; [done|].
  apply NoDup_cons in Hnd as [Hy Hnd]. simpl. rewrite filter_cons.
  destruct (decide (y = x)) as [->|Hne].
  - rewrite decide_False by (intros H; by apply H).
    apply filter_all. intros c Hc ->. done.
  - rewrite decide_True by done. by rewrite IH.
Qed.

Lemma slice0_sublist {A} e (l : list A) : slice0 e l `sublist_of` l.
Proof. unfold slice0. destruct (e <? 0); apply sublist_take. Qed.

Lemma slice0_take {A} e (l : list A) :
  0 <= e -> slice0 e l = take (Z.to_nat e) l.
Proof. intros He. unfold slice0. by rewrite (proj2 (Z.ltb_ge e 0)). Qed.

(** ** The shuffle path of one password *)

Lemma generateSinglePassword_shuffle raw len charset firstCharPool
    noDuplicate noSequential symbolsSet st :
  fastPath noDuplicate noSequential symbolsSet = true ->
  firstCharPool <> [] -> noPairs charset ->
  exists firstChar shuffled st',
    firstChar ∈ firstCharPool /\
    shuffled ≡ₚ filter (fun c => c <> firstChar) charset /\
    generateSinglePassword raw len charset firstCharPool false noDuplicate
                           noSequential symbolsSet st
    = (inr (firstChar :: slice0 (len - 1) shuffled), st') /\
    (draws st <= draws st' <= draws st + 1 + length charset)%nat /\
    checks st' = checks st.
Proof.
  intros Hfast Hpool Hunits.
  destruct (generateNoDuplicatePassword_run raw len charset firstCharPool st
              Hpool Hunits)
    as (firstChar & shuffled & Hfirst & Hperm & _ & _ & Hrun).
  exists firstChar, shuffled. eexists. split.
  { by eapply list_elem_of_lookup_2. }
  split; [done|]. split.
  { rewrite generateSinglePassword_fast by done. exact Hrun. }
  simpl. split; [|done].
  pose proof (length_filter (fun c => c <> firstChar) charset). lia.
Qed.

Lemma shuffled_password_NoDup (charset shuffled : list Z) firstChar e :
  NoDup charset ->
  shuffled ≡ₚ filter (fun c => c <> firstChar) charset ->
  NoDup (firstChar :: slice0 e shuffled).
Proof.
  intros Hnd Hperm.
  assert (NoDup shuffled) as Hsh.
  { rewrite Hperm. by apply NoDup_filter. }
  apply NoDup_cons. split.
  - intros Hin. apply (sublist_subseteq _ _ (slice0_sublist e shuffled)) in Hin.
    rewrite Hperm in Hin. apply list_elem_of_filter in Hin as [Hne _].
    by apply Hne.
  - exact (sublist_NoDup _ _ Hsh (slice0_sublist e shuffled)).
Qed.

(** The first character and [slice(0, length - 1)] of the others: all of
    [length] characters when there are enough, all but [1 - length] of
    them when [length] is below 1. *)
Lemma shuffled_password_length (charset shuffled : list Z) firstChar len :
  NoDup charset -> firstChar ∈ charset ->
  shuffled ≡ₚ filter (fun c => c <> firstChar) charset ->
  Z.of_nat (length (firstChar :: slice0 (len - 1) shuffled))
  = shuffledLength len (length charset).
Proof.
  intros Hnd Hin Hperm.
  assert (S (length shuffled) = length charset) as Hlen.
  { rewrite Hperm, filter_ne_removeFirstOccurrence by done.
    by apply removeFirstOccurrence_length. }
  unfold slice0, shuffledLength. cbn [length].
  destruct (len - 1 <? 0) eqn:E1; destruct (1 <=? len) eqn:E2;
    rewrite length_take; lia.
Qed.

(** One password on pools without [noSimilar]: both paths together.  The
    hypotheses are what generatePasswords guarantees of the pools it
    passes on. *)
Lemma generateSinglePassword_plain raw len (charset firstCharPool : list Z)
    noDuplicate noSequential symbolsSet st r st' :
  firstCharPool <> [] -> firstCharPool ⊆ charset ->
  (symbolsSet = [] -> NoDup charset /\ noPairs charset) ->
  generateSinglePassword raw len charset firstCharPool false noDuplicate
                         noSequential symbolsSet st = (r, st') ->
  (draws st <= draws st'
   <= draws st + 6 * S (Z.to_nat (len - 1)) + 1 + length charset)%nat /\
  (checks st <= checks st'
   <= checks st + (5 + length charset + length firstCharPool)
                  * S (Z.to_nat (len - 1)))%nat /\
  match r with
  | inr password =>
      (noDuplicate = true -> NoDup password) /\
      (symbolsSet <> [] ->
       symbolsIn (list_to_set (codePoints symbolsSet)) password
       <= ceilTenth len) /\
      Z.of_nat (length password)
      = (if fastPath noDuplicate noSequential symbolsSet
         then shuffledLength len (length charset)
         else Z.max 1 len) /\
      (fastPath noDuplicate noSequential symbolsSet = false ->
       0 <= len <= 4294967295) /\
      (exists c rest, password = c :: rest /\ c ∈ firstCharPool /\
                      forall x, x ∈ rest -> x ∈ charset)
  | inl e =>
      fastPath noDuplicate noSequential symbolsSet = false /\
      ((e = InvalidArrayLength /\ (len < 0 \/ 4294967295 < len)) \/
       (0 <= len <= 4294967295 /\
        ((e = FailedStartingChar /\
          candidatesAfter firstCharPool len noDuplicate noSequential
                          symbolsSet [] = []) \/
         (exists c rest,
            c ∈ firstCharPool /\ (forall x, x ∈ rest -> x ∈ charset) /\
            Z.of_nat (length (c :: rest)) < len /\
            e = FailedPosition (Z.of_nat (length (c :: rest)) + 1) /\
            candidatesAfter charset len noDuplicate noSequential symbolsSet
                            (c :: rest) = []))))
  end.
Proof.
  intros Hfp Hsub Hnd H.
  assert (charset <> []) as Hcs.
  { intros ->. destruct firstCharPool as [|x ?]; [done|].
    by apply (not_elem_of_nil x), Hsub; left. }
  destruct (fastPath noDuplicate noSequential symbolsSet) eqn:Hfast.
  - assert (symbolsSet = []) as Hsym.
    { unfold fastPath in Hfast. apply isEmpty_true.
      by destruct noDuplicate, noSequential, (isEmpty symbolsSet). }
    destruct (Hnd Hsym) as [Hnodup Hunits].
    destruct (generateSinglePassword_shuffle raw len charset firstCharPool
                noDuplicate noSequential symbolsSet st Hfast Hfp Hunits)
      as (firstChar & shuffled & st2 & Hin & Hperm & Hrun & Hd & Hc).
    rewrite Hrun in H. inversion H; subst r st2. clear H.
    split; [lia|]. split; [lia|]. split; [|split; [|split; [|split]]].
    + intros _. by apply (shuffled_password_NoDup charset).
    + done.
    + apply shuffled_password_length; auto.
    + done.
    + exists firstChar, (slice0 (len - 1) shuffled).
      split; [done|]. split; [done|]. intros x Hx.
      apply (sublist_subseteq _ _ (slice0_sublist _ shuffled)) in Hx.
      rewrite Hperm in Hx. by apply list_elem_of_filter in Hx as [_ ?].
  - apply generateSinglePassword_general in H as (Hd & Hc & Hr); [|done].
    split; [lia|]. split; [lia|].
    destruct r as [e|password].
    + split; [done|].
      destruct Hr as [?|[?|[_ [?|?]]]]; try tauto; done.
    + destruct Hr as (Hpos & (c & rest & -> & Hc' & Hlength & Hrest)
                      & Hnodup & Hsym).
      split; [done|]. split; [done|]. split.
      * cbn [length]. rewrite Hlength. lia.
      * split; [done|]. exists c, rest. done.
Qed.

(** ** One password from the settings *)

Lemma effective_subseteq s : effectiveFirstCharPool s ⊆ effectiveCharset s.
Proof.
  apply similarFiltered_mono, sublist_subseteq, firstCharPoolOf_sublist.
Qed.

Lemma effectiveCharset_NoDup s :
  symbolsSetOf s = [] -> NoDup (effectiveCharset s).
Proof.
  intros Hs. apply symbolsSetOf_empty in Hs.
  exact (sublist_NoDup _ _ (charsetOf_NoDup s Hs)
           (similarFiltered_sublist _ _)).
Qed.

Lemma effectiveCharset_noPairs s :
  symbolsSetOf s = [] -> noPairs (effectiveCharset s).
Proof.
  intros Hs. apply codePoints_units. intros c Hc.
  apply (sublist_subseteq _ _
           (similarFiltered_sublist (Settings.noSimilar s) (charsetOf s)))
    in Hc.
  rewrite charsetOf_split, Hs, app_nil_r in Hc.
  by apply alphanumerics_plain, (alphanumericsOf_subseteq s).
Qed.

Lemma generateOne_run raw s st r st' :
  firstCharPoolOf s <> [] ->
  generateOne raw s st = (r, st') ->
  (draws st <= draws st' <= draws st + drawsBound s)%nat /\
  (checks st <= checks st' <= checks st + checksBound s)%nat /\
  match r with
  | inr password => passwordOk s password
  | inl e => errorOk s e
  end.
Proof.
  intros Hfp H.
  pose proof (effective_subseteq s) as Hsub.
  pose proof (effectiveCharset_NoDup s) as Hnd.
  pose proof (similarFiltered_length (Settings.noSimilar s) (charsetOf s))
    as Hlc.
  pose proof (similarFiltered_length (Settings.noSimilar s)
                (firstCharPoolOf s)) as Hlf.
  assert (effectiveFirstCharPool s <> [] ->
          generateSinglePassword raw (Settings.length s) (effectiveCharset s)
            (effectiveFirstCharPool s) false (Settings.noDuplicate s)
            (Settings.noSequential s) (symbolsSetOf s) st = (r, st') ->
          (draws st <= draws st' <= draws st + drawsBound s)%nat /\
          (checks st <= checks st' <= checks st + checksBound s)%nat /\
          match r with
          | inr password => passwordOk s password
          | inl e => errorOk s e
          end) as Hplain.
  { intros Hfp' H'.
    assert (effectiveCharset s <> []) as Hcs'.
    { intros E. rewrite E in Hsub.
      destruct (effectiveFirstCharPool s) as [|x ?]; [done|].
      by apply (not_elem_of_nil x), Hsub; left. }
    apply generateSinglePassword_plain in H' as (Hd & Hc & Hr); try done.
    2:{ intros E. split; [by apply Hnd|by apply effectiveCharset_noPairs]. }
    fold (effectiveCharset s) (effectiveFirstCharPool s) in *.
    unfold drawsBound, checksBound. split; [lia|]. split; [nia|].
    destruct r as [e|password].
    - right. right. unfold candidates. tauto.
    - destruct Hr as (Hnodup & Hsym & Hlength & Hrange & Hmem).
      split; [done|]. split; [|done]. intros Hs. apply Hsym. intros E.
      apply symbolsSetOf_empty in E. congruence. }
  unfold generateOne in H. unfold effectiveCharset, effectiveFirstCharPool in *.
  destruct (Settings.noSimilar s) eqn:Hsim; simpl in *.
  - rewrite generateSinglePassword_similar in H.
    destruct (isEmpty (filterSimilarChars (charsetOf s) similarChars)) eqn:Ec.
    { inversion H; subst. split; [lia|]. split; [lia|]. left.
      unfold effectiveCharset. rewrite Hsim. simpl.
      by apply isEmpty_true in Ec. }
    destruct (isEmpty (filterSimilarChars (firstCharPoolOf s) similarChars))
      eqn:Ef.
    { inversion H; subst. split; [lia|]. split; [lia|]. right. left.
      unfold effectiveCharset, effectiveFirstCharPool. rewrite Hsim. simpl.
      apply isEmpty_true in Ef. apply isEmpty_false in Ec. done. }
    apply isEmpty_false in Ef.
    specialize (Hplain Ef H).
    unfold passwordOk, errorOk, effectiveCharset, effectiveFirstCharPool
      in *.
    by rewrite Hsim in *.
  - specialize (Hplain Hfp H).
    unfold passwordOk, errorOk, effectiveCharset, effectiveFirstCharPool
      in *.
    by rewrite Hsim in *.
Qed.

(** The errors of one password by name. *)
Lemma errorOk_cases s e :
  errorOk s e ->
  e = NoCharsAfterSimilar \/ e = NoStartAfterSimilar \/
  e = InvalidArrayLength \/ e = FailedStartingChar \/
  exists k, 1 < k /\ e = FailedPosition k.
Proof.
  intros [(-> & _)|[(-> & _)|(_ & _ & _ & [[-> _]|[_ [[-> _]|H]]])]];
    try tauto.
  destruct H as (c & rest & _ & _ & _ & -> & _).
  do 4 right. eexists. split; [|done]. cbn [length]. lia.
Qed.

(** ** The batch *)

Lemma generateLoop_run raw s todo done st out st' :
  firstCharPoolOf s <> [] ->
  generateLoop raw s todo done st = (out, st') ->
  exists new,
    passwordList out = done ++ new /\
    Forall (passwordOk s) new /\
    match tooltip out with
    | None => length new = todo
    | Some e => (length new < todo)%nat /\ errorOk s e
    end /\
    (draws st <= draws st' <= draws st + drawsBound s * todo)%nat /\
    (checks st <= checks st' <= checks st + checksBound s * todo)%nat.
Proof.
  intros Hfp. revert done st.
  induction todo as [|todo IH]; intros done st H.
  - simpl in H. inversion H; subst. exists []. simpl.
    rewrite app_nil_r. repeat split; try lia; done.
  - cbn [generateLoop] in H.
    change (generateSinglePassword raw _ _ _ _ _ _ _ st)
      with (generateOne raw s st) in H.
    destruct (generateOne raw s st) as [[e|password] st1] eqn:Hone;
      apply generateOne_run in Hone as (Hd & Hc & Hr); try done.
    + inversion H; subst. exists []. cbn [passwordList tooltip length].
      rewrite app_nil_r.
      split; [done|]. split; [done|]. split; [split; [lia|done]|].
      rewrite !Nat.mul_succ_r. split; lia.
    + apply IH in H as (new & Hlist & Hall & Htip & Hd' & Hc').
      exists (password :: new). rewrite Hlist, <- app_assoc.
      cbn [app length].
      split; [done|]. split; [by constructor|]. split.
      * destruct (tooltip out); [|lia]. split; [lia|tauto].
      * rewrite !Nat.mul_succ_r. split; lia.
Qed.

Lemma generatePasswords_validated raw s st :
  validated s ->
  generatePasswords raw s st
  = generateLoop raw s (Z.to_nat (Settings.amount s)) [] st.
Proof.
  intros (Hcs & Hfp & Hval). unfold generatePasswords.
  apply isEmpty_false in Hcs. rewrite Hcs.
  rewrite length_eqb_0. apply isEmpty_false in Hfp. rewrite Hfp.
  by rewrite Hval.
Qed.

(** The checks before the loop, as one case distinction. *)
Lemma generatePasswords_preflight raw s st :
  validated s \/
  exists e,
    generatePasswords raw s st = (Output [] (Some e), st) /\
    ((e = SelectCharType /\ charsetOf s = []) \/
     (e = NoStartingChars /\ charsetOf s <> [] /\ firstCharPoolOf s = []) \/
     (e = NotEnoughUnique (Z.of_nat (length (charsetOf s)))
                          (Settings.length s) /\
      charsetOf s <> [] /\ firstCharPoolOf s <> [] /\
      Settings.noDuplicate s = true /\
      Z.of_nat (length (charsetOf s)) < Settings.length s)).
Proof.
  unfold validated, generatePasswords, validateConstraints.
  rewrite !length_eqb_0.
  destruct (isEmpty (charsetOf s)) eqn:Hcs.
  { right. exists SelectCharType. split; [done|]. left.
    by apply isEmpty_true in Hcs. }
  apply isEmpty_false in Hcs.
  destruct (isEmpty (firstCharPoolOf s)) eqn:Hfp.
  { right. exists NoStartingChars. split; [done|]. right. left.
    by apply isEmpty_true in Hfp. }
  apply isEmpty_false in Hfp.
  destruct (Settings.noDuplicate s) eqn:Hnd; simpl; [|by left].
  destruct (Z.of_nat (length (charsetOf s)) <? Settings.length s) eqn:Hlt;
    [|by left].
  right. eexists. split; [done|]. right. right.
  apply Z.ltb_lt in Hlt. done.
Qed.

(** Everything one run of generatePasswords leaves behind. *)
Lemma generatePasswords_run raw s st out st' :
  generatePasswords raw s st = (out, st') ->
  Forall (passwordOk s) (passwordList out) /\
  (draws st <= draws st'
   <= draws st + drawsBound s * Z.to_nat (Settings.amount s))%nat /\
  (checks st <= checks st'
   <= checks st + checksBound s * Z.to_nat (Settings.amount s))%nat /\
  match tooltip out with
  | None => validated s /\
            length (passwordList out) = Z.to_nat (Settings.amount s)
  | Some e =>
      (~ validated s /\ passwordList out = [] /\
       (e = SelectCharType \/ e = NoStartingChars \/
        exists a r, e = NotEnoughUnique a r)) \/
      (validated s /\ errorOk s e /\
       (length (passwordList out) < Z.to_nat (Settings.amount s))%nat)
  end.
Proof.
  intros H.
  destruct (generatePasswords_preflight raw s st) as [Hv|(e & He & Hcase)].
  - rewrite generatePasswords_validated in H by done.
    pose proof Hv as (_ & Hfp & _).
    apply generateLoop_run in H as (new & Hlist & Hall & Htip & Hd & Hc);
      [|done].
    simpl in Hlist. subst new. split; [done|]. split; [lia|]. split; [lia|].
    destruct (tooltip out); [|done]. right. tauto.
  - rewrite He in H. inversion H; subst. simpl.
    split; [constructor|]. split; [lia|]. split; [lia|]. left.
    split; [|split; [done|]].
    + intros (Hcs & Hfp & Hval).
      destruct Hcase as [[_ ?]|[(_ & _ & ?)|(_ & _ & _ & Hnd & Hlt)]];
        try done.
      unfold validateConstraints in Hval. rewrite Hnd in Hval.
      apply Z.ltb_lt in Hlt. by rewrite Hlt in Hval.
    + destruct Hcase as [[-> _]|[(-> & _)|(-> & _)]]; eauto.
Qed.

(** * The properties of the design document *)

(** ** The validity check *)

Lemma usedTest_true (c : Z) (noDuplicate : bool) (u : gset Z) :
  match (if noDuplicate then Some u else None) with
  | Some u' => bool_decide (c ∈ u')
  | None => false
  end = true
  <-> noDuplicate = true /\ c ∈ u.
Proof.
  destruct noDuplicate; [|split; [done|by intros [? _]]].
  rewrite bool_decide_eq_true. tauto.
Qed.

Lemma sequentialTest_true (c : Z) (p : option Z) (noSequential : bool) :
  noSequential && match p with
                  | Some p' => Z.abs (c - p') =? 1
                  | None => false
                  end = true
  <-> noSequential = true /\ exists p', p = Some p' /\ Z.abs (c - p') = 1.
Proof.
  rewrite andb_true_iff. destruct p as [p'|].
  - rewrite Z.eqb_eq. split.
    + intros [? ?]. split; [done|]. by exists p'.
    + intros (? & p0 & [= <-] & ?). done.
  - split; [by intros [_ ?]|]. by intros (_ & p0 & ? & _).
Qed.

Lemma symbolTest_true (c : Z) (symbolsSet : option (gset (list Z))) (n : Z)
    (q : num) :
  match symbolsSet with
  | Some s => bool_decide ([c] ∈ s) && geNum n q
  | None => false
  end = true
  <-> [c] ∈ symbolsOf symbolsSet /\ reachesQuota n q.
Proof.
  unfold symbolsOf, reachesQuota, geNum. destruct symbolsSet as [s|]; simpl.
  - rewrite andb_true_iff, bool_decide_eq_true.
    destruct q as [z|]; [by rewrite Z.leb_le|].
    split; [by intros [_ ?]|by intros [_ ?]].
  - split; [done|]. intros [Hc _]. by apply not_elem_of_empty in Hc.
Qed.

(** C5: for a candidate [c] with previous character [p] ([None] at
    position 0), used set [u], symbol set, quota [q] and symbol count [n],
    isValidChar rejects [c] exactly when ([noDuplicate] and [c] is used) or
    ([noSequential], [p] is not null and the codes of [c] and [p] differ by
    one) or ([c] is in the symbol set and [n >= q]); it accepts [c] in
    every other case.  [usedChars] is a set exactly when [noDuplicate] is
    on; the symbol set holds strings, and [c] is looked up in it as the
    string of its one unit. *)
Theorem isValidChar_rejects_iff (c : Z) (p : option Z) (noDuplicate : bool)
    (u : gset Z) (symbolsSet : option (gset (list Z))) (q : num) (n : Z)
    (noSequential : bool) :
  isValidChar c p (if noDuplicate then Some u else None) symbolsSet n q
              noSequential = false
  <-> (noDuplicate = true /\ c ∈ u) \/
      (noSequential = true /\ exists p', p = Some p' /\ Z.abs (c - p') = 1) \/
      ([c] ∈ symbolsOf symbolsSet /\ reachesQuota n q).
Proof.
  rewrite <- usedTest_true, <- sequentialTest_true,
    <- (symbolTest_true c symbolsSet n q).
  unfold isValidChar.
  destruct (match (if noDuplicate then Some u else None) with
            | Some u' => bool_decide (c ∈ u') | None => false end);
    [tauto|].
  destruct (noSequential && _); [tauto|].
  destruct (match symbolsSet with
            | Some s => bool_decide ([c] ∈ s) && geNum n q
            | None => false end);
    [tauto|].
  split; [done|]. intros [?|[?|?]]; done.
Qed.

(** ** Selecting one character *)

(** C6: at every position, on a non-empty sampling alphabet, getValidChar
    reports failure ([null]) exactly when no character of the alphabet
    passes the validity check, i.e. when the valid subset is empty;
    otherwise it returns a character of that valid subset.  A failure at a
    position aborts the whole password: the filling loop throws for that
    position, and so does generateSinglePassword for the first one. *)
Theorem getValidChar_fails_iff (raw : nat -> nat) (charset : list Z)
    (prevChar : option Z)
    (usedChars : option (gset Z)) (symbolsSet : option (gset (list Z)))
    (symbolCount : Z) (maxSymbols : num) (noSequential : bool)
    (st : rstate) :
  charset <> [] ->
  let pick := fst (getValidChar raw charset prevChar usedChars symbolsSet
                                symbolCount maxSymbols noSequential st) in
  let subset := validSubset charset prevChar usedChars symbolsSet symbolCount
                            maxSymbols noSequential in
  (pick = inr None <-> subset = []) /\
  (subset <> [] -> exists c, pick = inr (Some c) /\ c ∈ subset) /\
  (forall prev todo i password,
     prevChar = Some prev -> pick = inr None ->
     fst (fillRest raw charset symbolsSet maxSymbols noSequential (S todo) i
                   password prev usedChars symbolCount st)
     = inl (FailedPosition (i + 1))) /\
  (forall len allChars noDuplicate symbols,
     prevChar = None -> pick = inr None ->
     fastPath noDuplicate noSequential symbols = false ->
     0 <= len <= 4294967295 ->
     usedChars = (if noDuplicate then Some ∅ else None) ->
     symbolsSet = (if isEmpty symbols then None
                   else Some (list_to_set (codePoints symbols))) ->
     maxSymbols = (if isEmpty symbols then Infinity
                   else Fin (ceilTenth len)) ->
     symbolCount = 0 ->
     fst (generateSinglePassword raw len allChars charset false noDuplicate
                                 noSequential symbols st)
     = inl FailedStartingChar).
Proof.
  intros Hcs pick subset.
  destruct (getValidChar raw charset prevChar usedChars symbolsSet
              symbolCount maxSymbols noSequential st) as [r st1] eqn:Hrun.
  pose proof (getValidChar_run _ _ _ _ _ _ _ _ _ _ _ Hrun) as (_ & _ & Hr).
  fold subset in Hr. subst pick. simpl.
  split; [|split; [|split]].
  - split.
    + intros ->. done.
    + intros Hempty. destruct r as [e|[c|]]; [tauto| |done].
      rewrite Hempty in Hr. by apply not_elem_of_nil in Hr.
  - intros Hne. destruct r as [e|[c|]]; [tauto| |done]. by exists c.
  - intros prev todo i password -> ->. cbn [fillRest]. unfold bind.
    by rewrite Hrun.
  - intros len allChars noDuplicate symbols -> -> Hfast Hlen -> -> -> ->.
    unfold generateSinglePassword. cbn [bind ret fst snd].
    unfold bind at 1. cbn [ret fst snd].
    unfold fastPath in Hfast. rewrite Hfast.
    rewrite (proj2 (Z.ltb_ge len 0)) by lia.
    rewrite (proj2 (Z.ltb_ge 4294967295 len)) by lia. cbn [orb].
    unfold bind. by rewrite Hrun.
Qed.

Lemma getValidChar_fails_iff_witness :
  [97; 98] <> [] /\
  (fst (getValidChar (fun _ => 0%nat) [97; 98] (Some 97)
                     (Some {[ 97; 98 ]}) None 0 Infinity false (RState 0 0))
   = inr None
   <-> validSubset [97; 98] (Some 97) (Some {[ 97; 98 ]}) None 0 Infinity
                   false = []).
Proof.
  split; [discriminate|].
  apply (getValidChar_fails_iff (fun _ => 0%nat) [97; 98] (Some 97)
           (Some {[ 97; 98 ]}) None 0 Infinity false (RState 0 0)).
  discriminate.
Defined.

(** ** The feasibility checks *)

(** validateConstraints on its own tests the uniqueness first and the
    first-character pool second, and never the charset.  Its second test
    cannot fire inside generatePasswords, which has returned on an empty
    pool before the call. *)
Lemma validateConstraints_order len (charset firstCharPool : list Z)
    noDuplicate :
  validateConstraints len charset firstCharPool noDuplicate
  = if noDuplicate && (Z.of_nat (length charset) <? len)
    then inl (NotEnoughUnique (Z.of_nat (length charset)) len)
    else if isEmpty firstCharPool then inl NoFirstPosition
    else inr tt.
Proof. unfold validateConstraints. by rewrite length_eqb_0. Qed.

(** C4: generatePasswords makes its checks in this order: the charset is
    non-empty (else the empty-charset error), the first-character pool is
    non-empty (else the empty-first-pool error), and under [noDuplicate]
    the length does not exceed the size of the charset (else the
    not-enough-unique error with both numbers).  An input that fails an
    earlier check gets that earlier error, whatever the later checks would
    say; an input that passes all three enters the generation loop. *)
Theorem validation_order raw (s : Settings.t) (st : rstate) :
  let out := fst (generatePasswords raw s st) in
  (charsetOf s = [] -> out = Output [] (Some SelectCharType)) /\
  (charsetOf s <> [] -> firstCharPoolOf s = [] ->
   out = Output [] (Some NoStartingChars)) /\
  (charsetOf s <> [] -> firstCharPoolOf s <> [] ->
   Settings.noDuplicate s = true ->
   Z.of_nat (length (charsetOf s)) < Settings.length s ->
   out = Output [] (Some (NotEnoughUnique (Z.of_nat (length (charsetOf s)))
                                          (Settings.length s)))) /\
  (charsetOf s <> [] -> firstCharPoolOf s <> [] ->
   (Settings.noDuplicate s = true ->
    Settings.length s <= Z.of_nat (length (charsetOf s))) ->
   generatePasswords raw s st
   = generateLoop raw s (Z.to_nat (Settings.amount s)) [] st) /\
  tooltip out <> Some NoFirstPosition.
Proof.
  intros out. subst out.
  split; [|split; [|split; [|split]]].
  - intros Hcs. unfold generatePasswords. by rewrite Hcs.
  - intros Hcs Hfp. unfold generatePasswords.
    apply isEmpty_false in Hcs. by rewrite Hcs, Hfp.
  - intros Hcs Hfp Hnd Hlt. unfold generatePasswords, validateConstraints.
    apply isEmpty_false in Hcs. apply isEmpty_false in Hfp.
    rewrite Hcs, length_eqb_0, Hfp, Hnd.
    apply Z.ltb_lt in Hlt. by rewrite Hlt.
  - intros Hcs Hfp Hle. apply generatePasswords_validated.
    split; [done|]. split; [done|]. unfold validateConstraints.
    rewrite length_eqb_0. apply isEmpty_false in Hfp. rewrite Hfp.
    destruct (Settings.noDuplicate s); [|done].
    rewrite (proj2 (Z.ltb_ge _ _)); [done|]. by apply Hle.
  - destruct (generatePasswords raw s st) as [out st'] eqn:Hrun.
    apply generatePasswords_run in Hrun as (_ & _ & _ & Htip). simpl.
    intros E. rewrite E in Htip.
    destruct Htip as [(_ & _ & [?|[?|(a & r & ?)]])|(_ & Herr & _)];
      try done.
    apply errorOk_cases in Herr as [?|[?|[?|[?|(k & _ & ?)]]]]; done.
Qed.

(** ** The similar characters *)

Lemma generateNoDuplicatePassword_errors raw len charset firstCharPool st e st' :
  generateNoDuplicatePassword raw len charset firstCharPool st = (inl e, st') ->
  e = ReadUndefined /\ firstCharPool = [].
Proof.
  intros H. destruct firstCharPool as [|x pool]; [by inversion H|].
  destruct (generateNoDuplicatePassword_shuffled raw len charset (x :: pool)
              st) as (? & ? & _ & _ & _ & Hrun); [done|]. congruence.
Qed.

(** Without [noSimilar] the two similar-filter errors are never thrown. *)
Lemma generateSinglePassword_plain_errors raw len charset firstCharPool
    noDuplicate noSequential symbolsSet st e st' :
  generateSinglePassword raw len charset firstCharPool false noDuplicate
                         noSequential symbolsSet st = (inl e, st') ->
  e <> NoCharsAfterSimilar /\ e <> NoStartAfterSimilar.
Proof.
  intros H.
  destruct (fastPath noDuplicate noSequential symbolsSet) eqn:Hfast.
  - rewrite generateSinglePassword_fast in H by done.
    apply generateNoDuplicatePassword_errors in H as [-> _]. done.
  - apply generateSinglePassword_general in H as (_ & _ & Hr); [|done].
    destruct Hr as [[-> _]|[[_ [[-> _]|Hr]]|[-> _]]]; try done.
    destruct Hr as (c & rest & _ & _ & _ & -> & _). done.
Qed.

(** The similar characters are seven code points of one unit each. *)
Lemma similarChars_units : noPairs similarChars.
Proof. reflexivity. Qed.

Lemma filterSimilarChars_elem_of (pool : list Z) (c : Z) :
  c ∈ filterSimilarChars pool similarChars <-> c ∈ pool /\ c ∉ similarChars.
Proof.
  rewrite filterSimilarChars_filter, list_elem_of_filter.
  rewrite elem_of_list_to_set, similarChars_units, list_elem_of_fmap.
  split.
  - intros [Hc ?]. split; [done|]. intros Hin. apply Hc. by exists c.
  - intros [? Hc]. split; [|done]. intros (x & [= <-] & Hin). done.
Qed.

(** C10: the similar characters are filtered inside generateSinglePassword,
    after the feasibility checks have run on the unfiltered pools.  With
    [noSimilar] set the function filters both pools against [iIl1oO0] and
    throws exactly when the filtered charset is empty (first error) or,
    the charset being non-empty, the filtered first-character pool is
    empty (second error); without [noSimilar] neither error occurs.  Some
    settings pass the checks and still fail with these errors. *)
Theorem similar_filter_after_validation :
  (forall raw len charset firstCharPool noDuplicate noSequential symbolsSet st,
     let r := fst (generateSinglePassword raw len charset firstCharPool true
                     noDuplicate noSequential symbolsSet st) in
     (r = inl NoCharsAfterSimilar
      <-> filterSimilarChars charset similarChars = []) /\
     (r = inl NoStartAfterSimilar
      <-> filterSimilarChars charset similarChars <> [] /\
          filterSimilarChars firstCharPool similarChars = [])) /\
  (forall raw len charset firstCharPool noDuplicate noSequential symbolsSet st,
     let r := fst (generateSinglePassword raw len charset firstCharPool false
                     noDuplicate noSequential symbolsSet st) in
     r <> inl NoCharsAfterSimilar /\ r <> inl NoStartAfterSimilar) /\
  (forall pool c,
     c ∈ filterSimilarChars pool similarChars
     <-> c ∈ pool /\ c ∉ codes "iIl1oO0") /\
  (validated onlySimilarSymbol /\
   forall raw st,
     generatePasswords raw onlySimilarSymbol st
     = (Output [] (Some NoCharsAfterSimilar), st)) /\
  (validated onlySimilarStart /\
   forall raw st,
     generatePasswords raw onlySimilarStart st
     = (Output [] (Some NoStartAfterSimilar), st)).
Proof.
  split; [|split; [|split; [|split]]].
  - intros raw len charset firstCharPool noDuplicate noSequential symbolsSet
      st r. subst r. rewrite generateSinglePassword_similar.
    destruct (isEmpty (filterSimilarChars charset similarChars)) eqn:Ec.
    { apply isEmpty_true in Ec. simpl. split; split; try done.
      by intros [? _]. }
    apply isEmpty_false in Ec.
    destruct (isEmpty (filterSimilarChars firstCharPool similarChars))
      eqn:Ef.
    { apply isEmpty_true in Ef. simpl. split; split; done. }
    apply isEmpty_false in Ef.
    destruct (generateSinglePassword raw len _ _ false _ _ _ st)
      as [[e|password] st'] eqn:Hrun; simpl.
    + apply generateSinglePassword_plain_errors in Hrun as [? ?].
      split; split; try congruence. by intros [_ ?].
    + split; split; try done. by intros [_ ?].
  - intros raw len charset firstCharPool noDuplicate noSequential symbolsSet
      st r. subst r.
    destruct (generateSinglePassword raw len _ _ false _ _ _ st)
      as [[e|password] st'] eqn:Hrun; simpl; [|done].
    apply generateSinglePassword_plain_errors in Hrun as [? ?].
    split; congruence.
  - intros pool c. apply filterSimilarChars_elem_of.
  - split; [by vm_compute|]. intros raw st. reflexivity.
  - split; [by vm_compute|]. intros raw st. reflexivity.
Qed.

(** ** What the passwords are like *)

(** The runs of the model stay within what the source does: no run of
    generatePasswords reads off an empty pool. *)
Lemma generatePasswords_defined raw s st :
  tooltip (fst (generatePasswords raw s st)) <> Some ReadUndefined.
Proof.
  destruct (generatePasswords raw s st) as [out st'] eqn:Hrun.
  apply generatePasswords_run in Hrun as (_ & _ & _ & Htip). simpl.
  intros E. rewrite E in Htip.
  destruct Htip as [(_ & _ & [?|[?|(a & r & ?)]])|(_ & Herr & _)]; try done.
  apply errorOk_cases in Herr as [?|[?|[?|[?|(k & _ & ?)]]]]; done.
Qed.

(** Every password starts in the first-character pool and stays in the
    charset, both taken after the similar filter. *)
Lemma passwords_from_pools raw s st :
  Forall (fun password =>
            exists c rest, password = c :: rest /\
                           c ∈ effectiveFirstCharPool s /\
                           forall x, x ∈ rest -> x ∈ effectiveCharset s)
         (passwordList (fst (generatePasswords raw s st))).
Proof.
  destruct (generatePasswords raw s st) as [out st'] eqn:Hrun.
  apply generatePasswords_run in Hrun as (Hall & _). simpl.
  eapply Forall_impl; [exact Hall|]. by intros password (_ & _ & _ & _ & H).
Qed.

(** C7: with [noDuplicate] set, every password that generatePasswords
    returns has pairwise distinct characters, whether it came from the
    selector loop or from the shuffle. *)
Theorem noDuplicate_distinct raw (s : Settings.t) (st : rstate) :
  Settings.noDuplicate s = true ->
  Forall NoDup (passwordList (fst (generatePasswords raw s st))).
Proof.
  intros Hnd.
  destruct (generatePasswords raw s st) as [out st'] eqn:Hrun.
  apply generatePasswords_run in Hrun as (Hall & _). simpl.
  eapply Forall_impl; [exact Hall|]. intros password (H & _). by apply H.
Qed.

Lemma noDuplicate_distinct_witness :
  (Settings.noDuplicate eightDigits = true /\
   usesShuffle eightDigits = true /\
   Forall NoDup
     (passwordList (fst (generatePasswords (fun k => k) eightDigits
                                           (RState 0 0))))) /\
  (Settings.noDuplicate everything = true /\
   usesShuffle everything = false /\
   Forall NoDup
     (passwordList (fst (generatePasswords (fun k => (7 * k + 3)%nat)
                                           everything (RState 0 0))))).
Proof.
  split.
  - split; [reflexivity|]. split; [reflexivity|].
    apply (noDuplicate_distinct (fun k => k) eightDigits (RState 0 0)).
    reflexivity.
  - split; [reflexivity|]. split; [reflexivity|].
    apply (noDuplicate_distinct (fun k => (7 * k + 3)%nat) everything
             (RState 0 0)).
    reflexivity.
Defined.

Lemma ceilTenth_ceiling len :
  10 * (ceilTenth len - 1) < len <= 10 * ceilTenth len.
Proof.
  unfold ceilTenth.
  pose proof (Z.div_mod (len + 9) 10 ltac:(lia)).
  pose proof (Z.mod_pos_bound (len + 9) 10 ltac:(lia)). lia.
Qed.

(** The settings [astralSymbol]: no unit of the symbol is a member of the
    set of symbols, so every character passes the validity check. *)
Lemma astralSymbol_no_member (c : Z) :
  [c] ∉ (list_to_set (codePoints (symbolsSetOf astralSymbol))
         : gset (list Z)).
Proof.
  change (codePoints (symbolsSetOf astralSymbol)) with [[55357; 56832]].
  rewrite elem_of_list_to_set, list_elem_of_singleton. done.
Qed.

Lemma astralSymbol_candidates (pool prefix : list Z) :
  candidates astralSymbol pool prefix = pool.
Proof.
  unfold candidates, candidatesAfter, validSubset. apply filter_all.
  intros c _. unfold valid, isValidChar.
  cbn [usedAfter Settings.noDuplicate Settings.noSequential astralSymbol
       andb].
  change (symbolLookup (symbolsSetOf astralSymbol))
    with (Some (list_to_set (codePoints (symbolsSetOf astralSymbol))
                : gset (list Z))).
  cbv beta iota.
  by rewrite (bool_decide_eq_false_2 _ (astralSymbol_no_member c)).
Qed.

(** C8, at the input where the source departs from it: symbols are
    enabled and the quota is 1, yet for every random source the run ends
    with one password of four units, all of them units of the symbol and
    none of them counted: the set of symbols holds the code point of two
    units, the characters that are looked up in it have one.  When the
    random source alternates, the password is the symbol twice. *)
Theorem astral_symbol_escapes_quota :
  Settings.includeSymbols astralSymbol = true /\
  ceilTenth (Settings.length astralSymbol) = 1 /\
  validated astralSymbol /\
  (forall raw st,
     exists password,
       fst (generatePasswords raw astralSymbol st)
       = Output [password] None /\
       (forall c, c ∈ password -> c ∈ symbolsSetOf astralSymbol) /\
       unitsIn (symbolsSetOf astralSymbol) password = 4 /\
       symbolsIn (list_to_set (codePoints (symbolsSetOf astralSymbol)))
                 password = 0) /\
  fst (generatePasswords (fun k => k) astralSymbol (RState 0 0))
  = Output [[55357; 56832; 55357; 56832]] None.
Proof.
  assert (validated astralSymbol) as Hv by (by vm_compute).
  split; [reflexivity|]. split; [reflexivity|]. split; [done|].
  split; [|by vm_compute].
  intros raw st.
  destruct (generatePasswords raw astralSymbol st) as [out st'] eqn:Hrun.
  apply generatePasswords_run in Hrun as (Hall & _ & _ & Htip). cbn [fst].
  destruct out as [list [e|]]; cbn [tooltip passwordList] in *.
  - exfalso. destruct Htip as [[Hnv _]|(_ & Herr & _)]; [done|].
    destruct Herr as [(_ & E & _)|[(_ & E & _)|(_ & _ & _ & Herr)]];
      [done|done|].
    destruct Herr as [[_ [E|E]]|[_ [[_ E]|(c & rest & _ & _ & _ & _ & E)]]];
      [by vm_compute in E|by vm_compute in E| |];
      by rewrite astralSymbol_candidates in E.
  - destruct Htip as [_ Hone]. destruct list as [|password [|? ?]];
      try done.
    exists password. split; [done|].
    apply Forall_cons in Hall as [(_ & _ & Hlength & _ & Hmem) _].
    destruct Hmem as (c & rest & -> & Hc & Hrest).
    assert (forall x, x ∈ c :: rest -> x ∈ symbolsSetOf astralSymbol)
      as Hin.
    { intros x Hx. apply elem_of_cons in Hx as [->|Hx]; [done|].
      by apply Hrest. }
    split; [done|]. split.
    + unfold unitsIn. rewrite filter_all by done. rewrite Hlength.
      reflexivity.
    + unfold symbolsIn. rewrite filter_none; [done|].
      intros x _. apply astralSymbol_no_member.
Qed.

(** ** Bounded work *)

(** C9: selecting the character of one position takes at most 5 random
    draws and 5 validity checks in the fast path, then one scan of the
    sampling alphabet (one check per character, no draw) and one draw
    among the valid characters; so one call spends at most 5 + 1 draws and
    5 + |alphabet| checks.  One password and a batch of [amount] passwords
    are bounded in the same way; every function is total. *)
Theorem bounded_work :
  (forall raw charset prevChar usedChars symbolsSet symbolCount maxSymbols
          noSequential st,
     let fast := fastAttempts raw charset prevChar usedChars symbolsSet
                   symbolCount maxSymbols noSequential 5 st in
     (draws (snd fast) <= draws st + 5)%nat /\
     (checks (snd fast) <= checks st + 5)%nat) /\
  (forall prevChar usedChars symbolsSet symbolCount maxSymbols noSequential
          charset st,
     let scan := scanValid prevChar usedChars symbolsSet symbolCount
                   maxSymbols noSequential charset [] st in
     draws (snd scan) = draws st /\
     checks (snd scan) = (checks st + length charset)%nat) /\
  (forall raw charset prevChar usedChars symbolsSet symbolCount maxSymbols
          noSequential st,
     let pick := getValidChar raw charset prevChar usedChars symbolsSet
                   symbolCount maxSymbols noSequential st in
     (draws (snd pick) <= draws st + 5 + 1)%nat /\
     (checks (snd pick) <= checks st + 5 + length charset)%nat) /\
  (forall raw s st,
     let run := generatePasswords raw s st in
     (draws (snd run)
      <= draws st + drawsBound s * Z.to_nat (Settings.amount s))%nat /\
     (checks (snd run)
      <= checks st + checksBound s * Z.to_nat (Settings.amount s))%nat /\
     (tooltip (fst run) = None ->
      length (passwordList (fst run)) = Z.to_nat (Settings.amount s))).
Proof.
  split; [|split; [|split]].
  - intros. subst fast.
    destruct (fastAttempts _ _ _ _ _ _ _ _ _ _) as [r st'] eqn:Hrun.
    apply fastAttempts_run in Hrun as (? & ? & _). simpl. lia.
  - intros. subst scan. rewrite scanValid_run. done.
  - intros. subst pick.
    destruct (getValidChar _ _ _ _ _ _ _ _ _) as [r st'] eqn:Hrun.
    apply getValidChar_run in Hrun as (? & ? & _). simpl. lia.
  - intros. subst run.
    destruct (generatePasswords raw s st) as [out st'] eqn:Hrun.
    apply generatePasswords_run in Hrun as (_ & ? & ? & Htip).
    cbn [fst snd].
    split; [lia|]. split; [lia|]. intros E. rewrite E in Htip. tauto.
Qed.

(** ** The batch and the shuffle *)

Lemma generateOne_effective raw s st :
  effectiveFirstCharPool s <> [] ->
  generateOne raw s st
  = generateSinglePassword raw (Settings.length s) (effectiveCharset s)
      (effectiveFirstCharPool s) false (Settings.noDuplicate s)
      (Settings.noSequential s) (symbolsSetOf s) st.
Proof.
  intros Hfp. pose proof (effective_subseteq s) as Hsub.
  assert (effectiveCharset s <> []) as Hcs.
  { intros E. rewrite E in Hsub.
    destruct (effectiveFirstCharPool s) as [|x ?]; [done|].
    by apply (not_elem_of_nil x), Hsub; left. }
  unfold generateOne, effectiveCharset, effectiveFirstCharPool in *.
  destruct (Settings.noSimilar s); simpl in *; [|done].
  rewrite generateSinglePassword_similar.
  apply isEmpty_false in Hcs. apply isEmpty_false in Hfp.
  by rewrite Hcs, Hfp.
Qed.

Lemma usesShuffle_true s :
  usesShuffle s = true ->
  Settings.noDuplicate s = true /\ Settings.noSequential s = false /\
  symbolsSetOf s = [].
Proof.
  unfold usesShuffle, fastPath. rewrite !andb_true_iff, negb_true_iff.
  rewrite isEmpty_true. tauto.
Qed.

(** On a symbol string without a surrogate pair the set of symbols holds
    every unit of the string, and the symbol count counts them all. *)
Lemma symbolsIn_noPairs (symbols password : list Z) :
  noPairs symbols ->
  symbolsIn (list_to_set (codePoints symbols)) password
  = unitsIn symbols password.
Proof.
  unfold noPairs, symbolsIn, unitsIn. intros ->. do 2 f_equal.
  apply list_filter_iff. intros c.
  rewrite elem_of_list_to_set, list_elem_of_fmap. split.
  - by intros (x & [= <-] & Hin).
  - intros Hin. by exists c.
Qed.

(** Whatever the random source returns, these settings never yield a
    password: two characters of the symbol set cannot stay under a quota
    of one. *)
Lemma twoSymbols_never_succeeds raw st :
  passwordList (fst (generatePasswords raw twoSymbols st)) = [].
Proof.
  destruct (generatePasswords raw twoSymbols st) as [out st'] eqn:Hrun.
  apply generatePasswords_run in Hrun as (Hall & _). simpl.
  destruct (passwordList out) as [|password list]; [done|]. exfalso.
  apply Forall_cons in Hall as [(_ & Hquota & Hlength & _ & Hmem) _].
  specialize (Hquota eq_refl).
  destruct Hmem as (c & rest & -> & Hc & Hrest).
  change (effectiveFirstCharPool twoSymbols) with defaultSymbols in Hc.
  change (effectiveCharset twoSymbols) with defaultSymbols in Hrest.
  change (symbolsSetOf twoSymbols) with defaultSymbols in Hquota.
  change (ceilTenth (Settings.length twoSymbols)) with 1 in Hquota.
  change (usesShuffle twoSymbols) with false in Hlength.
  change (Z.max 1 (Settings.length twoSymbols)) with 2 in Hlength.
  rewrite symbolsIn_noPairs in Hquota by reflexivity.
  unfold unitsIn in Hquota. rewrite filter_all in Hquota; [lia|].
  intros x Hx. apply elem_of_cons in Hx as [->|Hx]; [done|by apply Hrest].
Qed.






(** C2: in the shuffle path the first character is drawn from the
    first-character pool.  The array that the source builds from the
    charset (its code points, without those equal to the first character)
    holds, one per element, the characters of the charset without the first
    occurrence of that character, and so has exactly [|Charset| - 1]
    elements, for every charset that reaches this path.  The loop over the
    array is the Fisher-Yates shuffle: it returns what the exchanges at
    the indices from the last one down to 1 make of the array, each with
    a partner index between 0 and the index that the random source
    picks; the result is a rearrangement of the array, and every
    rearrangement is the result for some random source.  The password is
    the first character followed by the first [length - 1] elements of
    the shuffled array. *)
Theorem shuffle_construction raw (s : Settings.t) (st : rstate) :
  usesShuffle s = true -> effectiveFirstCharPool s <> [] ->
  1 <= Settings.length s ->
  exists firstChar shuffled st',
    effectiveFirstCharPool s
      !! (raw (draws st) mod length (effectiveFirstCharPool s))%nat
    = Some firstChar /\
    let chars :=
      filter (fun c => c <> [firstChar]) (codePoints (effectiveCharset s)) in
    let pick :=
      fun i => (raw (S (draws st) + (length chars - 1 - i)) mod (i + 1))%nat in
    let start := RState (S (draws st)) (checks st) in
    chars = (fun c => [c])
              <$> removeFirstOccurrence firstChar (effectiveCharset s) /\
    S (length chars) = length (effectiveCharset s) /\
    shuffleFrom raw (length chars - 1) chars start = (inr shuffled, st') /\
    shuffled = fisherYates pick (length chars - 1) chars /\
    (forall i, (pick i <= i)%nat) /\
    shuffled ≡ₚ chars /\
    (forall target,
       target ≡ₚ chars ->
       exists raw',
         fst (shuffleFrom raw' (length chars - 1) chars start)
         = inr target) /\
    generateOne raw s st
    = (inr (firstChar
            :: mjoin (take (Z.to_nat (Settings.length s - 1)) shuffled)),
       st').
Proof.
  intros Hsh Hfp Hlen.
  pose proof (usesShuffle_true s Hsh) as (_ & _ & Hsym).
  pose proof (effectiveCharset_NoDup s Hsym) as Hnd.
  pose proof (effectiveCharset_noPairs s Hsym) as Hunits.
  destruct (generateNoDuplicatePassword_run raw (Settings.length s)
              (effectiveCharset s) (effectiveFirstCharPool s) st Hfp Hunits)
    as (firstChar & shuffled & Hfirst & Hperm & Hchars & Hshuffle & Hrun).
  assert (firstChar ∈ effectiveCharset s) as Hin.
  { apply effective_subseteq. by eapply list_elem_of_lookup_2. }
  exists firstChar, ((fun c => [c]) <$> shuffled). eexists.
  split; [exact Hfirst|]. cbn zeta. rewrite Hchars, length_fmap.
  split; [by rewrite filter_ne_removeFirstOccurrence|].
  split.
  { rewrite filter_ne_removeFirstOccurrence by done.
    by apply removeFirstOccurrence_length. }
  split; [exact Hshuffle|]. split.
  { rewrite shuffleFrom_fisherYates in Hshuffle by (rewrite length_fmap; lia).
    injection Hshuffle as <-. reflexivity. }
  split.
  { intros i.
    match goal with
    | |- (?a mod ?b <= _)%nat => pose proof (Nat.mod_upper_bound a b)
    end. lia. }
  split; [by rewrite Hperm|]. split.
  { intros target Htarget.
    destruct (shuffleFrom_reach _ target (RState (S (draws st)) (checks st))
                Htarget) as [raw' Hreach].
    exists raw'. rewrite length_fmap in Hreach. by rewrite Hreach. }
  rewrite generateOne_effective by done.
  rewrite generateSinglePassword_fast by exact Hsh.
  rewrite Hrun. rewrite slice0_take by lia.
  by rewrite <- fmap_take, join_units.
Qed.

Lemma shuffle_construction_witness :
  (usesShuffle eightDigits = true /\
   effectiveFirstCharPool eightDigits <> [] /\
   1 <= Settings.length eightDigits) /\
  exists firstChar shuffled st',
    effectiveFirstCharPool eightDigits
      !! (0 mod length (effectiveFirstCharPool eightDigits))%nat
    = Some firstChar /\
    let chars :=
      filter (fun c => c <> [firstChar])
             (codePoints (effectiveCharset eightDigits)) in
    let pick := fun i => ((1 + (length chars - 1 - i)) mod (i + 1))%nat in
    let start := RState 1 0 in
    chars = (fun c => [c])
              <$> removeFirstOccurrence firstChar
                    (effectiveCharset eightDigits) /\
    S (length chars) = length (effectiveCharset eightDigits) /\
    shuffleFrom (fun k => k) (length chars - 1) chars start
    = (inr shuffled, st') /\
    shuffled = fisherYates pick (length chars - 1) chars /\
    (forall i, (pick i <= i)%nat) /\
    shuffled ≡ₚ chars /\
    (forall target,
       target ≡ₚ chars ->
       exists raw',
         fst (shuffleFrom raw' (length chars - 1) chars start)
         = inr target) /\
    generateOne (fun k => k) eightDigits (RState 0 0)
    = (inr (firstChar
            :: mjoin (take (Z.to_nat (Settings.length eightDigits - 1))
                           shuffled)),
       st').
Proof.
  assert (usesShuffle eightDigits = true) as Hsh by reflexivity.
  assert (effectiveFirstCharPool eightDigits <> []) as Hfp
    by (by vm_compute).
  assert (1 <= Settings.length eightDigits) as Hlen by (simpl; lia).
  split; [done|].
  apply (shuffle_construction (fun k => k) eightDigits (RState 0 0)
           Hsh Hfp Hlen).
Defined.

(** C3, at the input where the source departs from it: [noDuplicate] is
    set and the length, 9, exceeds the 8 characters of the charset after
    the similar filter, yet no error is shown whatever the random source
    returns: the run ends with one password, of 8 characters. *)
Theorem similar_filter_escapes_uniqueness_check :
  Settings.noDuplicate nineDistinctDigits = true /\
  Z.of_nat (length (effectiveCharset nineDistinctDigits))
  < Settings.length nineDistinctDigits /\
  validated nineDistinctDigits /\
  forall raw st,
    exists password,
      fst (generatePasswords raw nineDistinctDigits st)
      = Output [password] None /\
      length password = 8%nat.
Proof.
  assert (validated nineDistinctDigits) as Hv by (by vm_compute).
  split; [reflexivity|]. split; [by vm_compute|]. split; [done|].
  intros raw st.
  destruct (generatePasswords raw nineDistinctDigits st) as [out st']
    eqn:Hrun.
  apply generatePasswords_run in Hrun as (Hall & _ & _ & Htip). cbn [fst].
  destruct out as [list [e|]]; cbn [tooltip passwordList] in *.
  - exfalso. destruct Htip as [[Hnv _]|(_ & Herr & _)]; [done|].
    destruct Herr as [(_ & _ & E)|[(_ & _ & _ & E)|(E & _)]];
      by vm_compute in E.
  - destruct Htip as [_ Hone]. destruct list as [|password [|? ?]];
      try done.
    exists password. split; [done|].
    apply Forall_cons in Hall as [(_ & _ & Hlength & _) _].
    apply Nat2Z.inj. rewrite Hlength. by vm_compute.
Qed.

(** * Further properties of the generator *)

(** ** From one password to the batch *)

(** A password that generateOne returns was generated, without
    [noSimilar], on the pools left by the similar filter. *)
Lemma generateOne_success raw s st password st' :
  generateOne raw s st = (inr password, st') ->
  generateSinglePassword raw (Settings.length s) (effectiveCharset s)
    (effectiveFirstCharPool s) false (Settings.noDuplicate s)
    (Settings.noSequential s) (symbolsSetOf s) st = (inr password, st').
Proof.
  unfold generateOne, effectiveCharset, effectiveFirstCharPool.
  destruct (Settings.noSimilar s); simpl; [|done].
  rewrite generateSinglePassword_similar.
  destruct (isEmpty (filterSimilarChars (charsetOf s) similarChars));
    [done|].
  destruct (isEmpty (filterSimilarChars (firstCharPoolOf s) similarChars));
    done.
Qed.

(** What holds of every password of generateOne holds of every password
    on the page. *)
Lemma generateLoop_each raw s (P : list Z -> Prop) todo shown st :
  (forall st0 password st1,
     generateOne raw s st0 = (inr password, st1) -> P password) ->
  Forall P shown ->
  Forall P (passwordList (fst (generateLoop raw s todo shown st))).
Proof.
  intros Hone. revert shown st.
  induction todo as [|todo IH]; intros shown st Hshown; [done|].
  cbn [generateLoop].
  change (generateSinglePassword raw _ _ _ _ _ _ _ st)
    with (generateOne raw s st).
  destruct (generateOne raw s st) as [[e|password] st1] eqn:Hrun; [done|].
  apply IH. apply Forall_app. split; [done|].
  apply Forall_singleton. by eapply Hone.
Qed.

Lemma generatePasswords_each raw s (P : list Z -> Prop) st :
  (forall st0 password st1,
     generateOne raw s st0 = (inr password, st1) -> P password) ->
  Forall P (passwordList (fst (generatePasswords raw s st))).
Proof.
  intros Hone.
  destruct (generatePasswords_preflight raw s st) as [Hv|(e & -> & _)];
    [|constructor].
  rewrite generatePasswords_validated by done.
  by apply generateLoop_each.
Qed.

(** ** Sequential characters *)

Lemma adjacentApart_snoc (front : list Z) prev c :
  adjacentApart (front ++ [prev]) -> Z.abs (c - prev) <> 1 ->
  adjacentApart ((front ++ [prev]) ++ [c]).
Proof.
  intros Hfront Hc i a b Ha Hb.
  destruct (decide (S i < length (front ++ [prev]))%nat) as [Hlt|Hge].
  - rewrite lookup_app_l in Ha by lia. rewrite lookup_app_l in Hb by lia.
    by eapply Hfront.
  - apply lookup_lt_Some in Hb as Hlen. rewrite !length_app in *.
    simpl in *. assert (i = length front) as -> by lia.
    rewrite lookup_app_l in Ha by (rewrite length_app; simpl; lia).
    rewrite lookup_app_r in Ha by lia.
    rewrite lookup_app_r in Hb by (rewrite length_app; simpl; lia).
    rewrite length_app in Hb. simpl in Hb.
    replace (length front - length front)%nat with 0%nat in Ha by lia.
    replace (S (length front) - (length front + 1))%nat with 0%nat in Hb
      by lia.
    simpl in *. congruence.
Qed.

Lemma isValidChar_apart c p usedChars symbolsSet n q :
  isValidChar c (Some p) usedChars symbolsSet n q true = true ->
  Z.abs (c - p) <> 1.
Proof.
  unfold isValidChar.
  destruct (match usedChars with Some _ => _ | None => _ end); [done|].
  simpl. destruct (Z.abs (c - p) =? 1) eqn:E; [done|].
  intros _. by apply Z.eqb_neq.
Qed.

Lemma fillRest_sequential raw charset symbolsSet2 maxSymbols todo i
    (front : list Z) prev usedChars symbolCount st result st' :
  fillRest raw charset symbolsSet2 maxSymbols true todo i (front ++ [prev])
           prev usedChars symbolCount st = (inr result, st') ->
  adjacentApart (front ++ [prev]) -> adjacentApart result.
Proof.
  revert i front prev usedChars symbolCount st.
  induction todo as [|todo IH];
    intros i front prev usedChars symbolCount st H Hfront.
  - simpl in H. by inversion H; subst.
  - cbn [fillRest] in H.
    apply bind_run in H as [(e & _ & ?)|(next & st1 & Hg & H)]; [done|].
    apply getValidChar_run in Hg as (_ & _ & Hr).
    destruct next as [c|]; [|done].
    apply list_elem_of_filter in Hr as [Hvalid _].
    apply isValidChar_apart in Hvalid.
    apply (IH _ (front ++ [prev]) c) in H; [done|].
    by apply adjacentApart_snoc.
Qed.

Lemma generateSinglePassword_sequential raw len charset firstCharPool
    noDuplicate symbolsSet st password st' :
  generateSinglePassword raw len charset firstCharPool false noDuplicate
                         true symbolsSet st = (inr password, st') ->
  adjacentApart password.
Proof.
  unfold generateSinglePassword. cbn [bind ret fst snd]. unfold bind at 1.
  cbn [ret fst snd negb]. rewrite andb_false_r. cbn [andb].
  destruct ((len <? 0) || (4294967295 <? len)); [done|]. intros H.
  apply bind_run in H as [(e & _ & ?)|(first & st1 & _ & H)]; [done|].
  destruct first as [c|]; [|done].
  apply (fillRest_sequential _ _ _ _ _ _ [] c) in H; [done|].
  intros i a b Ha Hb. by destruct i.
Qed.

(** X1: with [noSequential] set, no two neighbouring characters of a
    password that generatePasswords returns have character codes that
    differ by exactly one. *)
Theorem noSequential_apart raw (s : Settings.t) (st : rstate) :
  Settings.noSequential s = true ->
  Forall adjacentApart (passwordList (fst (generatePasswords raw s st))).
Proof.
  intros Hseq. apply generatePasswords_each.
  intros st0 password st1 Hrun. apply generateOne_success in Hrun.
  rewrite Hseq in Hrun. by eapply generateSinglePassword_sequential.
Qed.

Lemma noSequential_apart_witness :
  Settings.noSequential everything = true /\
  Forall adjacentApart
    (passwordList (fst (generatePasswords (fun k => (7 * k + 3)%nat)
                                          everything (RState 0 0)))).
Proof.
  split; [reflexivity|].
  apply (noSequential_apart (fun k => (7 * k + 3)%nat) everything
           (RState 0 0)).
  reflexivity.
Defined.

(** ** The symbol quota *)

(** X20: with symbols enabled, every password that generatePasswords
    returns holds at most [ceil(length * 0.1)] members of the set of
    symbols, the first position included.  The set holds the code points
    of the symbol string: for a symbol string without a surrogate pair,
    such as the default symbols, at most that many characters of the
    password occur in the symbol string.  [ceilTenth] is the integer
    ceiling of a tenth of the length. *)
Theorem counted_symbols_within_quota raw (s : Settings.t) (st : rstate) :
  Settings.includeSymbols s = true ->
  Forall (fun password =>
            symbolsIn (list_to_set (codePoints (symbolsSetOf s))) password
            <= ceilTenth (Settings.length s) /\
            (noPairs (symbolsSetOf s) ->
             unitsIn (symbolsSetOf s) password
             <= ceilTenth (Settings.length s)) /\
            10 * (ceilTenth (Settings.length s) - 1) < Settings.length s
            <= 10 * ceilTenth (Settings.length s))
         (passwordList (fst (generatePasswords raw s st))).
Proof.
  intros Hsym.
  destruct (generatePasswords raw s st) as [out st'] eqn:Hrun.
  apply generatePasswords_run in Hrun as (Hall & _). simpl.
  eapply Forall_impl; [exact Hall|]. intros password (_ & H & _).
  split; [by apply H|]. split; [|apply ceilTenth_ceiling].
  intros Hunits. rewrite <- symbolsIn_noPairs by done. by apply H.
Qed.

Lemma counted_symbols_within_quota_witness :
  (Settings.includeSymbols everything = true /\
   noPairs (symbolsSetOf everything)) /\
  Forall (fun password =>
            symbolsIn (list_to_set (codePoints (symbolsSetOf everything)))
                      password
            <= ceilTenth (Settings.length everything) /\
            (noPairs (symbolsSetOf everything) ->
             unitsIn (symbolsSetOf everything) password
             <= ceilTenth (Settings.length everything)) /\
            10 * (ceilTenth (Settings.length everything) - 1)
            < Settings.length everything
            <= 10 * ceilTenth (Settings.length everything))
         (passwordList (fst (generatePasswords (fun k => (7 * k + 3)%nat)
                                               everything (RState 0 0)))).
Proof.
  split; [split; reflexivity|].
  apply (counted_symbols_within_quota (fun k => (7 * k + 3)%nat) everything
           (RState 0 0)).
  reflexivity.
Defined.

(** ** The alphabet of the passwords *)

Lemma charsetOf_elem_of s (c : Z) :
  c ∈ charsetOf s <->
  (Settings.includeNumbers s = true /\ c ∈ numbersSet) \/
  (Settings.includeLowercase s = true /\ c ∈ lowercaseSet) \/
  (Settings.includeUppercase s = true /\ c ∈ uppercaseSet) \/
  (Settings.includeSymbols s = true /\ c ∈ symbolsSetOf s).
Proof.
  unfold charsetOf.
  destruct (Settings.includeNumbers s), (Settings.includeLowercase s),
    (Settings.includeUppercase s), (Settings.includeSymbols s);
    rewrite ?elem_of_app, ?elem_of_nil; intuition congruence.
Qed.

(** Why the symbol string has to be well-formed for the pool to hold none
    of its units: with [loneSurrogate] the low surrogate that stands alone
    is struck out first, everywhere, and the high surrogate of the pair
    stays in the pool. *)
Lemma loneSurrogate_start :
  Settings.noStartSymbol loneSurrogate = true /\
  ~ wellFormed (symbolsSetOf loneSurrogate) /\
  firstCharPoolOf loneSurrogate = numbersSet ++ [55357] /\
  55357 ∈ symbolsSetOf loneSurrogate.
Proof.
  split; [reflexivity|]. split; [|split; [reflexivity|]].
  - intros H. apply Forall_cons in H as [H _]. done.
  - apply (bool_decide_unpack _). by vm_compute.
Qed.

(** X2: the first-character pool is the charset, in the same order,
    without the digits when [noStartNumber] is set and, when
    [noStartSymbol] is set, without the symbols, which are the code points
    of the symbol string.  Every character of the pool is in the charset,
    is no digit under [noStartNumber] and is no code point of the symbol
    string under [noStartSymbol]; every character of the charset that is
    no digit under [noStartNumber] and no unit of the symbol string under
    [noStartSymbol] is in the pool.  For a symbol string that is
    well-formed text the two meet: the pool is then the charset filtered,
    with its repetitions, by these two conditions, so that it holds no
    unit of the symbol string and nothing else is removed. *)
Theorem firstCharPool_membership (s : Settings.t) :
  firstCharPoolOf s `sublist_of` charsetOf s /\
  (forall c,
     c ∈ firstCharPoolOf s ->
     c ∈ charsetOf s /\
     (Settings.noStartNumber s = true -> ~ (48 <= c <= 57)) /\
     (Settings.noStartSymbol s = true ->
      [c] ∉ codePoints (symbolsSetOf s))) /\
  (forall c,
     c ∈ charsetOf s ->
     (Settings.noStartNumber s = true -> ~ (48 <= c <= 57)) ->
     (Settings.noStartSymbol s = true -> c ∉ symbolsSetOf s) ->
     c ∈ firstCharPoolOf s) /\
  (wellFormed (symbolsSetOf s) ->
   firstCharPoolOf s
   = filter (fun c =>
               (Settings.noStartNumber s = true -> ~ (48 <= c <= 57)) /\
               (Settings.noStartSymbol s = true -> c ∉ symbolsSetOf s))
            (charsetOf s)) /\
  (wellFormed (symbolsSetOf s) ->
   forall c,
     c ∈ firstCharPoolOf s <->
     c ∈ charsetOf s /\
     (Settings.noStartNumber s = true -> ~ (48 <= c <= 57)) /\
     (Settings.noStartSymbol s = true -> c ∉ symbolsSetOf s)).
Proof.
  split; [apply firstCharPoolOf_sublist|]. split; [|split; [|split]].
  3:{ intros Hwf. rewrite firstCharPoolOf_filter by done.
      apply filter_iff_elem. intros c _. by rewrite isDigit_false. }
  - intros c Hc. apply firstCharPoolOf_elem_of in Hc as (? & Hd & ?).
    split; [done|]. split; [|done]. intros Hf. by apply isDigit_false, Hd.
  - intros c Hc Hd Hsym. apply firstCharPoolOf_keeps; [done| |done].
    intros Hf. by apply isDigit_false, Hd.
  - apply firstCharPool_wellFormed.
Qed.

(** X3: every character of every returned password belongs to an enabled
    category (digits, lower case, upper case, or the symbol set in use),
    and with [noSimilar] set none of them is one of [iIl1oO0]. *)
Theorem password_alphabet raw (s : Settings.t) (st : rstate) :
  Forall (fun password =>
            forall c, c ∈ password ->
              ((Settings.includeNumbers s = true /\ c ∈ numbersSet) \/
               (Settings.includeLowercase s = true /\ c ∈ lowercaseSet) \/
               (Settings.includeUppercase s = true /\ c ∈ uppercaseSet) \/
               (Settings.includeSymbols s = true /\ c ∈ symbolsSetOf s)) /\
              (Settings.noSimilar s = true -> c ∉ codes "iIl1oO0"))
         (passwordList (fst (generatePasswords raw s st))).
Proof.
  eapply Forall_impl; [apply passwords_from_pools|].
  intros password (c0 & rest & -> & Hc0 & Hrest) c Hc.
  assert (c ∈ effectiveCharset s) as Hin.
  { apply elem_of_cons in Hc as [->|Hc]; [|by apply Hrest].
    by apply effective_subseteq. }
  split.
  - apply charsetOf_elem_of.
    exact (sublist_subseteq _ _
             (similarFiltered_sublist (Settings.noSimilar s) (charsetOf s))
             c Hin).
  - intros Hsim. unfold effectiveCharset in Hin. rewrite Hsim in Hin.
    simpl in Hin. by apply filterSimilarChars_elem_of in Hin as [_ ?].
Qed.

(** X4: the first character of every returned password comes from the
    first-character pool: it is no digit when [noStartNumber] is set; when
    [noStartSymbol] is set it is no code point of the symbol string, and
    no unit of the symbol string at all if that string is well-formed
    text. *)
Theorem first_character_respects_start_options raw (s : Settings.t)
    (st : rstate) :
  Forall (fun password =>
            exists c rest,
              password = c :: rest /\
              c ∈ firstCharPoolOf s /\
              (Settings.noStartNumber s = true -> ~ (48 <= c <= 57)) /\
              (Settings.noStartSymbol s = true ->
               [c] ∉ codePoints (symbolsSetOf s)) /\
              (Settings.noStartSymbol s = true ->
               wellFormed (symbolsSetOf s) -> c ∉ symbolsSetOf s))
         (passwordList (fst (generatePasswords raw s st))).
Proof.
  eapply Forall_impl; [apply passwords_from_pools|].
  intros password (c & rest & -> & Hc & _). exists c, rest.
  split; [done|].
  apply (sublist_subseteq _ _
           (similarFiltered_sublist (Settings.noSimilar s)
              (firstCharPoolOf s))) in Hc.
  split; [done|].
  destruct (firstCharPoolOf_elem_of s c Hc) as (_ & Hnum & Hsym).
  split; [|split; [done|]].
  - intros Hflag. by apply isDigit_false, Hnum.
  - intros Hflag Hwf.
    rewrite firstCharPoolOf_filter, list_elem_of_filter in Hc by done.
    destruct Hc as [[_ Hc] _]. by apply Hc.
Qed.

(** ** The length of shuffled passwords *)

(** X5: on the shuffle path, once the feasibility checks have passed and
    the similar filter has left a first character to draw, generation
    never fails, whatever the length: every password is the first
    character followed by [slice(0, length - 1)] of the [n - 1] other
    characters of the charset after the similar filter, [n] being its
    size.  For a length of at least 1 these are [min(length, n)]
    characters; for a length of 0 or below, where the end of the slice
    counts from the back, they are [max(1, n + length - 1)] characters, so
    a length of 0 yields [n - 1] of them.  When [noSimilar] leaves fewer
    than [length] characters the passwords are shorter than asked for, and
    no error is shown. *)
Theorem shuffle_path_length raw (s : Settings.t) (st : rstate) :
  validated s -> usesShuffle s = true -> effectiveFirstCharPool s <> [] ->
  let out := fst (generatePasswords raw s st) in
  let n := Z.of_nat (length (effectiveCharset s)) in
  tooltip out = None /\
  length (passwordList out) = Z.to_nat (Settings.amount s) /\
  Forall (fun password =>
            (1 <= Settings.length s ->
             Z.of_nat (length password) = Z.min (Settings.length s) n) /\
            (Settings.length s <= 0 ->
             Z.of_nat (length password)
             = Z.max 1 (n + Settings.length s - 1)))
         (passwordList out).
Proof.
  intros Hv Hsh Hfp out n. subst out n.
  destruct (generatePasswords raw s st) as [out st'] eqn:Hrun.
  apply generatePasswords_run in Hrun as (Hall & _ & _ & Htip). cbn [fst].
  assert (tooltip out = None) as Hnone.
  { destruct (tooltip out) as [e|]; [|done].
    destruct Htip as [[Hnv _]|(_ & Herr & _)]; [done|].
    destruct Herr as [(_ & _ & E)|[(_ & _ & _ & E)|(E & _)]];
      [|done|congruence].
    exfalso. pose proof (effective_subseteq s) as Hsub. rewrite E in Hsub.
    destruct (effectiveFirstCharPool s) as [|x ?]; [done|].
    by apply (not_elem_of_nil x), Hsub; left. }
  split; [done|]. rewrite Hnone in Htip. split; [tauto|].
  eapply Forall_impl; [exact Hall|].
  intros password (_ & _ & H & _). rewrite Hsh in H. rewrite H.
  unfold shuffledLength. split; intros Hlen.
  - by rewrite (proj2 (Z.leb_le 1 _)).
  - rewrite (proj2 (Z.leb_gt 1 _)) by lia. done.
Qed.

Lemma shuffle_path_length_witness :
  ((validated thirtySixDistinct /\ usesShuffle thirtySixDistinct = true /\
    effectiveFirstCharPool thirtySixDistinct <> []) /\
   Z.min (Settings.length thirtySixDistinct)
         (Z.of_nat (length (effectiveCharset thirtySixDistinct))) = 31 /\
   let out := fst (generatePasswords (fun k => (5 * k + 1)%nat)
                                     thirtySixDistinct (RState 0 0)) in
   let n := Z.of_nat (length (effectiveCharset thirtySixDistinct)) in
   tooltip out = None /\
   length (passwordList out)
   = Z.to_nat (Settings.amount thirtySixDistinct) /\
   Forall (fun password =>
             (1 <= Settings.length thirtySixDistinct ->
              Z.of_nat (length password)
              = Z.min (Settings.length thirtySixDistinct) n) /\
             (Settings.length thirtySixDistinct <= 0 ->
              Z.of_nat (length password)
              = Z.max 1 (n + Settings.length thirtySixDistinct - 1)))
          (passwordList out)) /\
  ((validated noLengthDigits /\ usesShuffle noLengthDigits = true /\
    effectiveFirstCharPool noLengthDigits <> []) /\
   Z.max 1 (Z.of_nat (length (effectiveCharset noLengthDigits))
            + Settings.length noLengthDigits - 1) = 9 /\
   let out := fst (generatePasswords (fun k => (5 * k + 1)%nat)
                                     noLengthDigits (RState 0 0)) in
   let n := Z.of_nat (length (effectiveCharset noLengthDigits)) in
   tooltip out = None /\
   length (passwordList out) = Z.to_nat (Settings.amount noLengthDigits) /\
   Forall (fun password =>
             (1 <= Settings.length noLengthDigits ->
              Z.of_nat (length password)
              = Z.min (Settings.length noLengthDigits) n) /\
             (Settings.length noLengthDigits <= 0 ->
              Z.of_nat (length password)
              = Z.max 1 (n + Settings.length noLengthDigits - 1)))
          (passwordList out)).
Proof.
  split.
  - assert (validated thirtySixDistinct) as Hv by (by vm_compute).
    assert (usesShuffle thirtySixDistinct = true) as Hsh by reflexivity.
    assert (effectiveFirstCharPool thirtySixDistinct <> []) as Hfp
      by (by vm_compute).
    split; [done|]. split; [by vm_compute|].
    apply (shuffle_path_length (fun k => (5 * k + 1)%nat) thirtySixDistinct
             (RState 0 0) Hv Hsh Hfp).
  - assert (validated noLengthDigits) as Hv by (by vm_compute).
    assert (usesShuffle noLengthDigits = true) as Hsh by reflexivity.
    assert (effectiveFirstCharPool noLengthDigits <> []) as Hfp
      by (by vm_compute).
    split; [done|]. split; [by vm_compute|].
    apply (shuffle_path_length (fun k => (5 * k + 1)%nat) noLengthDigits
             (RState 0 0) Hv Hsh Hfp).
Defined.

(** ** Batches of different sizes *)

Lemma generateLoop_withAmount raw s amount todo shown st :
  generateLoop raw (withAmount s amount) todo shown st
  = generateLoop raw s todo shown st.
Proof.
  revert shown st. induction todo as [|todo IH]; intros shown st; [done|].
  cbn [generateLoop].
  change (generateSinglePassword raw _ _ _ _ _ _ _ st)
    with (generateOne raw s st) at 1.
  change (generateSinglePassword raw _ _ _ _ _ _ _ st)
    with (generateOne raw s st).
  destruct (generateOne raw s st) as [[e|password] st1]; [done|]. apply IH.
Qed.

(** The loop run for [n + k] rounds is the loop run for [n] rounds and,
    when that ended without an error, continued for [k] more. *)
Lemma generateLoop_split raw s n k shown st :
  generateLoop raw s (n + k) shown st
  = match tooltip (fst (generateLoop raw s n shown st)) with
    | None =>
        generateLoop raw s k
          (passwordList (fst (generateLoop raw s n shown st)))
          (snd (generateLoop raw s n shown st))
    | Some _ => generateLoop raw s n shown st
    end.
Proof.
  revert shown st. induction n as [|n IH]; intros shown st; [done|].
  cbn [Nat.add generateLoop].
  destruct (generateSinglePassword raw _ _ _ _ _ _ _ st)
    as [[e|password] st1]; [done|]. apply IH.
Qed.

Lemma generateLoop_extends raw s todo shown st :
  shown `prefix_of` passwordList (fst (generateLoop raw s todo shown st)).
Proof.
  revert shown st. induction todo as [|todo IH]; intros shown st; [done|].
  cbn [generateLoop].
  destruct (generateSinglePassword raw _ _ _ _ _ _ _ st)
    as [[e|password] st1]; [done|].
  etrans; [|apply IH]. by apply prefix_app_r.
Qed.

(** X6: with the same settings and the same random source, asking for
    more passwords only appends: the passwords of a batch of [n] are the
    first passwords of a batch of [m >= n], and if the batch of [n]
    stopped on an error the batch of [m] ends with the same passwords and
    the same error. *)
Theorem batch_prefix raw (s : Settings.t) (st : rstate) (n m : Z) :
  n <= m ->
  let small := fst (generatePasswords raw (withAmount s n) st) in
  let large := fst (generatePasswords raw (withAmount s m) st) in
  passwordList small `prefix_of` passwordList large /\
  (tooltip small <> None -> large = small).
Proof.
  intros Hnm small large. subst small large.
  unfold generatePasswords.
  change (charsetOf (withAmount s n)) with (charsetOf s).
  change (charsetOf (withAmount s m)) with (charsetOf s).
  change (firstCharPoolOf (withAmount s n)) with (firstCharPoolOf s).
  change (firstCharPoolOf (withAmount s m)) with (firstCharPoolOf s).
  cbn [Settings.length Settings.noDuplicate Settings.amount withAmount].
  destruct (isEmpty (charsetOf s)); [done|].
  destruct (length (firstCharPoolOf s) =? 0)%nat; [done|].
  destruct (validateConstraints _ _ _ _); [done|].
  rewrite !generateLoop_withAmount.
  replace (Z.to_nat m) with (Z.to_nat n + (Z.to_nat m - Z.to_nat n))%nat
    by lia.
  rewrite generateLoop_split.
  destruct (tooltip (fst (generateLoop raw s (Z.to_nat n) [] st)));
    [done|].
  split; [apply generateLoop_extends|done].
Qed.

Lemma batch_prefix_witness :
  1 <= 3 /\
  passwordList (fst (generatePasswords (fun k => (7 * k + 3)%nat)
                                       (withAmount everything 1)
                                       (RState 0 0)))
  `prefix_of`
  passwordList (fst (generatePasswords (fun k => (7 * k + 3)%nat)
                                       (withAmount everything 3)
                                       (RState 0 0))).
Proof.
  split; [lia|].
  apply (batch_prefix (fun k => (7 * k + 3)%nat) everything (RState 0 0)
           1 3).
  lia.
Defined.

(** ** The similar filter and the shuffle on their own *)

(** X7: filterSimilarChars is the filter that keeps, in their order and
    with their repetitions, the characters of the charset that are no code
    point of [similarChars], and nothing else; when [similarChars] holds
    no surrogate pair these are the characters that are not in
    [similarChars].  Filtering a second time changes nothing, and an empty
    [similarChars] leaves the charset as it is. *)
Theorem filterSimilarChars_spec (charset similar : list Z) :
  filterSimilarChars charset similar
  = filter (fun c => [c] ∉ codePoints similar) charset /\
  filterSimilarChars charset similar `sublist_of` charset /\
  (forall c, c ∈ filterSimilarChars charset similar
             <-> c ∈ charset /\ [c] ∉ codePoints similar) /\
  (noPairs similar ->
   forall c, c ∈ filterSimilarChars charset similar
             <-> c ∈ charset /\ c ∉ similar) /\
  filterSimilarChars (filterSimilarChars charset similar) similar
  = filterSimilarChars charset similar /\
  (similar = [] -> filterSimilarChars charset similar = charset).
Proof.
  assert (forall pool,
            filterSimilarChars pool similar
            = filter (fun c => [c] ∉ codePoints similar) pool) as Hfilter.
  { intros pool. unfold filterSimilarChars.
    destruct (isEmpty similar) eqn:Hempty.
    - apply isEmpty_true in Hempty. subst similar. symmetry.
      apply filter_all. intros c _. apply not_elem_of_nil.
    - apply list_filter_iff. intros c. by rewrite elem_of_list_to_set. }
  split; [apply Hfilter|]. rewrite !Hfilter.
  split; [apply sublist_filter|]. split; [|split; [|split]].
  - intros c. rewrite list_elem_of_filter. tauto.
  - intros Hunits c. rewrite list_elem_of_filter, Hunits, list_elem_of_fmap.
    split.
    + intros [Hc ?]. split; [done|]. intros Hin. apply Hc. by exists c.
    + intros [? Hc]. split; [|done]. by intros (x & [= <-] & Hin).
  - rewrite list_filter_filter. apply list_filter_iff. tauto.
  - intros ->. apply filter_all. intros c _. apply not_elem_of_nil.
Qed.

(** X8: the Fisher-Yates loop of generateNoDuplicatePassword, run on any
    array from its last index down, never fails, reads exactly one random
    value per index above 0, and returns a rearrangement of the array:
    every element is kept with its number of occurrences. *)
Theorem shuffle_is_permutation {A} raw (chars : list A) (st : rstate) :
  exists shuffled,
    shuffleFrom raw (length chars - 1) chars st
    = (inr shuffled, RState (draws st + (length chars - 1)) (checks st)) /\
    shuffled ≡ₚ chars /\
    length shuffled = length chars.
Proof.
  destruct (shuffleFrom_run raw (length chars - 1) chars st)
    as (shuffled & Hrun & Hperm); [lia|].
  exists shuffled. split; [done|]. split; [done|]. by rewrite Hperm.
Qed.

(** ** Lengths at the edge *)

(** X9: on the selector path, without [noSimilar], a length below 0 or
    above 2^32 - 1 makes generateSinglePassword throw the RangeError of
    [new Array(length)] before any random value is read; every password
    it returns has [max(1, length)] characters, so a length of 0 yields one
    character and never the empty string. *)
Theorem selector_length_edges raw len (charset firstCharPool : list Z)
    noDuplicate noSequential symbolsSet (st : rstate) :
  fastPath noDuplicate noSequential symbolsSet = false ->
  let run := generateSinglePassword raw len charset firstCharPool false
               noDuplicate noSequential symbolsSet st in
  (len < 0 \/ 4294967295 < len -> run = (inl InvalidArrayLength, st)) /\
  (forall password, fst run = inr password ->
     0 <= len <= 4294967295 /\
     Z.of_nat (length password) = Z.max 1 len).
Proof.
  intros Hfast run. subst run. split.
  - intros Hlen. unfold generateSinglePassword.
    cbn [bind ret fst snd]. unfold bind at 1. cbn [ret fst snd].
    unfold fastPath in Hfast. rewrite Hfast.
    assert ((len <? 0) || (4294967295 <? len) = true) as ->; [|done].
    apply orb_true_iff. rewrite !Z.ltb_lt. done.
  - intros password Hrun.
    destruct (generateSinglePassword raw len charset firstCharPool false
                noDuplicate noSequential symbolsSet st) as [r st'] eqn:E.
    simpl in Hrun. subst r.
    apply generateSinglePassword_general in E as (_ & _ & Hr); [|done].
    destruct Hr as (Hlen & (c & rest & -> & _ & Hrest & _) & _).
    split; [done|]. simpl. rewrite Nat2Z.inj_succ, Hrest. lia.
Qed.

Lemma selector_length_edges_witness :
  fastPath false false [] = false /\
  forall password,
    fst (generateSinglePassword (fun k => k) 0 numbersSet numbersSet false
           false false [] (RState 0 0)) = inr password ->
    0 <= 0 <= 4294967295 /\ Z.of_nat (length password) = Z.max 1 0.
Proof.
  split; [reflexivity|].
  apply (selector_length_edges (fun k => k) 0 numbersSet numbersSet false
           false [] (RState 0 0)).
  reflexivity.
Defined.

(** * The option checkboxes *)

Lemma updateNoStartNumber_lookup (doc : document) id :
  updateNoStartNumber doc !! id
  = if decide (id = noStartNumberId) then
      match doc !! includeNumbersId with
      | Some includeNumbers =>
          guardElement (checked includeNumbers && otherThanNumbers doc)
            <$> doc !! noStartNumberId
      | None => doc !! noStartNumberId
      end
    else doc !! id.
Proof.
  unfold updateNoStartNumber, otherThanNumbers, guardElement.
  destruct (doc !! includeNumbersId) as [inc|] eqn:Hinc;
    [|by case_decide; subst].
  destruct (doc !! noStartNumberId) as [el|] eqn:Hel;
    [|by case_decide; subst; rewrite ?Hel].
  destruct (checked inc); simpl.
  - destruct (isChecked (doc !! includeLowercaseId)
              || isChecked (doc !! includeUppercaseId)
              || isChecked (doc !! includeSymbolsId));
      case_decide; subst;
      by rewrite ?lookup_insert_eq, ?lookup_insert_ne by done.
  - case_decide; subst;
      by rewrite ?lookup_insert_eq, ?lookup_insert_ne by done.
Qed.

Lemma updateNoStartSymbol_lookup (doc : document) id :
  updateNoStartSymbol doc !! id
  = if decide (id = noStartSymbolId) then
      match doc !! includeSymbolsId with
      | Some includeSymbols =>
          guardElement (checked includeSymbols && otherThanSymbols doc)
            <$> doc !! noStartSymbolId
      | None => doc !! noStartSymbolId
      end
    else doc !! id.
Proof.
  unfold updateNoStartSymbol, otherThanSymbols, guardElement.
  destruct (doc !! includeSymbolsId) as [inc|] eqn:Hinc;
    [|by case_decide; subst].
  destruct (doc !! noStartSymbolId) as [el|] eqn:Hel;
    [|by case_decide; subst; rewrite ?Hel].
  destruct (checked inc); simpl.
  - destruct (isChecked (doc !! includeLowercaseId)
              || isChecked (doc !! includeUppercaseId)
              || isChecked (doc !! includeNumbersId));
      case_decide; subst;
      by rewrite ?lookup_insert_eq, ?lookup_insert_ne by done.
  - case_decide; subst;
      by rewrite ?lookup_insert_eq, ?lookup_insert_ne by done.
Qed.

Lemma updateNoSimilar_lookup (doc : document) id :
  updateNoSimilar doc !! id
  = if decide (id = noSimilarId) then
      guardElement (negb (numbersOnly doc)) <$> doc !! noSimilarId
    else doc !! id.
Proof.
  unfold updateNoSimilar, guardElement. fold (numbersOnly doc).
  destruct (doc !! noSimilarId) as [el|] eqn:Hel;
    [|by case_decide; subst; rewrite ?Hel].
  destruct (numbersOnly doc); case_decide; subst;
    by rewrite ?lookup_insert_eq, ?lookup_insert_ne by done.
Qed.

(** The updaters leave the category checkboxes alone, hence also the
    conditions computed from them. *)
Lemma updateNoStartNumber_conditions (doc : document) :
  otherThanNumbers (updateNoStartNumber doc) = otherThanNumbers doc /\
  otherThanSymbols (updateNoStartNumber doc) = otherThanSymbols doc /\
  numbersOnly (updateNoStartNumber doc) = numbersOnly doc.
Proof.
  unfold otherThanNumbers, otherThanSymbols, numbersOnly.
  rewrite !updateNoStartNumber_lookup. by repeat case_decide.
Qed.

Lemma updateNoStartSymbol_conditions (doc : document) :
  otherThanNumbers (updateNoStartSymbol doc) = otherThanNumbers doc /\
  otherThanSymbols (updateNoStartSymbol doc) = otherThanSymbols doc /\
  numbersOnly (updateNoStartSymbol doc) = numbersOnly doc.
Proof.
  unfold otherThanNumbers, otherThanSymbols, numbersOnly.
  rewrite !updateNoStartSymbol_lookup. by repeat case_decide.
Qed.

(** The element under every id after updateAllOptions. *)
Lemma updateAllOptions_lookup (doc : document) id :
  updateAllOptions doc !! id = optionAfterUpdate doc id.
Proof.
  unfold updateAllOptions, optionAfterUpdate.
  rewrite updateNoSimilar_lookup.
  destruct (updateNoStartSymbol_conditions (updateNoStartNumber doc))
    as (_ & _ & ->).
  destruct (updateNoStartNumber_conditions doc) as (_ & Hsym & ->).
  rewrite !updateNoStartSymbol_lookup, Hsym, !updateNoStartNumber_lookup.
  repeat case_decide; subst; done.
Qed.

Lemma updateAllOptions_conditions (doc : document) :
  isChecked (updateAllOptions doc !! includeNumbersId)
  = isChecked (doc !! includeNumbersId) /\
  isChecked (updateAllOptions doc !! includeSymbolsId)
  = isChecked (doc !! includeSymbolsId) /\
  otherThanNumbers (updateAllOptions doc) = otherThanNumbers doc /\
  otherThanSymbols (updateAllOptions doc) = otherThanSymbols doc /\
  numbersOnly (updateAllOptions doc) = numbersOnly doc.
Proof.
  unfold otherThanNumbers, otherThanSymbols, numbersOnly.
  rewrite !updateAllOptions_lookup. unfold optionAfterUpdate.
  by repeat case_decide.
Qed.

(** X10: after updateAllOptions, on a page that has the digits and the
    symbols checkboxes, each dependent option is disabled exactly when it
    makes no sense, and a disabled option is unchecked: "no start number"
    is enabled only if digits and one more category are checked, "no start
    symbol" only if symbols and one more category are checked, and "no
    similar" is disabled exactly when the digits are the only category. *)
Theorem updateAllOptions_guards (doc : document) :
  is_Some (doc !! includeNumbersId) -> is_Some (doc !! includeSymbolsId) ->
  let doc' := updateAllOptions doc in
  (forall el, doc' !! noStartNumberId = Some el ->
     disabled el = negb (isChecked (doc' !! includeNumbersId)
                         && otherThanNumbers doc') /\
     (disabled el = true -> checked el = false)) /\
  (forall el, doc' !! noStartSymbolId = Some el ->
     disabled el = negb (isChecked (doc' !! includeSymbolsId)
                         && otherThanSymbols doc') /\
     (disabled el = true -> checked el = false)) /\
  (forall el, doc' !! noSimilarId = Some el ->
     disabled el = numbersOnly doc' /\
     (disabled el = true -> checked el = false)).
Proof.
  intros [num Hnum] [sym Hsym] doc'. subst doc'.
  destruct (updateAllOptions_conditions doc) as (-> & -> & -> & -> & ->).
  rewrite !updateAllOptions_lookup. unfold optionAfterUpdate.
  rewrite Hnum, Hsym. simpl.
  repeat case_decide; try done.
  destruct (numbersOnly doc).
  all: split; [|split]; intros el Hel;
    [destruct (doc !! noStartNumberId) as [old|]
    |destruct (doc !! noStartSymbolId) as [old|]
    |destruct (doc !! noSimilarId) as [old|]];
    simpl in Hel; try done; inversion Hel; subst el; unfold guardElement;
    try match goal with
        | |- context [if ?b then _ else _] => destruct b
        end;
    simpl; done.
Qed.

Lemma updateAllOptions_guards_witness :
  (is_Some (digitsOnlyPage !! includeNumbersId) /\
   is_Some (digitsOnlyPage !! includeSymbolsId)) /\
  updateAllOptions digitsOnlyPage !! noSimilarId
  = Some (Element false true []) /\
  forall el, updateAllOptions digitsOnlyPage !! noSimilarId = Some el ->
    disabled el = numbersOnly (updateAllOptions digitsOnlyPage) /\
    (disabled el = true -> checked el = false).
Proof.
  assert (is_Some (digitsOnlyPage !! includeNumbersId)) as Hnum
    by (eexists; by vm_compute).
  assert (is_Some (digitsOnlyPage !! includeSymbolsId)) as Hsym
    by (eexists; by vm_compute).
  split; [done|]. split; [by vm_compute|].
  apply (updateAllOptions_guards digitsOnlyPage Hnum Hsym).
Defined.

(** X11: updateAllOptions only touches the three dependent checkboxes: it
    creates and removes no element, changes no [value], never checks a
    box, and leaves every other element as it was. *)
Theorem updateAllOptions_frame (doc : document) (id : string) :
  (updateAllOptions doc !! id = None <-> doc !! id = None) /\
  forall el', updateAllOptions doc !! id = Some el' ->
    exists el,
      doc !! id = Some el /\
      value el' = value el /\
      (checked el' = true -> checked el = true) /\
      (id <> noStartNumberId -> id <> noStartSymbolId ->
       id <> noSimilarId -> el' = el).
Proof.
  rewrite updateAllOptions_lookup. unfold optionAfterUpdate.
  assert (forall b (o : option element),
            (guardElement b <$> o = None <-> o = None) /\
            forall el', guardElement b <$> o = Some el' ->
              exists el, o = Some el /\ value el' = value el /\
                         (checked el' = true -> checked el = true)) as Hg.
  { intros b [el|]; simpl; split; try done.
    intros el' [= <-]. exists el. by destruct b. }
  repeat case_decide; subst;
    try destruct (doc !! includeSymbolsId);
    try destruct (doc !! includeNumbersId);
    try (split; [apply Hg|];
         intros el' Hel; apply Hg in Hel as (el & ? & ? & ?);
         exists el; by repeat split);
    (split; [done|]; intros el' Hel; exists el'; by repeat split).
Qed.

(** X12: running updateAllOptions a second time changes nothing. *)
Theorem updateAllOptions_idempotent (doc : document) :
  updateAllOptions (updateAllOptions doc) = updateAllOptions doc.
Proof.
  apply map_eq. intros id.
  rewrite (updateAllOptions_lookup (updateAllOptions doc)).
  unfold optionAfterUpdate at 1.
  destruct (updateAllOptions_conditions doc) as (_ & _ & -> & -> & ->).
  rewrite !updateAllOptions_lookup. unfold optionAfterUpdate.
  assert (forall b (o : option element),
            guardElement b <$> (guardElement b <$> o) = guardElement b <$> o)
    as Hg.
  { intros [|] [[? ? ?]|]; done. }
  repeat case_decide; subst; try done;
    try destruct (doc !! includeSymbolsId);
    try destruct (doc !! includeNumbersId); by rewrite ?Hg.
Qed.

(** ** The settings of a guarded page *)

Lemma numbersSet_elem_of (c : Z) : c ∈ numbersSet <-> 48 <= c <= 57.
Proof.
  unfold numbersSet. rewrite !elem_of_cons, elem_of_nil. lia.
Qed.

(** generatePasswords shows the empty-first-pool message exactly when the
    charset is non-empty and the first-character pool is empty. *)
Lemma noStartingChars_iff raw s st :
  tooltip (fst (generatePasswords raw s st)) = Some NoStartingChars
  <-> charsetOf s <> [] /\ firstCharPoolOf s = [].
Proof.
  destruct (generatePasswords_preflight raw s st)
    as [Hv|(e & Hrun & Hcase)].
  - split.
    + intros Htip.
      destruct (generatePasswords raw s st) as [out st'] eqn:Hrun.
      apply generatePasswords_run in Hrun as (_ & _ & _ & H).
      simpl in Htip. rewrite Htip in H.
      destruct H as [[Hnv _]|(_ & Herr & _)]; [done|].
      apply errorOk_cases in Herr as [?|[?|[?|[?|(k & _ & ?)]]]]; done.
    + intros [_ Hfp]. by destruct Hv as (_ & ? & _).
  - rewrite Hrun. simpl. split.
    + intros [= ->].
      destruct Hcase as [[? _]|[(_ & ? & ?)|(? & _)]]; done.
    + intros [Hcs Hfp].
      destruct Hcase as [[_ ?]|[(-> & _)|(_ & _ & ? & _)]]; done.
Qed.

(** When is the first-character pool empty, for settings whose start
    options are only set where the guards allow them and whose symbol
    string is well-formed text that holds no letter and no digit. *)
Lemma start_pool_empty_iff s :
  wellFormed (symbolsSetOf s) ->
  (forall c, c ∈ symbolsSetOf s ->
             c ∉ numbersSet ++ lowercaseSet ++ uppercaseSet) ->
  (Settings.noStartNumber s = true ->
   Settings.includeNumbers s = true /\
   (Settings.includeLowercase s = true \/ Settings.includeUppercase s = true
    \/ Settings.includeSymbols s = true)) ->
  (Settings.noStartSymbol s = true ->
   Settings.includeSymbols s = true /\
   (Settings.includeLowercase s = true \/ Settings.includeUppercase s = true
    \/ Settings.includeNumbers s = true)) ->
  (charsetOf s <> [] /\ firstCharPoolOf s = []
   <-> Settings.includeNumbers s = true /\ Settings.includeSymbols s = true /\
       Settings.includeLowercase s = false /\
       Settings.includeUppercase s = false /\
       Settings.noStartNumber s = true /\ Settings.noStartSymbol s = true).
Proof.
  intros Hwf Hsym Hnum Hsy.
  assert (forall c, c ∈ firstCharPoolOf s <->
            c ∈ charsetOf s /\
            (Settings.noStartNumber s = true -> ~ (48 <= c <= 57)) /\
            (Settings.noStartSymbol s = true -> c ∉ symbolsSetOf s)) as Hpool.
  { by apply firstCharPool_wellFormed. }
  assert (forall c, c ∈ symbolsSetOf s -> ~ (48 <= c <= 57)) as Hnodigit.
  { intros c Hc Hd. apply (Hsym c Hc). apply elem_of_app. left.
    by apply numbersSet_elem_of. }
  split.
  - intros [Hcs Hempty].
    assert (forall c, c ∉ firstCharPoolOf s) as Hnone.
    { intros c. rewrite Hempty. apply not_elem_of_nil. }
    assert (Settings.includeLowercase s = false) as Hlow.
    { destruct (Settings.includeLowercase s) eqn:E; [|done]. exfalso.
      apply (Hnone 97), Hpool. split; [|split].
      - apply charsetOf_elem_of. right. left. split; [done|by left].
      - lia.
      - intros _ Hc. apply (Hsym 97 Hc). rewrite !elem_of_app.
        right. left. by left. }
    assert (Settings.includeUppercase s = false) as Hup.
    { destruct (Settings.includeUppercase s) eqn:E; [|done]. exfalso.
      apply (Hnone 65), Hpool. split; [|split].
      - apply charsetOf_elem_of. right. right. left. split; [done|by left].
      - lia.
      - intros _ Hc. apply (Hsym 65 Hc). rewrite !elem_of_app.
        right. right. by left. }
    assert (Settings.includeNumbers s = true ->
            Settings.noStartNumber s = true) as Hn.
    { intros E. destruct (Settings.noStartNumber s) eqn:F; [done|]. exfalso.
      apply (Hnone 48), Hpool. split; [|split].
      - apply charsetOf_elem_of. left. split; [done|by left].
      - done.
      - intros _ Hc. apply (Hnodigit 48 Hc). lia. }
    assert (Settings.includeSymbols s = true ->
            Settings.noStartSymbol s = true) as Hs.
    { intros E. destruct (Settings.noStartSymbol s) eqn:F; [done|]. exfalso.
      assert (exists x, x ∈ symbolsSetOf s) as [x Hin].
      { destruct (symbolsSetOf s) as [|x l] eqn:Hx; [|by exists x; left].
        apply symbolsSetOf_empty in Hx. congruence. }
      apply (Hnone x), Hpool. split; [|split].
      - apply charsetOf_elem_of. right. right. right. done.
      - intros _. by apply Hnodigit.
      - done. }
    assert (Settings.includeNumbers s = true \/
            Settings.includeSymbols s = true) as Hsome.
    { destruct (Settings.includeNumbers s) eqn:E1; [by left|].
      destruct (Settings.includeSymbols s) eqn:E2; [by right|]. exfalso.
      apply Hcs. unfold charsetOf. by rewrite E1, E2, Hlow, Hup. }
    rewrite Hlow, Hup in *.
    destruct Hsome as [E|E].
    + destruct (Hnum (Hn E)) as (_ & [?|[?|E']]); try done.
      repeat split; auto.
    + destruct (Hsy (Hs E)) as (_ & [?|[?|E']]); try done.
      repeat split; auto.
  - intros (En & Es & El & Eu & Fn & Fs). split.
    + intros Hcs. assert (48 ∈ charsetOf s) as Hin.
      { apply charsetOf_elem_of. left. split; [done|by left]. }
      rewrite Hcs in Hin. by apply not_elem_of_nil in Hin.
    + destruct (decide (firstCharPoolOf s = [])) as [|Hne]; [done|].
      exfalso.
      assert (exists x, x ∈ firstCharPoolOf s) as [x Hin].
      { destruct (firstCharPoolOf s) as [|x l]; [done|by exists x; left]. }
      apply Hpool in Hin as (Hc & Hd & Hy).
      apply charsetOf_elem_of in Hc
        as [[_ Hc]|[[? _]|[[? _]|[_ Hc]]]]; try congruence.
      * apply numbersSet_elem_of in Hc. by apply Hd.
      * by apply Hy.
Qed.

Lemma guarded_settings parseInt (doc : document) :
  is_Some (doc !! includeNumbersId) -> is_Some (doc !! includeSymbolsId) ->
  let s := settingsOf (getSettingsFromForm parseInt (updateAllOptions doc)) in
  (Settings.noStartNumber s = true ->
   Settings.includeNumbers s = true /\
   (Settings.includeLowercase s = true \/ Settings.includeUppercase s = true
    \/ Settings.includeSymbols s = true)) /\
  (Settings.noStartSymbol s = true ->
   Settings.includeSymbols s = true /\
   (Settings.includeLowercase s = true \/ Settings.includeUppercase s = true
    \/ Settings.includeNumbers s = true)) /\
  (Settings.noSimilar s = true ->
   ~ (Settings.includeNumbers s = true /\
      Settings.includeLowercase s = false /\
      Settings.includeUppercase s = false /\
      Settings.includeSymbols s = false)).
Proof.
  intros [num Hnum] [sym Hsym] s. subst s.
  unfold getSettingsFromForm, getCheckboxState. simpl.
  rewrite !updateAllOptions_lookup. unfold optionAfterUpdate.
  repeat (case_decide; [done|]). repeat (case_decide; [|done]).
  rewrite Hnum, Hsym.
  unfold otherThanNumbers, otherThanSymbols, numbersOnly, guardElement.
  rewrite Hnum, Hsym. simpl.
  destruct (checked num), (checked sym),
    (doc !! includeLowercaseId) as [[[|] ? ?]|],
    (doc !! includeUppercaseId) as [[[|] ? ?]|],
    (doc !! noStartNumberId) as [[[|] ? ?]|],
    (doc !! noStartSymbolId) as [[[|] ? ?]|],
    (doc !! noSimilarId) as [[[|] ? ?]|]; simpl;
    repeat split; try done; try tauto; intros; intuition congruence.
Qed.

(** X13: take the settings that getSettingsFromForm reads from a page on
    which updateAllOptions has run (the digits and the symbols checkboxes
    exist), with a symbol string that is well-formed text and holds no
    letter and no digit.  Then
    generatePasswords shows the empty-first-pool message exactly when
    digits and symbols are the only categories and both start options are
    checked: the guards exclude every other way to empty the pool, not
    this one.  Also, [noSimilar] is never set while the digits are the
    only category. *)
Theorem guarded_page_start_error parseInt raw (doc : document)
    (st : rstate) :
  is_Some (doc !! includeNumbersId) -> is_Some (doc !! includeSymbolsId) ->
  let s := settingsOf (getSettingsFromForm parseInt (updateAllOptions doc)) in
  wellFormed (symbolsSetOf s) ->
  (forall c, c ∈ symbolsSetOf s ->
             c ∉ numbersSet ++ lowercaseSet ++ uppercaseSet) ->
  (tooltip (fst (generatePasswords raw s st)) = Some NoStartingChars
   <-> Settings.includeNumbers s = true /\ Settings.includeSymbols s = true /\
       Settings.includeLowercase s = false /\
       Settings.includeUppercase s = false /\
       Settings.noStartNumber s = true /\ Settings.noStartSymbol s = true) /\
  (Settings.noSimilar s = true ->
   ~ (Settings.includeNumbers s = true /\
      Settings.includeLowercase s = false /\
      Settings.includeUppercase s = false /\
      Settings.includeSymbols s = false)).
Proof.
  intros Hnum Hsym s Hwf Hclean.
  destruct (guarded_settings parseInt doc Hnum Hsym) as (Hn & Hs & Hsim).
  fold s in Hn, Hs, Hsim. split; [|done].
  rewrite noStartingChars_iff. by apply start_pool_empty_iff.
Qed.

Lemma guarded_page_start_error_witness :
  let s := settingsOf (getSettingsFromForm (fun _ => None)
                         (updateAllOptions digitsAndSymbolsPage)) in
  (is_Some (digitsAndSymbolsPage !! includeNumbersId) /\
   is_Some (digitsAndSymbolsPage !! includeSymbolsId) /\
   wellFormed (symbolsSetOf s) /\
   forall c, c ∈ symbolsSetOf s ->
             c ∉ numbersSet ++ lowercaseSet ++ uppercaseSet) /\
  (tooltip (fst (generatePasswords (fun k => k) s (RState 0 0)))
   = Some NoStartingChars
   <-> Settings.includeNumbers s = true /\ Settings.includeSymbols s = true /\
       Settings.includeLowercase s = false /\
       Settings.includeUppercase s = false /\
       Settings.noStartNumber s = true /\ Settings.noStartSymbol s = true).
Proof.
  intros s.
  assert (is_Some (digitsAndSymbolsPage !! includeNumbersId)) as Hnum
    by (eexists; by vm_compute).
  assert (is_Some (digitsAndSymbolsPage !! includeSymbolsId)) as Hsym
    by (eexists; by vm_compute).
  assert (forall c, c ∈ symbolsSetOf s ->
                    c ∉ numbersSet ++ lowercaseSet ++ uppercaseSet)
    as Hclean.
  { apply Forall_forall. apply (bool_decide_unpack _). by vm_compute. }
  assert (wellFormed (symbolsSetOf s)) as Hwf.
  { apply (bool_decide_unpack _). by vm_compute. }
  split; [done|].
  apply (guarded_page_start_error (fun _ => None) (fun k => k)
           digitsAndSymbolsPage (RState 0 0) Hnum Hsym Hwf Hclean).
Defined.

(** * Cookies *)

Lemma indexOf_zero (x s : list Z) :
  indexOf x s = 0 <-> startsWith x s = true.
Proof.
  destruct s as [|c s]; simpl; destruct (startsWith x _) eqn:E;
    try done.
  destruct (indexOf x s <? 0) eqn:Hi; [done|].
  apply Z.ltb_ge in Hi. split; [lia|done].
Qed.

Lemma trimStart_app_white (pre s : list Z) :
  Forall (fun c => isWhiteSpace c = true) pre ->
  trimStart (pre ++ s) = trimStart s.
Proof.
  induction 1 as [|c pre Hc _ IH]; [done|]. simpl. by rewrite Hc.
Qed.

Lemma trimStart_id (s : list Z) :
  (forall c, head s = Some c -> isWhiteSpace c = false) -> trimStart s = s.
Proof.
  destruct s as [|c s]; [done|]. intros H. simpl. by rewrite (H c).
Qed.

Lemma split_no_separator sep (a : list Z) :
  sep ∉ a -> split sep a = [a].
Proof.
  induction a as [|c a IH]; [done|]. intros Hin.
  apply not_elem_of_cons in Hin as [Hc Ha]. simpl.
  rewrite (proj2 (Z.eqb_neq c sep)) by done. by rewrite IH.
Qed.

Lemma split_app_separator sep (a b : list Z) :
  sep ∉ a -> split sep (a ++ sep :: b) = a :: split sep b.
Proof.
  induction a as [|c a IH]; intros Hin; simpl.
  - by rewrite Z.eqb_refl.
  - apply not_elem_of_cons in Hin as [Hc Ha].
    rewrite (proj2 (Z.eqb_neq c sep)) by done. by rewrite IH.
Qed.

(** A pair [n=v] starts with [name=] only for [n = name], the equals sign
    being in neither name. *)
Lemma startsWith_pair (name n v : list Z) :
  61 ∉ name -> 61 ∉ n ->
  startsWith (name ++ [61]) (n ++ [61] ++ v) = true <-> n = name.
Proof.
  revert n. induction name as [|a name IH]; intros n Hname Hn.
  - destruct n as [|c n]; cbn [startsWith app].
    + by rewrite Z.eqb_refl.
    + apply not_elem_of_cons in Hn as [Hc _].
      rewrite (proj2 (Z.eqb_neq 61 c)) by done. done.
  - apply not_elem_of_cons in Hname as [Ha Hname].
    destruct n as [|c n]; cbn [startsWith app].
    + rewrite (proj2 (Z.eqb_neq a 61)) by done. done.
    + apply not_elem_of_cons in Hn as [_ Hn].
      rewrite andb_true_iff, Z.eqb_eq, (IH n Hname Hn). split.
      * by intros [-> ->].
      * intros [= -> ->]. done.
Qed.

Lemma trim_cookiePair (pre : list Z) p :
  Forall (fun c => isWhiteSpace c = true) pre -> cleanPair p ->
  trim (pre ++ cookiePair p) = cookiePair p.
Proof.
  intros Hpre (_ & _ & _ & Hhead & Hlast). unfold trim.
  rewrite trimStart_app_white by done.
  assert (trimStart (cookiePair p) = cookiePair p) as ->.
  { apply trimStart_id. unfold cookiePair. intros c.
    destruct (fst p) as [|x l]; simpl; [by intros [= <-]|].
    intros [= <-]. by apply Hhead. }
  rewrite trimStart_id; [by rewrite reverse_involutive|].
  intros c. unfold cookiePair.
  rewrite !reverse_app, <- app_assoc. simpl.
  destruct (snd p) as [|x l] using rev_ind; simpl.
  - by intros [= <-].
  - rewrite reverse_app. simpl. intros [= <-]. apply Hlast.
    by rewrite last_snoc.
Qed.

Lemma findCookie_cookieString (name pre : list Z) jar :
  61 ∉ name -> 59 ∉ pre ->
  Forall (fun c => isWhiteSpace c = true) pre ->
  Forall cleanPair jar -> jar <> [] ->
  findCookie (name ++ [61]) (split 59 (pre ++ cookieString jar))
  = firstCookie name jar.
Proof.
  intros Hname. revert pre.
  induction jar as [|p jar IH]; intros pre Hsep Hpre Hjar Hne; [done|].
  apply Forall_cons in Hjar as [Hp Hjar].
  pose proof Hp as (Hn59 & Hn61 & Hv59 & _).
  assert (59 ∉ pre ++ cookiePair p) as Hclean.
  { unfold cookiePair. rewrite !not_elem_of_app, not_elem_of_cons.
    repeat split; try done. apply not_elem_of_nil. }
  assert (forall rest,
            findCookie (name ++ [61]) ((pre ++ cookiePair p) :: rest)
            = if decide (fst p = name) then Some (snd p)
              else findCookie (name ++ [61]) rest) as Hstep.
  { intros rest. cbn [findCookie]. rewrite trim_cookiePair by done.
    destruct (indexOf (name ++ [61]) (cookiePair p) =? 0) eqn:E.
    - apply Z.eqb_eq, indexOf_zero, startsWith_pair in E; [|done|done].
      rewrite decide_True by done. subst name. unfold cookiePair.
      rewrite (app_assoc (fst p)), drop_app_length. done.
    - rewrite decide_False; [done|]. intros Heq.
      apply Z.eqb_neq in E. apply E, indexOf_zero, startsWith_pair; done. }
  destruct jar as [|q jar].
  - cbn [cookieString firstCookie]. rewrite split_no_separator by done.
    by rewrite Hstep.
  - change (cookieString (p :: q :: jar))
      with (cookiePair p ++ [59; 32] ++ cookieString (q :: jar)).
    rewrite (app_assoc pre). cbn [app].
    rewrite split_app_separator by done.
    rewrite Hstep. cbn [firstCookie]. case_decide; [done|].
    apply (IH [32]); try done.
    + rewrite not_elem_of_cons. split; [done|apply not_elem_of_nil].
    + by constructor.
Qed.

(** X14: on a cookie string as the browser returns it (pairs [name=value]
    joined by a semicolon and a space, without semicolons inside, without
    an equals sign in a name and without white space around a pair),
    getCookie returns the value of the first cookie with exactly the
    name asked for, as it stands, and [null] when there is none; a cookie
    whose name only ends with, or only starts with, the name asked for is
    never taken for it. *)
Theorem getCookie_round_trip (name : list Z) (jar : list (list Z * list Z)) :
  61 ∉ name -> Forall cleanPair jar ->
  getCookie (cookieString jar) name = firstCookie name jar.
Proof.
  intros Hname Hjar. unfold getCookie.
  destruct jar as [|p jar].
  - simpl. destruct name; done.
  - apply (findCookie_cookieString name [] (p :: jar)); try done.
    apply not_elem_of_nil.
Qed.

Lemma getCookie_round_trip_witness :
  ((61 ∉ codes "passwordGenSettings") /\
   Forall cleanPair
     [(codes "xpasswordGenSettings", codes "no");
      (codes "passwordGenSettings", codes "{a:1}");
      (codes "passwordGenSettings2", codes "no")]) /\
  getCookie
    (cookieString
       [(codes "xpasswordGenSettings", codes "no");
        (codes "passwordGenSettings", codes "{a:1}");
        (codes "passwordGenSettings2", codes "no")])
    (codes "passwordGenSettings")
  = Some (codes "{a:1}").
Proof.
  assert (61 ∉ codes "passwordGenSettings") as Hname.
  { apply (bool_decide_unpack _). by vm_compute. }
  assert (Forall cleanPair
            [(codes "xpasswordGenSettings", codes "no");
             (codes "passwordGenSettings", codes "{a:1}");
             (codes "passwordGenSettings2", codes "no")]) as Hjar.
  { repeat constructor; try (apply (bool_decide_unpack _); by vm_compute);
      simpl; by intros c [= <-]. }
  split; [done|].
  exact (getCookie_round_trip _ _ Hname Hjar).
Defined.

Lemma findCookie_spec (nameEQ : list Z) (ca : list (list Z)) :
  (findCookie nameEQ ca = None
   <-> forall segment, segment ∈ ca -> ~ nameEQ `prefix_of` trim segment) /\
  (forall v, findCookie nameEQ ca = Some v ->
     exists segment, segment ∈ ca /\ trim segment = nameEQ ++ v).
Proof.
  induction ca as [|segment ca [IHnone IHsome]]; simpl.
  - split; [|done]. split; [|done]. intros _ segment Hin.
    by apply elem_of_nil in Hin.
  - destruct (indexOf nameEQ (trim segment) =? 0) eqn:E.
    + apply Z.eqb_eq, indexOf_zero, startsWith_prefix in E. split.
      * split; [done|]. intros H. exfalso. by apply (H segment); [left|].
      * intros v [= <-]. exists segment. split; [left|].
        destruct E as [k ->]. by rewrite drop_app_length.
    + apply Z.eqb_neq in E. split.
      * rewrite IHnone. split.
        -- intros H seg Hin. apply elem_of_cons in Hin as [->|Hin].
           ++ intros Hp. by apply E, indexOf_zero, startsWith_prefix.
           ++ by apply H.
        -- intros H seg Hin. apply H. by right.
      * intros v Hv. destruct (IHsome v Hv) as (seg & Hin & Hseg).
        exists seg. split; [by right|done].
Qed.

(** X15: on any cookie string, getCookie cuts the string at the
    semicolons, trims the pieces, and returns the text after [name=] of a
    piece that starts with it; it returns [null] exactly when no trimmed
    piece starts with [name=], in particular on the empty string. *)
Theorem getCookie_spec (cookie name : list Z) :
  (getCookie cookie name = None
   <-> forall segment, segment ∈ split 59 cookie ->
         ~ (name ++ [61]) `prefix_of` trim segment) /\
  (forall v, getCookie cookie name = Some v ->
     exists segment, segment ∈ split 59 cookie /\
                     trim segment = name ++ [61] ++ v) /\
  getCookie [] name = None.
Proof.
  unfold getCookie.
  destruct (findCookie_spec (name ++ [61]) (split 59 cookie))
    as [Hnone Hsome].
  split; [done|]. split.
  - intros v Hv. destruct (Hsome v Hv) as (seg & ? & Hseg).
    exists seg. split; [done|]. by rewrite Hseg, <- app_assoc.
  - simpl. by destruct name.
Qed.

(** * Too few characters on the selector path *)

(** A string without repetition is no longer than the alphabet it is
    taken from. *)
Lemma NoDup_length_le (l k : list Z) :
  NoDup l -> (forall x, x ∈ l -> x ∈ k) -> (length l <= length k)%nat.
Proof. intros Hnd Hsub. by apply submseteq_length, NoDup_submseteq. Qed.

(** X16: on the selector path with [noDuplicate], when the similar filter
    leaves fewer characters than [length] asks for, generatePasswords
    returns no password at all: the feasibility check, made on the charset
    before the filter, lets the request through, and the first password
    then fails at some position, for every random source. *)
Theorem selector_path_starves raw (s : Settings.t) (st : rstate) :
  validated s -> Settings.noDuplicate s = true -> usesShuffle s = false ->
  Z.of_nat (length (effectiveCharset s)) < Settings.length s ->
  1 <= Settings.amount s ->
  let out := fst (generatePasswords raw s st) in
  passwordList out = [] /\ exists e, tooltip out = Some e /\ errorOk s e.
Proof.
  intros Hv Hnd Hsel Hfew Hamount out. subst out.
  destruct (generatePasswords raw s st) as [out st'] eqn:Hrun.
  apply generatePasswords_run in Hrun as (Hall & _ & _ & Htip). cbn [fst].
  assert (passwordList out = []) as Hnone.
  { destruct (passwordList out) as [|password list]; [done|]. exfalso.
    apply Forall_cons in Hall as [(Hnodup & _ & Hlength & _ & Hmem) _].
    specialize (Hnodup Hnd). rewrite Hsel in Hlength.
    destruct Hmem as (c & rest & -> & Hc & Hrest).
    assert (length (c :: rest) <= length (effectiveCharset s))%nat.
    { apply NoDup_length_le; [done|]. intros x Hx.
      apply elem_of_cons in Hx as [->|Hx]; [|by apply Hrest].
      by apply effective_subseteq. }
    lia. }
  split; [done|]. rewrite Hnone in Htip.
  destruct (tooltip out) as [e|].
  - exists e. split; [done|].
    destruct Htip as [[Hnv _]|(_ & ? & _)]; done.
  - destruct Htip as [_ Hcount]. simpl in Hcount. lia.
Qed.

Lemma selector_path_starves_witness :
  (validated seventyDistinct /\
   Settings.noDuplicate seventyDistinct = true /\
   usesShuffle seventyDistinct = false /\
   Z.of_nat (length (effectiveCharset seventyDistinct))
   < Settings.length seventyDistinct /\
   1 <= Settings.amount seventyDistinct) /\
  let out := fst (generatePasswords (fun k => (3 * k + 1)%nat)
                                    seventyDistinct (RState 0 0)) in
  passwordList out = [] /\
  exists e, tooltip out = Some e /\ errorOk seventyDistinct e.
Proof.
  assert (validated seventyDistinct) as Hv by (by vm_compute).
  assert (Settings.noDuplicate seventyDistinct = true) as Hnd
    by reflexivity.
  assert (usesShuffle seventyDistinct = false) as Hsel by reflexivity.
  assert (Z.of_nat (length (effectiveCharset seventyDistinct))
          < Settings.length seventyDistinct) as Hfew by (by vm_compute).
  assert (1 <= Settings.amount seventyDistinct) as Hamount
    by (simpl; lia).
  split; [done|].
  apply (selector_path_starves (fun k => (3 * k + 1)%nat) seventyDistinct
           (RState 0 0) Hv Hnd Hsel Hfew Hamount).
Defined.

(** * The earlier generator *)

Lemma legacy_firstAttempts_run raw attempts (pool : list Z) similar k r k' :
  Legacy.firstAttempts raw attempts pool similar k = (r, k') ->
  (k <= k' <= k + attempts)%nat /\
  forall c, r = Some c -> c ∈ pool /\ Legacy.has similar c = false.
Proof.
  revert k. induction attempts as [|n IH]; intros k H; simpl in H.
  - inversion H; subst. split; [lia|done].
  - destruct (pool !! _) as [c|] eqn:Hc.
    + destruct (Legacy.has similar c) eqn:Hs.
      * apply IH in H as [? ?]. split; [lia|done].
      * inversion H; subst. split; [lia|]. intros ? [= <-].
        split; [by eapply list_elem_of_lookup_2|done].
    + inversion H; subst. split; [lia|done].
Qed.

Lemma legacy_restAttempts_run raw attempts (charset : list Z) similar used
    symbols noSeq prev count quota k p k' :
  Legacy.restAttempts raw attempts charset similar used symbols noSeq prev
                      count quota k = (p, k') ->
  (k <= k' <= k + attempts)%nat /\
  match p with
  | Legacy.Accepted c =>
      c ∈ charset /\ Legacy.has similar c = false /\
      Legacy.used used c = false /\
      (noSeq = true -> Z.abs (c - prev) <> 1) /\
      (Legacy.has symbols c = true -> count < quota)
  | Legacy.Exhausted => True
  | Legacy.NoCharCode => charset = []
  end.
Proof.
  revert k. induction attempts as [|n IH]; intros k H; simpl in H.
  - inversion H; subst. split; [lia|done].
  - destruct (charset !! _) as [c|] eqn:Hc.
    + destruct (Legacy.has similar c || Legacy.used used c
                || noSeq && (Z.abs (c - prev) =? 1)
                || Legacy.has symbols c && (quota <=? count)) eqn:Hrej.
      * apply IH in H as [? ?]. split; [lia|done].
      * inversion H; subst. split; [lia|].
        apply orb_false_iff in Hrej as [Hrej Hsym].
        apply orb_false_iff in Hrej as [Hrej Hseq].
        apply orb_false_iff in Hrej as [Hsim Hused].
        split; [by eapply list_elem_of_lookup_2|].
        split; [done|]. split; [done|]. split.
        -- intros ->. simpl in Hseq. by apply Z.eqb_neq.
        -- intros Hs. rewrite Hs in Hsym. simpl in Hsym.
           by apply Z.leb_gt.
    + destruct noSeq; inversion H; subst; (split; [lia|]); [|done].
      by eapply lookup_mod_None.
Qed.

Lemma legacy_has_used c (u : gset Z) :
  Legacy.used (Some u) c = false <-> c ∉ u.
Proof. simpl. apply bool_decide_eq_false. Qed.

Lemma legacy_fillRest_run raw todo (charset : list Z) similar symbols noSeq
    quota (password : list Z) prev used count k r k' :
  Legacy.fillRest raw todo charset similar symbols noSeq quota password prev
                  used count k = (r, k') ->
  (k <= k' <= k + 100 * todo)%nat /\
  match r with
  | inr result =>
      (exists more, result = password ++ more /\ length more = todo /\
         forall c, c ∈ more -> c ∈ charset /\ Legacy.has similar c = false) /\
      (forall u, used = Some u -> NoDup password ->
                 (forall c, c ∈ password -> c ∈ u) -> NoDup result) /\
      (noSeq = true -> last password = Some prev ->
       adjacentApart password -> adjacentApart result) /\
      (count = symbolsIn (symbolsOf symbols) password ->
       count <= quota -> symbolsIn (symbolsOf symbols) result <= quota)
  | inl e => e = Legacy.FailedConstraints \/
             (e = Legacy.UndefinedCharCode /\ charset = [])
  end.
Proof.
  revert password prev used count k.
  induction todo as [|todo IH]; intros password prev used count k H.
  - simpl in H. inversion H; subst. split; [lia|]. split.
    { exists []. rewrite app_nil_r. split; [done|]. split; [done|].
      intros c Hc. by apply elem_of_nil in Hc. }
    split; [done|]. split; [done|]. by intros ->.
  - cbn [Legacy.fillRest] in H.
    destruct (Legacy.restAttempts raw 100 charset similar used symbols noSeq
                prev count quota k) as [p k1] eqn:Hp.
    apply legacy_restAttempts_run in Hp as [Hk Hp].
    destruct p as [c| |].
    + destruct Hp as (Hin & Hsim & Hused & Hseq & Hsym).
      apply IH in H as [Hk' Hr]. split; [lia|].
      destruct r as [e|result]; [done|].
      destruct Hr as ((more & -> & Hlen & Hmore) & Hnodup & Hadj & Hcount).
      split.
      { exists (c :: more). rewrite <- app_assoc. split; [done|].
        split; [simpl; lia|]. intros x Hx.
        apply elem_of_cons in Hx as [->|Hx]; [done|by apply Hmore]. }
      split; [|split].
      * intros u -> Hnd Hsub. apply (Hnodup ({[c]} ∪ u)); [done| |].
        -- apply NoDup_app. split; [done|]. split; [|apply NoDup_singleton].
           intros x Hx Hx'. apply list_elem_of_singleton in Hx'. subst x.
           apply legacy_has_used in Hused. by apply Hused, Hsub.
        -- intros x Hx. apply elem_of_app in Hx as [Hx|Hx].
           ++ apply elem_of_union_r. by apply Hsub.
           ++ apply list_elem_of_singleton in Hx. subst x.
              by apply elem_of_union_l, elem_of_singleton.
      * intros Hns Hlast Hfront. apply Hadj; [done|by rewrite last_snoc|].
        apply last_Some in Hlast as [front ->].
        apply adjacentApart_snoc; [done|by apply Hseq].
      * intros -> Hq. apply Hcount; [by rewrite symbolsIn_snoc|].
        unfold countSymbol. destruct symbols as [s|]; [|done].
        case_bool_decide as Hcs; [|done].
        assert (Legacy.has (Some s) c = true) as Hhas.
        { simpl. by apply bool_decide_eq_true. }
        specialize (Hsym Hhas). lia.
    + inversion H; subst. split; [lia|]. by left.
    + inversion H; subst. split; [lia|]. by right.
Qed.

Lemma legacy_not_similar (similarChars : list Z) c :
  Legacy.has (if isEmpty similarChars then None
              else Some (list_to_set (codePoints similarChars))) c = false ->
  [c] ∉ codePoints similarChars.
Proof.
  destruct similarChars as [|x l]; [intros _; apply not_elem_of_nil|].
  cbn [isEmpty Legacy.has].
  rewrite bool_decide_eq_false, elem_of_list_to_set. done.
Qed.

Lemma ceilTenth_positive len : 1 <= len -> 1 <= ceilTenth len.
Proof. intros. unfold ceilTenth. apply Z.div_le_lower_bound; lia. Qed.

(** One password of the earlier generator. *)
Lemma legacy_generateSinglePassword_run raw len (charset pool : list Z)
    similarChars noDuplicate noSequential symbolsSet k r k' :
  Legacy.generateSinglePassword raw len charset pool similarChars
    noDuplicate noSequential symbolsSet k = (r, k') ->
  (k <= k' <= k + 100 * S (Z.to_nat (len - 1)))%nat /\
  match r with
  | inr password =>
      0 <= len <= 4294967295 /\
      (exists c rest, password = c :: rest /\
                      length rest = Z.to_nat (len - 1) /\ c ∈ pool /\
                      forall x, x ∈ rest -> x ∈ charset) /\
      (forall c, c ∈ password -> [c] ∉ codePoints similarChars) /\
      (noDuplicate = true -> NoDup password) /\
      (noSequential = true -> adjacentApart password) /\
      (symbolsSet <> [] -> 1 <= len ->
       symbolsIn (list_to_set (codePoints symbolsSet)) password
       <= ceilTenth len)
  | inl e =>
      (e = Legacy.InvalidArrayLength /\ (len < 0 \/ 4294967295 < len)) \/
      e = Legacy.FailedStartingChar \/ e = Legacy.FailedConstraints \/
      (e = Legacy.UndefinedCharCode /\ charset = [])
  end.
Proof.
  unfold Legacy.generateSinglePassword.
  destruct ((len <? 0) || (4294967295 <? len)) eqn:Hlen.
  { intros H. inversion H; subst. split; [lia|]. left. split; [done|].
    apply orb_true_iff in Hlen as [E|E]; apply Z.ltb_lt in E; lia. }
  apply orb_false_iff in Hlen as [Hlen Hlen'].
  apply Z.ltb_ge in Hlen. apply Z.ltb_ge in Hlen'.
  destruct (Legacy.firstAttempts raw 100 pool _ k) as [first k1] eqn:Hfirst.
  apply legacy_firstAttempts_run in Hfirst as [Hk Hfirst].
  destruct first as [c|]; intros H.
  - destruct (Hfirst c eq_refl) as [Hc Hsim].
    apply legacy_fillRest_run in H as [Hk' Hr]. split; [lia|].
    destruct r as [e|password]; [tauto|].
    destruct Hr as ((more & -> & Hmlen & Hmore) & Hnodup & Hadj & Hcount).
    split; [done|]. split.
    { exists c, more. repeat split; try done. intros x Hx.
      by apply Hmore. }
    split; [|split; [|split]].
    + intros x Hx. apply legacy_not_similar.
      apply elem_of_cons in Hx as [->|Hx]; [done|by apply Hmore].
    + intros ->. apply (Hnodup ({[c]} ∪ ∅)); [done|apply NoDup_singleton|].
      intros x Hx. apply list_elem_of_singleton in Hx. subst x.
      by apply elem_of_union_l, elem_of_singleton.
    + intros Hns. apply Hadj; [done|done|].
      intros i a b Ha Hb. by destruct i.
    + intros Hs Hpos. apply isEmpty_false in Hs. rewrite Hs in *.
      pose proof (ceilTenth_positive len Hpos).
      apply Hcount.
      * change [c] with ([] ++ [c]). by rewrite symbolsIn_snoc.
      * unfold countSymbol. case_bool_decide; lia.
  - inversion H; subst. split; [lia|]. right. by left.
Qed.

(** The call that the loop of the earlier generatePasswords makes. *)
Lemma legacy_generateLoop_run raw s todo shown k out k' :
  charsetOf s <> [] ->
  Legacy.generateLoop raw s todo shown k = (out, k') ->
  exists new,
    Legacy.passwordList out = shown ++ new /\
    Forall (legacyPasswordOk s) new /\
    match Legacy.tooltip out with
    | None => length new = todo
    | Some e =>
        (length new < todo)%nat /\
        ((e = Legacy.InvalidArrayLength /\
          (Settings.length s < 0 \/ 4294967295 < Settings.length s)) \/
         e = Legacy.FailedStartingChar \/ e = Legacy.FailedConstraints)
    end /\
    (k <= k' <= k + 100 * S (Z.to_nat (Settings.length s - 1)) * todo)%nat.
Proof.
  intros Hcs. revert shown k.
  induction todo as [|todo IH]; intros shown k H.
  - simpl in H. inversion H; subst. exists []. simpl.
    rewrite app_nil_r. repeat split; try lia; done.
  - cbn [Legacy.generateLoop] in H.
    destruct (Legacy.generateSinglePassword raw _ _ _ _ _ _ _ k)
      as [[e|password] k1] eqn:Hone;
      apply legacy_generateSinglePassword_run in Hone as [Hk Hr].
    + inversion H; subst. exists []. cbn [Legacy.passwordList
        Legacy.tooltip length]. rewrite app_nil_r.
      split; [done|]. split; [done|]. split; [|nia]. split; [lia|].
      destruct Hr as [?|[?|[?|[_ ?]]]]; tauto.
    + apply IH in H as (new & Hlist & Hall & Htip & Hk').
      exists (password :: new). rewrite Hlist, <- app_assoc.
      cbn [app length]. split; [done|]. split.
      * constructor; [|done].
        destruct Hr as (Hlen & (c & rest & -> & Hrest & Hc & Hin) & Hsim
                        & Hnd & Hseq & Hsym).
        split; [done|]. split; [simpl; lia|]. split.
        { exists c, rest. done. }
        split.
        { intros E c0 Hc0. rewrite E in Hsim. specialize (Hsim c0 Hc0).
          intros Hc1. apply Hsim. rewrite similarChars_units.
          apply list_elem_of_fmap. by exists c0. }
        split; [done|]. split; [done|].
        intros Hs. apply Hsym. intros E.
        apply symbolsSetOf_empty in E. congruence.
      * split; [|nia]. destruct (Legacy.tooltip out); [|lia].
        split; [lia|tauto].
Qed.

Lemma legacy_generatePasswords_run raw s k out k' :
  Legacy.generatePasswords raw s k = (out, k') ->
  Forall (legacyPasswordOk s) (Legacy.passwordList out) /\
  (k <= k'
   <= k + 100 * S (Z.to_nat (Settings.length s - 1))
          * Z.to_nat (Settings.amount s))%nat /\
  Legacy.tooltip out <> Some Legacy.UndefinedCharCode /\
  (Legacy.tooltip out = None ->
   length (Legacy.passwordList out) = Z.to_nat (Settings.amount s)).
Proof.
  unfold Legacy.generatePasswords.
  destruct (isEmpty (charsetOf s)) eqn:Hcs.
  { intros H. inversion H; subst. simpl. repeat split; try done; lia. }
  destruct (length (firstCharPoolOf s) =? 0)%nat.
  { intros H. inversion H; subst. simpl. repeat split; try done; lia. }
  apply isEmpty_false in Hcs. intros H.
  apply legacy_generateLoop_run in H as (new & Hlist & Hall & Htip & Hk);
    [|done].
  simpl in Hlist. subst new. split; [done|]. split; [lia|].
  destruct (Legacy.tooltip out) as [e|]; [|done].
  split; [|done]. intros [= ->]. destruct Htip as (_ & [[? _]|[?|?]]); done.
Qed.

(** X17: every password that the earlier generatePasswords returns has
    [max(1, length)] characters, starts in the first-character pool and
    stays in the charset, holds none of [iIl1oO0] under [noSimilar], no
    character twice under [noDuplicate], no two neighbours with codes one
    apart under [noSequential], and, for a length of at least 1 with
    symbols on, at most [ceil(length * 0.1)] members of the set of
    symbols.  That set holds the code points of the symbol string; a
    character of the password is one unit, so the units of a surrogate
    pair are not counted.  When the symbol string holds no surrogate pair
    the bound is on the characters that occur in the symbol string. *)
Theorem legacy_passwords_ok raw (s : Settings.t) (k : nat) :
  Forall (fun password =>
            Z.of_nat (length password) = Z.max 1 (Settings.length s) /\
            (exists c rest, password = c :: rest /\ c ∈ firstCharPoolOf s /\
                            forall x, x ∈ rest -> x ∈ charsetOf s) /\
            (Settings.noSimilar s = true ->
             forall c, c ∈ password -> c ∉ codes "iIl1oO0") /\
            (Settings.noDuplicate s = true -> NoDup password) /\
            (Settings.noSequential s = true -> adjacentApart password) /\
            (Settings.includeSymbols s = true -> 1 <= Settings.length s ->
             symbolsIn (list_to_set (codePoints (symbolsSetOf s))) password
             <= ceilTenth (Settings.length s)) /\
            (Settings.includeSymbols s = true -> 1 <= Settings.length s ->
             noPairs (symbolsSetOf s) ->
             unitsIn (symbolsSetOf s) password
             <= ceilTenth (Settings.length s)))
         (Legacy.passwordList (fst (Legacy.generatePasswords raw s k))).
Proof.
  destruct (Legacy.generatePasswords raw s k) as [out k'] eqn:Hrun.
  apply legacy_generatePasswords_run in Hrun as (Hall & _). simpl.
  eapply Forall_impl; [exact Hall|].
  intros password (_ & Hlen & Hmem & Hsim & Hnd & Hseq & Hsym).
  repeat (split; [done|]). intros Hflag Hpos Hunits.
  rewrite <- symbolsIn_noPairs by done. by apply Hsym.
Qed.

(** X18: the earlier generator has no uniqueness check before it starts.
    With [noDuplicate] and a length above the number of characters left
    after the similar filter it never returns a password: the first one
    fails after its attempts are used up, for every random source. *)
Theorem legacy_starves raw (s : Settings.t) (k : nat) :
  Settings.noDuplicate s = true ->
  Z.of_nat (length (effectiveCharset s)) < Settings.length s ->
  1 <= Settings.amount s ->
  let out := fst (Legacy.generatePasswords raw s k) in
  Legacy.passwordList out = [] /\ Legacy.tooltip out <> None.
Proof.
  intros Hnd Hfew Hamount out. subst out.
  destruct (Legacy.generatePasswords raw s k) as [out k'] eqn:Hrun.
  apply legacy_generatePasswords_run in Hrun as (Hall & _ & _ & Htip).
  cbn [fst].
  assert (Legacy.passwordList out = []) as Hnone.
  { destruct (Legacy.passwordList out) as [|password list]; [done|].
    exfalso.
    apply Forall_cons in Hall
      as [(_ & Hlength & (c & rest & -> & Hc & Hrest) & Hsim & Hnodup & _) _].
    assert (length (c :: rest) <= length (effectiveCharset s))%nat.
    { apply NoDup_length_le; [by apply Hnodup|]. intros x Hx.
      assert (x ∈ charsetOf s) as Hin.
      { apply elem_of_cons in Hx as [->|Hx0]; [|by apply Hrest].
        exact (sublist_subseteq _ _ (firstCharPoolOf_sublist s) _ Hc). }
      unfold effectiveCharset, similarFiltered.
      destruct (Settings.noSimilar s) eqn:E; [|done].
      apply filterSimilarChars_elem_of. split; [done|]. by apply Hsim. }
    lia. }
  split; [done|]. intros E. specialize (Htip E).
  rewrite Hnone in Htip. simpl in Htip. lia.
Qed.

Lemma legacy_starves_witness :
  (Settings.noDuplicate nineDistinctDigits = true /\
   Z.of_nat (length (effectiveCharset nineDistinctDigits))
   < Settings.length nineDistinctDigits /\
   1 <= Settings.amount nineDistinctDigits) /\
  let out := fst (Legacy.generatePasswords (fun k => (7 * k + 3)%nat)
                                           nineDistinctDigits 0) in
  Legacy.passwordList out = [] /\ Legacy.tooltip out <> None.
Proof.
  assert (Settings.noDuplicate nineDistinctDigits = true) as Hnd
    by reflexivity.
  assert (Z.of_nat (length (effectiveCharset nineDistinctDigits))
          < Settings.length nineDistinctDigits) as Hfew by (by vm_compute).
  assert (1 <= Settings.amount nineDistinctDigits) as Hamount
    by (simpl; lia).
  split; [done|].
  apply (legacy_starves (fun k => (7 * k + 3)%nat) nineDistinctDigits 0
           Hnd Hfew Hamount).
Defined.

(** X19: the earlier generator reads at most 100 random values per
    position, for the first position as for the others, hence at most
    [100 * max(1, length) * amount] for a batch; it never calls
    [charCodeAt] on [undefined]; and a run without an error message
    returns exactly [amount] passwords. *)
Theorem legacy_bounded_attempts raw (s : Settings.t) (k : nat) :
  let run := Legacy.generatePasswords raw s k in
  (forall pool similar k0,
     (k0 <= snd (Legacy.firstAttempts raw 100 pool similar k0)
      <= k0 + 100)%nat) /\
  (forall charset similar used symbols noSeq prev count quota k0,
     (k0 <= snd (Legacy.restAttempts raw 100 charset similar used symbols
                   noSeq prev count quota k0)
      <= k0 + 100)%nat) /\
  (k <= snd run
   <= k + 100 * S (Z.to_nat (Settings.length s - 1))
          * Z.to_nat (Settings.amount s))%nat /\
  Legacy.tooltip (fst run) <> Some Legacy.UndefinedCharCode /\
  (Legacy.tooltip (fst run) = None ->
   length (Legacy.passwordList (fst run)) = Z.to_nat (Settings.amount s)).
Proof.
  intros run. subst run. split; [|split].
  - intros pool similar k0.
    destruct (Legacy.firstAttempts raw 100 pool similar k0) as [r k1]
      eqn:Hrun.
    by apply legacy_firstAttempts_run in Hrun as [? _].
  - intros charset similar used symbols noSeq prev count quota k0.
    destruct (Legacy.restAttempts raw 100 charset similar used symbols
                noSeq prev count quota k0) as [r k1] eqn:Hrun.
    by apply legacy_restAttempts_run in Hrun as [? _].
  - destruct (Legacy.generatePasswords raw s k) as [out k'] eqn:Hrun.
    apply legacy_generatePasswords_run in Hrun as (_ & ? & ? & ?). done.
Qed.
